(** * Sparse-coding pipeline: synthetic data, dictionaries and their comparison

    A shallow embedding of the numeric core of the repository:
    - [Gen]: the synthetic dataset generators of [run.py]
      ([generate_rand_dataset], [generate_correlated_dataset]) over exact
      rationals, with every random draw passed in explicitly;
    - the dictionary models of [autoencoders/learned_dict.py] and the
      [AutoEncoder], [cosine_sim], [mean_max_cosine_similarity] and
      [run_mmcs_with_larger] functions of [run.py] over the reals;
    - the configuration checks of [run_real_data_model] in an error monad. *)

From Stdlib Require Import String.
From Stdlib Require Import List Arith Lia Bool Permutation.
From Stdlib Require Import ZArith QArith Qminmax Qpower Lqa.
From Stdlib Require Import Reals Lra.
Import ListNotations.

(** ** Lists as tensors *)

Fixpoint map2 {A B C} (f : A -> B -> C) (a : list A) (b : list B) : list C :=
  match a, b with
  | x :: a', y :: b' => f x y :: map2 f a' b'
  | _, _ => []
  end.

(** [l[i] = x] for an index in range; the callers check the range. *)
Fixpoint set_nth {A} (l : list A) (i : nat) (x : A) : list A :=
  match l, i with
  | [], _ => []
  | _ :: l', O => x :: l'
  | y :: l', S i' => y :: set_nth l' i' x
  end.

(** [m[r, j] = x] *)
Definition set_entry {A} (m : list (list A)) (r j : nat) (x : A) : list (list A) :=
  set_nth m r (set_nth (nth r m []) j x).

(** [m[r][j]] where both indices are in range. *)
Definition lookup2 {A} (m : list (list A)) (r j : nat) : option A :=
  match nth_error m r with
  | Some row => nth_error row j
  | None => None
  end.

(** ** Exceptions

    A computation that may raise returns a [result]. *)

Inductive exn :=
| IndexError
| ZeroDivisionError
| ValueError (msg : string).

Inductive result (A : Type) :=
| Ok (a : A)
| Raise (e : exn).

Arguments Ok {A} a.
Arguments Raise {A} e.

Definition bind {A B} (r : result A) (k : A -> result B) : result B :=
  match r with
  | Ok a => k a
  | Raise e => Raise e
  end.

Notation "x <- r ;; k" := (bind r (fun x => k))
  (at level 61, r at next level, right associativity).

(** A loop whose body may raise: the first exception ends it. *)
Fixpoint for_each {S I} (body : S -> I -> result S) (items : list I) (st : S)
    : result S :=
  match items with
  | [] => Ok st
  | i :: items' => st' <- body st i ;; for_each body items' st'
  end.

(** [l[i]] read with Python's bounds check. *)
Definition get {A} (l : list A) (i : nat) : result A :=
  match nth_error l i with
  | Some x => Ok x
  | None => Raise IndexError
  end.

(** ** Synthetic data generation ([run.py], lines 187-317) *)

Module Gen.

Open Scope Q_scope.

Definition vec := list Q.
Definition mat := list vec.

(** [a * b] on tensors of the same shape. *)
Fixpoint vmul (a b : vec) : vec :=
  match a, b with
  | x :: a', y :: b' => x * y :: vmul a' b'
  | _, _ => []
  end.

Fixpoint vadd (a b : vec) : vec :=
  match a, b with
  | x :: a', y :: b' => x + y :: vadd a' b'
  | _, _ => []
  end.

Definition vscale (c : Q) (a : vec) : vec := map (Qmult c) a.

Definition vsum (a : vec) : Q := fold_right Qplus 0 a.

(** [torch.mean]: the sum over the number of elements. *)
Definition mean (a : vec) : Q := vsum a / inject_Z (Z.of_nat (length a)).

(** [row @ feats]: the combination of the rows of [feats] weighted by [row];
    [dim] is the width of [feats]. *)
Fixpoint vec_mat (dim : nat) (row : vec) (feats : mat) : vec :=
  match row, feats with
  | c :: row', f :: feats' => vadd (vscale c f) (vec_mat dim row' feats')
  | _, _ => repeat 0 dim
  end.

Definition mat_mul (dim : nat) (a : mat) (feats : mat) : mat :=
  map (fun row => vec_mat dim row feats) a.

(** [torch.where(thresh <= probs, values, 0)] on one row; [probs] is the
    one-dimensional tensor broadcast over the rows. *)
Fixpoint where_le (thresh probs values : vec) : vec :=
  match thresh, probs, values with
  | t :: thresh', p :: probs', v :: values' =>
      (if Qle_bool t p then v else 0) :: where_le thresh' probs' values'
  | _, _, _ => []
  end.

Definition nonzero (x : Q) : bool := negb (Qeq_bool x 0).

(** [row.count_nonzero()]. *)
Definition count_nonzero (row : vec) : nat := length (filter nonzero row).

(** The draws of one call: three [torch.rand] matrices of shape
    [(dataset_size, n_ground_truth_components)]. *)
Record draws := {
  dataset_thresh : mat;
  dataset_values : mat;
  feature_strengths : mat
}.

(** [torch.where(dataset_thresh <= probs, dataset_values, data_zero)] *)
Definition thresholded (probs : vec) (d : draws) : mat :=
  map2 (fun t v => where_le t probs v) (dataset_thresh d) (dataset_values d).

(** [generate_rand_dataset], returning [(feats, dataset_codes, dataset)]. *)
Definition generate_rand_dataset (activation_dim : nat) (feature_probs : vec)
    (feats : mat) (d : draws) : mat * mat * mat :=
  let dataset_codes := thresholded feature_probs d in
  let dataset :=
    mat_mul activation_dim (map2 vmul dataset_codes (feature_strengths d)) feats in
  (feats, dataset_codes, dataset).

(** [RandomDatasetGenerator.__post_init__]: [frac_nonzero] and [decay]. *)
Definition frac_nonzero (feature_num_nonzero n_ground_truth_components : nat) : Q :=
  inject_Z (Z.of_nat feature_num_nonzero) / inject_Z (Z.of_nat n_ground_truth_components).

Definition decay (feature_prob_decay : Q) (n_ground_truth_components : nat) : vec :=
  map (fun i => feature_prob_decay ^ Z.of_nat i) (seq 0 n_ground_truth_components).

(** The thresholds of [generate_correlated_dataset] (lines 290-295): the
    normal CDF of the correlated sample, decayed and rescaled. [cdf] is the
    value of [normal.cdf(corr_thresh)]. *)
Definition component_probs (cdf decay : vec) (frac_nonzero : Q) : vec :=
  let component_probs := vmul cdf decay in
  let mean_prob := mean component_probs in
  let scaler := frac_nonzero / mean_prob in
  vscale scaler component_probs.

(** Indices of the rows without a nonzero entry:
    [(dataset_codes.count_nonzero(dim=1) == 0).nonzero()[:, 0]]. *)
Fixpoint zero_rows_from (i : nat) (codes : mat) : list nat :=
  match codes with
  | [] => []
  | row :: codes' =>
      if Nat.eqb (count_nonzero row) 0
      then i :: zero_rows_from (S i) codes'
      else zero_rows_from (S i) codes'
  end.

Definition zero_sample_index (codes : mat) : list nat := zero_rows_from 0 codes.

(** [dataset_codes[zero_sample_index, random_index] = 1.0]: the index
    tensors are paired elementwise. *)
Definition force_one (codes : mat) (rows cols : list nat) : mat :=
  fold_left (fun c rj => set_entry c (fst rj) (snd rj) 1) (combine rows cols) codes.

(** [generate_correlated_dataset]; [random_index] is the value of
    [torch.randint(0, n_ground_truth_components, ...)]. *)
Definition generate_correlated_dataset (activation_dim : nat) (cdf : vec)
    (feats : mat) (frac_nonzero : Q) (decay : vec)
    (d : draws) (random_index : list nat) : mat * mat * mat :=
  let probs := component_probs cdf decay frac_nonzero in
  let dataset_codes := thresholded probs d in
  let dataset_codes :=
    force_one dataset_codes (zero_sample_index dataset_codes) random_index in
  let dataset :=
    mat_mul activation_dim (map2 vmul dataset_codes (feature_strengths d)) feats in
  (feats, dataset_codes, dataset).

Definition codes_of (r : mat * mat * mat) : mat := snd (fst r).

(** The configuration of the rescaling example: four components, two of
    them active on average, popularity decaying by a factor of ten, and a
    correlated sample whose CDF is [1/2] everywhere. *)
Definition steep_decay : vec := decay (1 # 10) 4.
Definition half_cdf : vec := [1 # 2; 1 # 2; 1 # 2; 1 # 2].
Definition half_frac : Q := frac_nonzero 2 4.

(** An independent-mode call in which no draw passes its threshold. *)
Definition sparse_probs : vec := [1 # 2; 1 # 4].
Definition unit_feats : mat := [[1; 0]; [0; 1]].
Definition high_draws : draws :=
  {| dataset_thresh := [[3 # 4; 3 # 4]];
     dataset_values := [[1 # 2; 1 # 2]];
     feature_strengths := [[1 # 2; 1 # 2]] |}.

End Gen.

(** ** Real tensors

    Tensors of floats are lists of reals; rounding and overflow are not
    modelled. A division of the source returns [None] where the float
    result is not finite (a zero divisor gives [inf] or [nan]). *)

Module Tensor.

Open Scope R_scope.

Definition vec := list R.
Definition mat := list vec.

Fixpoint dot (a b : vec) : R :=
  match a, b with
  | x :: a', y :: b' => x * y + dot a' b'
  | _, _ => 0
  end.

(** [torch.norm(v, 2)], [np.linalg.norm(v)]: the L2 norm. *)
Definition norm2 (v : vec) : R := sqrt (dot v v).

Definition vsum (a : vec) : R := fold_right Rplus 0 a.

Definition vadd (a b : vec) : vec := map2 Rplus a b.

(** [torch.clamp(x, lo)]: the lower bound only. *)
Definition clamp_min (x lo : R) : R := Rmax x lo.

Definition fdiv (x y : R) : option R :=
  if Req_dec_T y 0 then None else Some (x / y).

Fixpoint sequence {A} (l : list (option A)) : option (list A) :=
  match l with
  | [] => Some []
  | None :: _ => None
  | Some x :: l' =>
      match sequence l' with
      | Some xs => Some (x :: xs)
      | None => None
      end
  end.

(** [v / d] for a scalar [d]. *)
Definition vdiv (v : vec) (d : R) : option vec :=
  sequence (map (fun x => fdiv x d) v).

(** [m / d[:, None]]: row [i] of [m] over [d[i]]. *)
Definition div_rows (m : mat) (d : vec) : option mat :=
  sequence (map2 vdiv m d).

(** [einsum("nd,bd->bn", w, batch)], which is [batch @ w.T]. *)
Definition matmul_T (batch w : mat) : mat :=
  map (fun x => map (fun e => dot e x) w) batch.

(** [.mean()] of a one-dimensional tensor; [nan] for an empty one. *)
Definition mean (a : vec) : option R := fdiv (vsum a) (INR (length a)).

Definition column (j : nat) (w : mat) : vec := map (fun row => nth j row 0) w.

(** [w.t()] for [w] with [n] columns. *)
Definition transpose (n : nat) (w : mat) : mat :=
  map (fun j => column j w) (seq 0 n).

End Tensor.

(** ** Dictionary models ([autoencoders/learned_dict.py]) *)

Module LearnedDict.

Import Tensor.
Open Scope R_scope.

Definition eps : R := 1 / 100000000.

(** [torch.clamp(torch.norm(w, 2, dim=-1), 1e-8)]: the divisors. *)
Definition clamped_norms (w : mat) : vec :=
  let norms := map norm2 w in
  map (fun n => clamp_min n eps) norms.

(** [w / torch.clamp(norms, 1e-8)[:, None]] *)
Definition normalize_rows (w : mat) : option mat :=
  div_rows w (clamped_norms w).

(** [c = einsum(encoder, batch); c = c + bias; c = clamp(c, min=0.0)] *)
Definition affine_relu (encoder : mat) (encoder_bias : vec) (batch : mat) : mat :=
  let c := matmul_T batch encoder in
  let c := map (fun row => vadd row encoder_bias) c in
  map (map (fun x => clamp_min x 0)) c.

Module UntiedSAE.

Record t := {
  encoder : mat;
  decoder : mat;
  encoder_bias : vec
}.

(** Methods take [self] and return it next to their result. *)
Definition get_learned_dict (self : t) : option mat * t :=
  (normalize_rows (decoder self), self).

Definition encode (self : t) (batch : mat) : mat * t :=
  (affine_relu (encoder self) (encoder_bias self) batch, self).

End UntiedSAE.

Module TiedSAE.

Record t := {
  encoder : mat;
  encoder_bias : vec;
  norm_encoder : bool
}.

Definition get_learned_dict (self : t) : option mat * t :=
  (normalize_rows (encoder self), self).

Definition encode (self : t) (batch : mat) : option mat * t :=
  let encoder' :=
    if norm_encoder self then normalize_rows (encoder self)
    else Some (encoder self) in
  (match encoder' with
   | Some e => Some (affine_relu e (encoder_bias self) batch)
   | None => None
   end, self).

End TiedSAE.


End LearnedDict.

(** ** The autoencoder and its training step ([run.py], lines 352-490) *)

Module Run.

Import Tensor.
Open Scope R_scope.

(** [cosine_sim]: both arguments row-normalised by [v.T / norm], then
    [vecs1_norm @ vecs2_norm.T]. *)
Definition normalize (v : mat) : option mat := div_rows v (map norm2 v).

Definition cosine_sim (vecs1 vecs2 : mat) : option mat :=
  match normalize vecs1, normalize vecs2 with
  | Some vecs1_norm, Some vecs2_norm => Some (matmul_T vecs1_norm vecs2_norm)
  | _, _ => None
  end.

(** [row.max()]; numpy raises on an empty row, which is [None] here. *)
Definition row_max (row : vec) : option R :=
  match row with
  | [] => None
  | x :: row' => Some (fold_left Rmax row' x)
  end.

(** [mean_max_cosine_similarity]: [cos_sim.max(axis=1).mean()]. *)
Definition mean_max_cosine_similarity
    (ground_truth_features learned_dictionary : mat) : option R :=
  match cosine_sim ground_truth_features learned_dictionary with
  | Some cos_sim =>
      match sequence (map row_max cos_sim) with
      | Some maxima => mean maxima
      | None => None
      end
  | None => None
  end.

(** [AutoEncoder]: [decoder_weight] is [decoder.weight], of shape
    [(activation_size, n_dict_components)]; [encoder_weight] and
    [encoder_bias] are those of the [nn.Linear] inside [encoder]. *)
Record AutoEncoder := {
  decoder_weight : mat;
  encoder_weight : mat;
  encoder_bias : vec;
  l1_coef : R;
  activation_size : nat;
  n_dict_components : nat
}.

Definition with_params (self : AutoEncoder) (w e : mat) (b : vec) : AutoEncoder :=
  {| decoder_weight := w; encoder_weight := e; encoder_bias := b;
     l1_coef := l1_coef self; activation_size := activation_size self;
     n_dict_components := n_dict_components self |}.

Definition normalize_eps : R := 1 / 1000000000000.

(** [nn.functional.normalize(w, dim=0)]: every column over
    [max(norm, 1e-12)]. *)
Definition normalize_dim0 (n : nat) (w : mat) : mat :=
  let denom := map (fun j => Rmax (norm2 (column j w)) normalize_eps) (seq 0 n) in
  map (fun row => map2 Rdiv row denom) w.

(** [AutoEncoder.forward], returning [(x_hat, c)] and the module, whose
    [decoder.weight.data] the call overwrites. *)
Definition forward (self : AutoEncoder) (x : mat) : mat * mat * AutoEncoder :=
  let c := LearnedDict.affine_relu (encoder_weight self) (encoder_bias self) x in
  let self' :=
    with_params self
      (normalize_dim0 (n_dict_components self) (decoder_weight self))
      (encoder_weight self) (encoder_bias self) in
  let x_hat := matmul_T c (decoder_weight self') in
  (x_hat, c, self').

(** [auto_encoder.decoder.weight.data.t()] *)
Definition learned_dictionary (self : AutoEncoder) : mat :=
  transpose (n_dict_components self) (decoder_weight self).

(** [torch.nn.MSELoss()(batch, x_hat)]: the mean over all entries. *)
Definition mse_loss (batch x_hat : mat) : R :=
  vsum (map2 (fun r r' => vsum (map2 (fun a b => (a - b) * (a - b)) r r'))
             batch x_hat)
  / INR (length batch * length (hd [] batch)).

(** [l1_alpha * torch.norm(c, 1, dim=1).mean()] *)
Definition l1_loss (l1_alpha : R) (c : mat) : R :=
  l1_alpha * (vsum (map (fun row => vsum (map Rabs row)) c) / INR (length c)).

(** The gradients [loss.backward()] leaves on the three parameters, in
    closed form for [loss = mse_loss batch x_hat + l1_loss l1_alpha c]. *)
Record Grads := {
  g_decoder_weight : mat;
  g_encoder_weight : mat;
  g_encoder_bias : vec
}.

Definition backward (self : AutoEncoder) (l1_alpha : R)
    (batch x_hat c : mat) : Grads :=
  let count := INR (length batch * length (hd [] batch)) in
  let gx := map2 (map2 (fun xh x => 2 * (xh - x) / count)) x_hat batch in
  let n := n_dict_components self in
  let a := activation_size self in
  let gc :=
    map2 (fun gx_b c_b =>
            map2 (fun j c_bj =>
                    if Rlt_dec 0 c_bj
                    then dot gx_b (column j (decoder_weight self))
                         + l1_alpha / INR (length batch)
                    else 0)
                 (seq 0 n) c_b)
         gx c in
  {| g_decoder_weight :=
       map (fun i => map (fun j => dot (column i gx) (column j c)) (seq 0 n))
           (seq 0 a);
     g_encoder_weight :=
       map (fun j => map (fun k => dot (column j gc) (column k batch)) (seq 0 a))
           (seq 0 n);
     g_encoder_bias := map (fun j => vsum (column j gc)) (seq 0 n) |}.

(** [torch.optim.Adam] with its default [betas] and [eps]: the update of
    one entry at step [t], from its gradient and moment estimates. *)
Definition beta1 : R := 9 / 10.
Definition beta2 : R := 999 / 1000.
Definition adam_eps : R := 1 / 100000000.

Definition adam_entry (lr : R) (t : nat) (pgmv : R * R * (R * R)) : R * (R * R) :=
  let '(p, g, (m, v)) := pgmv in
  let exp_avg := beta1 * m + (1 - beta1) * g in
  let exp_avg_sq := beta2 * v + (1 - beta2) * (g * g) in
  let bias_correction1 := 1 - beta1 ^ t in
  let bias_correction2 := 1 - beta2 ^ t in
  let step_size := lr / bias_correction1 in
  let denom := sqrt exp_avg_sq / sqrt bias_correction2 + adam_eps in
  (p - step_size * (exp_avg / denom), (exp_avg, exp_avg_sq)).

Definition adam_vec (lr : R) (t : nat) (p g : vec) (mv : list (R * R))
    : vec * list (R * R) :=
  List.split (map (adam_entry lr t) (combine (combine p g) mv)).

Definition adam_mat (lr : R) (t : nat) (p g : mat) (mv : list (list (R * R)))
    : mat * list (list (R * R)) :=
  List.split (map (fun pgmv => adam_vec lr t (fst (fst pgmv)) (snd (fst pgmv)) (snd pgmv))
             (combine (combine p g) mv)).

Record Adam := {
  step : nat;
  s_decoder_weight : list (list (R * R));
  s_encoder_weight : list (list (R * R));
  s_encoder_bias : list (R * R)
}.

(** [optim.Adam(auto_encoder.parameters(), lr=...)]: no step taken, the
    moment estimates at zero. *)
Definition adam_init (self : AutoEncoder) : Adam :=
  {| step := 0;
     s_decoder_weight := map (map (fun _ => (0, 0))) (decoder_weight self);
     s_encoder_weight := map (map (fun _ => (0, 0))) (encoder_weight self);
     s_encoder_bias := map (fun _ => (0, 0)) (encoder_bias self) |}.

(** [optimizer.step()] *)
Definition optimizer_step (lr : R) (opt : Adam) (self : AutoEncoder) (g : Grads)
    : AutoEncoder * Adam :=
  let t := S (step opt) in
  let '(w, sw) := adam_mat lr t (decoder_weight self) (g_decoder_weight g)
                           (s_decoder_weight opt) in
  let '(e, se) := adam_mat lr t (encoder_weight self) (g_encoder_weight g)
                           (s_encoder_weight opt) in
  let '(b, sb) := adam_vec lr t (encoder_bias self) (g_encoder_bias g)
                           (s_encoder_bias opt) in
  (with_params self w e b,
   {| step := t; s_decoder_weight := sw; s_encoder_weight := se;
      s_encoder_bias := sb |}).

(** One pass of the loop body of [run_single_go] (lines 460-471; the same
    statements stand at lines 739-747 of [run_with_real_data]):
    forward, the two losses, [loss.backward()], [optimizer.step()]. *)
Definition train_step (lr l1_alpha : R) (self : AutoEncoder) (opt : Adam)
    (batch : mat) : AutoEncoder * Adam * R :=
  let '(x_hat, c, self') := forward self batch in
  let l_reconstruction := mse_loss batch x_hat in
  let g := backward self' l1_alpha batch x_hat c in
  let '(self'', opt') := optimizer_step lr opt self' g in
  (self'', opt', l_reconstruction).

(** The loop of [run_single_go] over the batches the generator yields
    (noise already added), with the running reconstruction loss. *)
Fixpoint train_loop (lr l1_alpha : R) (self : AutoEncoder) (opt : Adam)
    (running_recon_loss : R) (batches : list mat) : AutoEncoder * Adam * R :=
  match batches with
  | [] => (self, opt, running_recon_loss)
  | batch :: batches' =>
      let '(self', opt', l_reconstruction) :=
        train_step lr l1_alpha self opt batch in
      let time_horizon := 10 in
      let running := running_recon_loss * ((time_horizon - 1) / time_horizon) in
      let running := running + l_reconstruction / time_horizon in
      train_loop lr l1_alpha self' opt' running batches'
  end.

(** [run_single_go] up to the dictionary it scores (line 487): the trained
    module, its dictionary and the running loss. *)
Definition run_single_go (lr l1_alpha : R) (auto_encoder : AutoEncoder)
    (ground_truth_features : mat) (batches : list mat)
    : option R * AutoEncoder * R :=
  let '(auto_encoder', _, running_recon_loss) :=
    train_loop lr l1_alpha auto_encoder (adam_init auto_encoder) 0 batches in
  (mean_max_cosine_similarity ground_truth_features
     (learned_dictionary auto_encoder'),
   auto_encoder', running_recon_loss).

(** The decoder weight has [n_dict_components] columns. *)
Definition well_shaped (self : AutoEncoder) : Prop :=
  Forall (fun row => length row = n_dict_components self) (decoder_weight self).

(** A one-by-one autoencoder, its decoder of unit norm, and a batch of one
    sample it does not reconstruct. *)
Definition small_autoencoder : AutoEncoder :=
  {| decoder_weight := [[1]]; encoder_weight := [[1 / 2]]; encoder_bias := [0];
     l1_coef := 0; activation_size := 1; n_dict_components := 1 |}.
Definition small_batch : mat := [[1]].

(** Two ground-truth features and a dictionary listed in two orders. *)
Definition truth : mat := [[1; 0]; [0; 1]].
Definition learned : mat := [[3; 4]; [0; 2]; [1; 0]].
Definition learned_swapped : mat := [[0; 2]; [3; 4]; [1; 0]].

(** Two optional lists that are both undefined, or hold the same elements. *)
Definition same_elements {A} (a b : option (list A)) : Prop :=
  match a, b with
  | Some xs, Some ys => Permutation xs ys
  | None, None => True
  | _, _ => False
  end.

End Run.

(** ** Matching a dictionary against the next larger one
    ([run.py], lines 853-888) *)

Module Compare.

Import Tensor.
Open Scope R_scope.

Definition cosine_eps : R := 1 / 100000000.

(** [torch.nn.functional.cosine_similarity] of two vectors, each norm
    bounded below by [eps = 1e-8]. *)
Definition cosine_similarity (x y : vec) : R :=
  dot x y / (Rmax (norm2 x) cosine_eps * Rmax (norm2 y) cosine_eps).

(** Lines 871-873: row [idx] holds the similarities of the [idx]-th
    vector of the smaller dictionary to every row of the larger one. *)
Definition similarities (smaller_dict larger_dict : mat) : mat :=
  map (fun vector => map (cosine_similarity vector) larger_dict) smaller_dict.

(** Line 875, [1 - cos_sims]: the matrix handed to the solver. *)
Definition cost_matrix (smaller_dict larger_dict : mat) : mat :=
  map (map (fun s => 1 - s)) (similarities smaller_dict larger_dict).

(** [m[row_ind, col_ind]]: the entries at the paired indices. *)
Fixpoint take_pairs (m : mat) (row_ind col_ind : list nat) : result vec :=
  match row_ind, col_ind with
  | i :: row_ind', j :: col_ind' =>
      row <- get m i ;;
      x <- get row j ;;
      rest <- take_pairs m row_ind' col_ind' ;;
      Ok (x :: rest)
  | _, _ => Ok []
  end.

(** [(v > threshold).sum()] *)
Definition count_above (threshold : R) (v : vec) : nat :=
  length (filter (fun x => if Rlt_dec threshold x then true else false) v).

(** Python's [/] on two integers. *)
Definition int_div (a b : nat) : result R :=
  if Nat.eqb b 0 then Raise ZeroDivisionError else Ok (INR a / INR b).

(** The three arrays the function fills. An entry of the first may hold
    [nan] ([None]); an entry of the last is [None] until it is assigned. *)
Record arrays := {
  av_mmcs_with_larger_dicts : list (list (option R));
  feats_above_threshold : mat;
  full_max_cosine_sim_for_histograms : list (list (option vec))
}.

Definition zeros {A} (x : A) (rows cols : nat) : list (list A) :=
  repeat (repeat x cols) rows.

Section WithSolver.

(** [scipy.optimize.linear_sum_assignment], from a cost matrix to
    [(row_ind, col_ind)]. *)
Variable linear_sum_assignment : mat -> list nat * list nat.

(** Lines 863-883: one pair of dictionaries. The mean matched similarity,
    the percentage above the threshold and the matched similarities. *)
Definition compare (smaller_dict larger_dict : mat) (threshold : R)
    : result (option R * R * vec) :=
  let smaller_dict_features := length smaller_dict in
  let cos_sims := similarities smaller_dict larger_dict in
  let cos_sims := map (map (fun s => 1 - s)) cos_sims in
  let '(row_ind, col_ind) := linear_sum_assignment cos_sims in
  picked <- take_pairs cos_sims row_ind col_ind ;;
  let max_cosine_similarities := map (fun c => 1 - c) picked in
  let threshold := 9 / 10 in
  fraction <- int_div (count_above threshold max_cosine_similarities)
                      smaller_dict_features ;;
  Ok (mean max_cosine_similarities, fraction * 100, max_cosine_similarities).

(** The body of the loop at [(l1_ndx, dict_size_ndx)]. *)
Definition loop_body (learned_dicts : list (list mat)) (n_dict_sizes : nat)
    (threshold : R) (out : arrays) (ndx : nat * nat) : result arrays :=
  let '(l1_ndx, dict_size_ndx) := ndx in
  if Nat.eqb dict_size_ndx (n_dict_sizes - 1) then Ok out
  else
    dicts <- get learned_dicts l1_ndx ;;
    smaller_dict <- get dicts dict_size_ndx ;;
    larger_dict <- get dicts (dict_size_ndx + 1) ;;
    r <- compare smaller_dict larger_dict threshold ;;
    let '(av, above, max_cosine_similarities) := r in
    Ok {| av_mmcs_with_larger_dicts :=
            set_entry (av_mmcs_with_larger_dicts out) l1_ndx dict_size_ndx av;
          feats_above_threshold :=
            set_entry (feats_above_threshold out) l1_ndx dict_size_ndx above;
          full_max_cosine_sim_for_histograms :=
            set_entry (full_max_cosine_sim_for_histograms out)
                      l1_ndx dict_size_ndx (Some max_cosine_similarities) |}.

(** [run_mmcs_with_larger] *)
Definition run_mmcs_with_larger (learned_dicts : list (list mat)) (threshold : R)
    : result arrays :=
  let n_l1_coefs := length learned_dicts in
  first <- get learned_dicts 0 ;;
  let n_dict_sizes := length first in
  if Nat.eqb n_dict_sizes 0
  then Raise (ValueError "negative dimensions are not allowed")
  else
    let out :=
      {| av_mmcs_with_larger_dicts := zeros (Some 0) n_l1_coefs n_dict_sizes;
         feats_above_threshold := zeros 0 n_l1_coefs n_dict_sizes;
         full_max_cosine_sim_for_histograms :=
           zeros None n_l1_coefs (n_dict_sizes - 1) |} in
    for_each (loop_body learned_dicts n_dict_sizes threshold)
             (list_prod (seq 0 n_l1_coefs) (seq 0 n_dict_sizes)) out.

End WithSolver.

(** The comparison made for the slot [(l1_ndx, dict_size_ndx)]: the
    dictionary at that size against the one at the next size. *)
Definition slot_result (linear_sum_assignment : mat -> list nat * list nat)
    (learned_dicts : list (list mat)) (threshold : R)
    (l1_ndx dict_size_ndx : nat) : result (option R * R * vec) :=
  dicts <- get learned_dicts l1_ndx ;;
  smaller_dict <- get dicts dict_size_ndx ;;
  larger_dict <- get dicts (dict_size_ndx + 1) ;;
  compare linear_sum_assignment smaller_dict larger_dict threshold.

(** A slot that holds the result [r] of a comparison. *)
Definition written (out : arrays) (l1_ndx dict_size_ndx : nat)
    (r : option R * R * vec) : Prop :=
  lookup2 (av_mmcs_with_larger_dicts out) l1_ndx dict_size_ndx = Some (fst (fst r))
  /\ lookup2 (feats_above_threshold out) l1_ndx dict_size_ndx = Some (snd (fst r))
  /\ lookup2 (full_max_cosine_sim_for_histograms out) l1_ndx dict_size_ndx
     = Some (Some (snd r)).

(** A slot as the allocation left it: zero in the two matrices, and in the
    array of similarities, one column narrower, [None] or no slot at all. *)
Definition untouched (n_dict_sizes : nat) (out : arrays)
    (l1_ndx dict_size_ndx : nat) : Prop :=
  lookup2 (av_mmcs_with_larger_dicts out) l1_ndx dict_size_ndx = Some (Some 0)
  /\ lookup2 (feats_above_threshold out) l1_ndx dict_size_ndx = Some 0
  /\ lookup2 (full_max_cosine_sim_for_histograms out) l1_ndx dict_size_ndx
     = (if Nat.ltb dict_size_ndx (n_dict_sizes - 1) then Some None else None).

(** What [linear_sum_assignment] returns on an [n] by [m] cost matrix:
    [min n m] pairs, no row and no column used twice, of least total cost. *)
Definition entry (m : mat) (i j : nat) : R := nth j (nth i m []) 0.

Definition is_assignment (n m : nat) (a : list nat * list nat) : Prop :=
  length (fst a) = Nat.min n m /\ length (snd a) = Nat.min n m /\
  NoDup (fst a) /\ NoDup (snd a) /\
  Forall (fun i => (i < n)%nat) (fst a) /\ Forall (fun j => (j < m)%nat) (snd a).

Definition assignment_cost (cost : mat) (a : list nat * list nat) : R :=
  vsum (map2 (entry cost) (fst a) (snd a)).

Definition optimal_assignment (cost : mat) (m : nat) (a : list nat * list nat) : Prop :=
  is_assignment (length cost) m a /\
  forall a', is_assignment (length cost) m a' ->
             assignment_cost cost a <= assignment_cost cost a'.

(** The assignment of row [i] to column [i]. *)
Definition identity_assignment (cost : mat) : list nat * list nat :=
  (seq 0 (length cost), seq 0 (length cost)).

(** The fraction the threshold argument asks for: the share, in percent,
    of the matched similarities above [threshold]. *)
Definition percent_above (threshold : R) (sims : vec) : R :=
  INR (count_above threshold sims) / INR (length sims) * 100.

(** What holds of the arrays once the slots of [done] have been visited:
    a visited slot of a size other than the last is written, every other
    slot is untouched. *)
Definition visited (linear_sum_assignment : mat -> list nat * list nat)
    (learned_dicts : list (list mat)) (threshold : R) (n_dict_sizes : nat)
    (done : list (nat * nat)) (out : arrays) : Prop :=
  forall l1 k, (l1 < length learned_dicts)%nat -> (k < n_dict_sizes)%nat ->
    (In (l1, k) done -> k <> (n_dict_sizes - 1)%nat ->
       exists r, slot_result linear_sum_assignment learned_dicts threshold l1 k = Ok r
                 /\ written out l1 k r)
    /\ (~ In (l1, k) done \/ k = (n_dict_sizes - 1)%nat ->
        untouched n_dict_sizes out l1 k).

(** Two orthogonal unit rows, and a pair of one-row dictionaries at
    similarity [3/5]. *)
Definition axes : mat := [[1; 0]; [0; 1]].
Definition first_axis : mat := [[1; 0]].
Definition tilted : mat := [[3 / 5; 4 / 5]].

(** One L1 coefficient and three dictionary sizes. *)
Definition three_sizes : list (list mat) := [[first_axis; tilted; axes]].

Definition unit_rows (d : mat) : Prop := Forall (fun row => norm2 row = 1) d.

End Compare.

(** ** Configuration checks of [run_real_data_model]
    ([run.py], lines 943-1009) *)

Module Config.

Inductive loader :=
| from_pretrained (model_name : string)
| nanoGPT.

(** Lines 946-959: the model to load and [use_baukit]. *)
Definition select_model (model_name : string) : result (loader * bool) :=
  if existsb (String.eqb model_name) ["gpt2"%string; "EleutherAI/pythia-70m-deduped"%string]
  then Ok (from_pretrained model_name, false)
  else if String.eqb model_name "nanoGPT"
  then Ok (nanoGPT, true)
  else Raise (ValueError "Model name not recognised").

(** The lines [print] writes while the checkpoints are matched. *)
Inductive message :=
| Mismatch (expected got : nat)
| Loading (l1_coef : Q) (dict_size : nat)
| Unable (l1_coef : Q) (dict_size : nat).

Section Checkpoints.

(** An autoencoder, seen through the three attributes the matching reads:
    [ae.activation_size], [ae.l1_coef] and [ae.decoder.weight.shape[1]]. *)
Variable AE : Type.
Variable activation_size : AE -> nat.
Variable l1_coef : AE -> Q.
Variable dict_size : AE -> nat.

(** [l.index(x)] after [x in l] has been checked. *)
Fixpoint index {A} (eqb : A -> A -> bool) (x : A) (l : list A) : nat :=
  match l with
  | [] => 0
  | y :: l' => if eqb y x then 0 else S (index eqb x l')
  end.

Definition state : Type := list (list AE) * list message.

(** Lines 1002-1009: one loaded autoencoder. *)
Definition load_one (activation_dim : nat) (l1_range : list Q)
    (dict_sizes : list nat) (st : state) (ae : AE) : state :=
  let '(auto_encoders, out) := st in
  if negb (Nat.eqb (activation_size ae) activation_dim)
  then (auto_encoders, out ++ [Mismatch activation_dim (activation_size ae)])
  else if existsb (Qeq_bool (l1_coef ae)) l1_range
          && existsb (Nat.eqb (dict_size ae)) dict_sizes
  then (set_entry auto_encoders
          (index Qeq_bool (l1_coef ae) l1_range)
          (index Nat.eqb (dict_size ae) dict_sizes) ae,
        out ++ [Loading (l1_coef ae) (dict_size ae)])
  else (auto_encoders, out ++ [Unable (l1_coef ae) (dict_size ae)]).

(** Lines 1000-1001: every autoencoder of every loaded list. *)
Definition load_autoencoders (activation_dim : nat) (l1_range : list Q)
    (dict_sizes : list nat) (auto_encoders : list (list AE))
    (loaded_autoencoders : list (list AE)) : state :=
  fold_left
    (fun st autoencoder_list =>
       fold_left (load_one activation_dim l1_range dict_sizes) autoencoder_list st)
    loaded_autoencoders (auto_encoders, []).

(** The configuration part of [run_real_data_model]: the model is chosen,
    then the checkpoints, if any, replace the fresh autoencoders. *)
Definition run_real_data_model (model_name : string) (activation_dim : nat)
    (l1_range : list Q) (dict_sizes : list nat) (auto_encoders : list (list AE))
    (load_autoencoders_from : option (list (list AE)))
    : result (loader * bool * state) :=
  model <- select_model model_name ;;
  match load_autoencoders_from with
  | Some loaded_autoencoders =>
      Ok (model, load_autoencoders activation_dim l1_range dict_sizes
                   auto_encoders loaded_autoencoders)
  | None => Ok (model, (auto_encoders, []))
  end.

End Checkpoints.

(** The attributes of a checkpointed autoencoder. *)
Record checkpoint := {
  ck_activation_size : nat;
  ck_l1_coef : Q;
  ck_dict_size : nat
}.

(** A run configured for activations of width 512, with one fresh
    autoencoder, and a checkpoint saved at width 256. *)
Definition fresh : checkpoint :=
  {| ck_activation_size := 512; ck_l1_coef := 1 # 1000; ck_dict_size := 1024 |}.
Definition stale : checkpoint :=
  {| ck_activation_size := 256; ck_l1_coef := 1 # 1000; ck_dict_size := 1024 |}.

(** The model names [run_real_data_model] recognises. *)
Definition known_model (model_name : string) : bool :=
  existsb (String.eqb model_name)
          ["gpt2"%string; "EleutherAI/pythia-70m-deduped"%string; "nanoGPT"%string].

End Config.

(** ** The generator object ([run.py], lines 187-242) *)

Module Generator.

Import Gen.
Open Scope Q_scope.

(** [RandomDatasetGenerator.__post_init__], independent mode:
    [self.component_probs = self.decay * self.frac_nonzero]. *)
Definition independent_component_probs (feature_prob_decay : Q)
    (feature_num_nonzero n_ground_truth_components : nat) : vec :=
  map (fun d => d * frac_nonzero feature_num_nonzero n_ground_truth_components)
      (decay feature_prob_decay n_ground_truth_components).

(** [RandomDatasetGenerator.send]: the third component of what the
    generation function of the mode returns. *)
Definition send (correlated : bool) (activation_dim : nat)
    (feature_prob_decay : Q) (feature_num_nonzero n_ground_truth_components : nat)
    (feats : mat) (cdf : vec) (d : draws) (random_index : list nat) : mat :=
  if correlated
  then snd (generate_correlated_dataset activation_dim cdf feats
              (frac_nonzero feature_num_nonzero n_ground_truth_components)
              (decay feature_prob_decay n_ground_truth_components)
              d random_index)
  else snd (generate_rand_dataset activation_dim
              (independent_component_probs feature_prob_decay
                 feature_num_nonzero n_ground_truth_components)
              feats d).

(** Draws of two samples over four components. The first sample has its
    only active component at value zero, the second has two active ones. *)
Definition two_samples : draws :=
  {| dataset_thresh := [[1 # 2; 1 # 2; 1 # 2; 1 # 2]; [1 # 2; 1 # 10; 1 # 2; 1 # 2]];
     dataset_values := [[0; 1 # 2; 1 # 2; 1 # 2]; [1 # 3; 1 # 4; 1 # 2; 1 # 2]];
     feature_strengths := [[1 # 2; 1 # 2; 1 # 2; 1 # 2]; [1 # 2; 1 # 2; 1 # 2; 1 # 2]] |}.

End Generator.

(** ** Reading and chunking text ([run.py], lines 39-159) *)

Module Text.

Open Scope nat_scope.

Section Reading.

Variables (line item : Type).

(** [json.loads] *)
Variable loads : line -> item.

(** The loop of [read_from_pile] from line [i] on: lines before
    [start_line] are passed over, the line at [max_lines + start_line] ends
    the loop. *)
Fixpoint read_from (max_lines start_line i : nat) (f : list line) : list item :=
  match f with
  | [] => []
  | l :: f' =>
      if Nat.ltb i start_line then read_from max_lines start_line (S i) f'
      else if Nat.leb (max_lines + start_line) i then []
      else loads l :: read_from max_lines start_line (S i) f'
  end.

(** [read_from_pile], as the list of what the generator yields. *)
Definition read_from_pile (f : list line) (max_lines start_line : nat) : list item :=
  read_from max_lines start_line 0 f.

End Reading.

Section Chunking.

Variable token : Type.

(** [math.ceil(a / b)] for a positive [b]. *)
Definition ceil_div (a b : nat) : nat := (a + b - 1) / b.

(** [l[a:b]] *)
Definition slice (l : list token) (a b : nat) : list token :=
  firstn (b - a) (skipn a l).

(** Line 119: the first chunk the tokenizer returned, then the overflow
    cut into pieces of [chunk_size]. *)
Definition overflow_chunks (chunk_size : nat) (overflow : list token)
    : list (list token) :=
  map (fun i => slice overflow (i * chunk_size) ((i + 1) * chunk_size))
      (seq 0 (ceil_div (length overflow) chunk_size)).

Definition chunks (chunk_size : nat) (input_ids overflow : list token)
    : list (list token) :=
  input_ids :: overflow_chunks chunk_size overflow.

(** [[div] * n] with [rem] added to the last entry. *)
Definition spread (total n : nat) : list nat :=
  let div := total / n in
  let rem := total mod n in
  repeat div (n - 1) ++ [div + rem].

Record tokenized := {
  input_ids_out : list (list token);
  length_out : list nat;
  bytes_out : list nat
}.

(** Lines 122-144 of [_tokenize_fn], from the chunks on. *)
Definition finish (input_ids : list (list token)) (total_bytes : nat)
    (return_final_batch : bool) : result tokenized :=
  let total_tokens := list_sum (map (@length token) input_ids) in
  let input_ids :=
    if return_final_batch then input_ids else removelast input_ids in
  let output_batch_size := length input_ids in
  if Nat.eqb output_batch_size 0
  then Raise (ValueError "Not enough data to create a single batch complete batch. Either allow the final batch to be returned, or supply more data.")
  else Ok {| input_ids_out := input_ids;
             length_out := spread total_tokens output_batch_size;
             bytes_out := spread total_bytes output_batch_size |}.

End Chunking.

End Text.

(** ** Ground-truth features and feature movement
    ([run.py], lines 320-333 and 891-903) *)

Module Features.

Import Tensor.
Open Scope R_scope.

(** [generate_rand_feats], from the rows drawn by
    [np.random.multivariate_normal]: [feats.T / np.linalg.norm(feats, axis=1)],
    transposed back, is every row over its own norm. *)
Definition generate_rand_feats (drawn : mat) : option mat :=
  div_rows drawn (map norm2 drawn).

(** A function that starts with an [assert]. *)
Inductive asserted (A : Type) :=
| Passed (a : A)
| AssertionError.

Arguments Passed {A} a.
Arguments AssertionError {A}.

(** [t.shape] of a two-dimensional tensor. *)
Definition shape (t : mat) : nat * nat := (length t, length (hd [] t)).

Definition shape_eqb (a b : mat) : bool :=
  Nat.eqb (fst (shape a)) (fst (shape b)) && Nat.eqb (snd (shape a)) (snd (shape b)).

(** [check_feature_movement]. The assignment [cos_sims[i] = s] fills the
    whole row [i] of a tensor shaped like [dict] with the scalar [s]; the
    mean is over every entry of that tensor. *)
Definition check_feature_movement (dict old_dict : mat) : asserted (option R) :=
  if shape_eqb dict old_dict then
    let cos_sims :=
      map2 (fun v w => repeat (Compare.cosine_similarity v w) (snd (shape dict)))
           dict old_dict in
    Passed (mean (concat (map (map (fun s => 1 - s)) cos_sims)))
  else AssertionError.

(** One drawn row of norm five. *)
Definition drawn_row : mat := [[3; 4]].

End Features.

(** ** Dead features ([run.py], lines 403-423, 749-768 and 1047) *)

Module Diagnostics.

Import Tensor Run.
Open Scope R_scope.

(** The running metrics of [run_with_real_data]. *)
Record running := {
  running_recon_loss : R;
  running_l1_loss : R;
  feature_activations : vec
}.

(** Lines 755-766, at batch number [n_batches] (counted from one), with
    [mean_levels] the value of [dict_levels.detach().mean(dim=0)]. *)
Definition update_running (n_batches : nat) (st : running)
    (l_reconstruction l_l1 : R) (mean_levels : vec) : running :=
  let time_horizon := 1000 in
  if Nat.eqb n_batches 1
  then {| running_recon_loss := l_reconstruction;
          running_l1_loss := l_l1;
          feature_activations := mean_levels |}
  else {| running_recon_loss :=
            running_recon_loss st * ((time_horizon - 1) / time_horizon)
            + l_reconstruction / time_horizon;
          running_l1_loss :=
            running_l1_loss st * ((time_horizon - 1) / time_horizon)
            + l_l1 / time_horizon;
          feature_activations :=
            map2 (fun a m => a * ((time_horizon - 1) / time_horizon)
                             + m / time_horizon)
                 (feature_activations st) mean_levels |}.

(** The metrics after the batches of one call, each batch given by its
    two losses and its mean activation levels; [n_batches] is the number of
    batches seen before. *)
Fixpoint run_metrics (n_batches : nat) (st : running)
    (batches : list (R * R * vec)) : running :=
  match batches with
  | [] => st
  | (l_reconstruction, l_l1, mean_levels) :: batches' =>
      run_metrics (S n_batches)
        (update_running (S n_batches) st l_reconstruction l_l1 mean_levels)
        batches'
  end.

(** A batch whose mean activation levels cover [n] features and, being
    means of rectified codes, are not negative. *)
Definition batch_ok (n : nat) (b : R * R * vec) : Prop :=
  length (snd b) = n /\ Forall (Rle 0) (snd b).

(** Lines 711-714: the metrics before the first batch. *)
Definition initial_running (n_components_dictionary : nat) : running :=
  {| running_recon_loss := 0; running_l1_loss := 0;
     feature_activations := repeat 0 n_components_dictionary |}.

(** [np.count_nonzero] *)
Definition count_nonzero (v : vec) : nat :=
  length (filter (fun x => if Req_dec_T x 0 then false else true) v).

(** Line 1047: [feature_activations.shape[0] - np.count_nonzero(...)]. *)
Definition dead_features (feature_activations : vec) : nat :=
  length feature_activations - count_nonzero feature_activations.

(** What [batch[0]] is for the batches of a data generator: a sample,
    when the generator yields the sample matrix itself (as
    [RandomDatasetGenerator] does), or the sample matrix, when it yields
    tuples holding it (as a [DataLoader] over a [TensorDataset] does). *)
Inductive first_items :=
| Samples (x : nat -> vec)
| Matrices (x : nat -> mat).

(** The loop of [get_n_dead_features] over the batches numbered
    [from], ..., [from + count - 1]: the codes of each forward pass, and
    the module the passes leave. *)
Fixpoint probe (self : AutoEncoder) (input : nat -> mat) (from count : nat)
    : list mat * AutoEncoder :=
  match count with
  | O => ([], self)
  | S count' =>
      let '(_, c, self') := forward self (input from) in
      let '(outputs, self'') := probe self' input (S from) count' in
      (c :: outputs, self'')
  end.

(** [(mean_activations == 0)] on one entry; [nan] is not zero. *)
Definition is_zero (x : option R) : bool :=
  match x with
  | Some x => if Req_dec_T x 0 then true else false
  | None => false
  end.

(** [get_n_dead_features] on an unending generator: the loop breaks
    after the batch numbered [n_batches], the codes are concatenated along
    their first axis and averaged along it. *)
Definition get_n_dead_features (auto_encoder : AutoEncoder)
    (data_generator : first_items) (n_batches : nat) : nat * AutoEncoder :=
  match data_generator with
  | Samples x =>
      let '(outputs, auto_encoder') :=
        probe auto_encoder (fun k => [x k]) 0 (S n_batches) in
      let outputs := concat (map (hd []) outputs) in
      let mean_activations := mean outputs in
      ((if is_zero mean_activations then 1 else 0)%nat, auto_encoder')
  | Matrices x =>
      let '(outputs, auto_encoder') :=
        probe auto_encoder x 0 (S n_batches) in
      let outputs := concat outputs in
      let mean_activations :=
        map (fun j => mean (column j outputs))
            (seq 0 (n_dict_components auto_encoder)) in
      (length (filter is_zero mean_activations), auto_encoder')
  end.

(** The codes of the batches numbered [0] to [n_batches], stacked. *)
Definition probed_codes (auto_encoder : AutoEncoder) (input : nat -> mat)
    (n_batches : nat) : mat :=
  concat (map (fun k => LearnedDict.affine_relu (encoder_weight auto_encoder)
                          (encoder_bias auto_encoder) (input k))
              (seq 0 (S n_batches))).

Definition zerob (x : R) : bool := if Req_dec_T x 0 then true else false.

(** Feature [j] is at zero in every row of [codes]. *)
Definition silent (codes : mat) (j : nat) : bool :=
  forallb (fun row => zerob (nth j row 0)) codes.

(** Mean activation levels of three batches over two features, the second
    of which never fires. *)
Definition three_batches : list (R * R * vec) :=
  [(1, 1, [0; 0]); (1, 1, [1 / 2; 0]); (1, 1, [0; 0])].

End Diagnostics.

(** ** Grids indexed by L1 coefficient and dictionary size

    The sweeps of [run.py] keep their autoencoders and metrics in arrays
    with one row per L1 coefficient and one column per dictionary size. *)

Module Grid.

Definition grid_shape {A} (rows cols : nat) (grid : list (list A)) : Prop :=
  length grid = rows /\ Forall (fun row => length row = cols) grid.

End Grid.

(** ** The sweep of [run_toy_model] ([run.py], lines 643-667) *)

Module ToyModel.

Import Config.

Section Sweep.

(** The L1 coefficients and the dictionary ratios of the sweep, compared
    with [==] as [list.index] does. *)
Variable L1 Ratio : Type.
Variable l1_eqb : L1 -> L1 -> bool.
Variable ratio_eqb : Ratio -> Ratio -> bool.

(** The data generator, shared by all runs, and what one run returns. *)
Variable generator : Type.
Variable AE num : Type.
Variable zero : num.

Record outcome := {
  mmcs : num;
  auto_encoder : AE;
  n_dead_features : num;
  reconstruction_loss : num
}.

(** [run_single_go(cfg, data_generator)] with [cfg.l1_alpha] and
    [cfg.learned_dict_ratio] set; it draws from the generator. *)
Variable run_single_go : generator -> L1 -> Ratio -> outcome * generator.

Record matrices := {
  mmcs_matrix : list (list num);
  dead_features_matrix : list (list num);
  recon_loss_matrix : list (list num);
  auto_encoders : list (list (option AE))
}.

(** Lines 648-653: [np.zeros] and the grid of [None]. *)
Definition empty_matrices (l1_range : list L1) (learned_dict_ratios : list Ratio)
    : matrices :=
  let rows := length l1_range in
  let cols := length learned_dict_ratios in
  {| mmcs_matrix := repeat (repeat zero cols) rows;
     dead_features_matrix := repeat (repeat zero cols) rows;
     recon_loss_matrix := repeat (repeat zero cols) rows;
     auto_encoders := repeat (repeat None cols) rows |}.

(** The line printed after each run. *)
Record line := {
  line_l1_alpha : L1;
  line_learned_dict_ratio : Ratio;
  line_outcome : outcome
}.

Record state := {
  results : matrices;
  data_generator : generator;
  printed : list line
}.

(** Lines 658-667: one run, written at the positions [list.index] finds. *)
Definition sweep_step (l1_range : list L1) (learned_dict_ratios : list Ratio)
    (st : state) (p : L1 * Ratio) : state :=
  let '(l1_alpha, learned_dict_ratio) := p in
  let '(out, g) := run_single_go (data_generator st) l1_alpha learned_dict_ratio in
  let r := index l1_eqb l1_alpha l1_range in
  let j := index ratio_eqb learned_dict_ratio learned_dict_ratios in
  let m := results st in
  {| results :=
       {| mmcs_matrix := set_entry (mmcs_matrix m) r j (mmcs out);
          dead_features_matrix :=
            set_entry (dead_features_matrix m) r j (n_dead_features out);
          recon_loss_matrix :=
            set_entry (recon_loss_matrix m) r j (reconstruction_loss out);
          auto_encoders :=
            set_entry (auto_encoders m) r j (Some (auto_encoder out)) |};
     data_generator := g;
     printed := printed st
                ++ [{| line_l1_alpha := l1_alpha;
                       line_learned_dict_ratio := learned_dict_ratio;
                       line_outcome := out |}] |}.

(** Line 657: the loop over [itertools.product(l1_range, learned_dict_ratios)]. *)
Definition sweep (l1_range : list L1) (learned_dict_ratios : list Ratio)
    (g : generator) : state :=
  fold_left (sweep_step l1_range learned_dict_ratios)
            (list_prod l1_range learned_dict_ratios)
            {| results := empty_matrices l1_range learned_dict_ratios;
               data_generator := g;
               printed := [] |}.

(** What a cell of the four arrays holds after a run with these settings. *)
Definition holds (m : matrices) (r j : nat) (out : outcome) : Prop :=
  lookup2 (mmcs_matrix m) r j = Some (mmcs out)
  /\ lookup2 (dead_features_matrix m) r j = Some (n_dead_features out)
  /\ lookup2 (recon_loss_matrix m) r j = Some (reconstruction_loss out)
  /\ lookup2 (auto_encoders m) r j = Some (Some (auto_encoder out)).

(** A cell no run has written. *)
Definition blank (m : matrices) (r j : nat) : Prop :=
  lookup2 (mmcs_matrix m) r j = Some zero
  /\ lookup2 (dead_features_matrix m) r j = Some zero
  /\ lookup2 (recon_loss_matrix m) r j = Some zero
  /\ lookup2 (auto_encoders m) r j = Some None.

(** A cell inside the four arrays. *)
Definition inside (m : matrices) (r j : nat) : Prop :=
  (exists x, lookup2 (mmcs_matrix m) r j = Some x)
  /\ (exists x, lookup2 (dead_features_matrix m) r j = Some x)
  /\ (exists x, lookup2 (recon_loss_matrix m) r j = Some x)
  /\ (exists x, lookup2 (auto_encoders m) r j = Some x).

(** A cell that holds the results of a run with the coefficient of its
    row and the ratio of its column. *)
Definition filled (l1_range : list L1) (learned_dict_ratios : list Ratio)
    (m : matrices) (r j : nat) : Prop :=
  exists g l1_alpha learned_dict_ratio,
    nth_error l1_range r = Some l1_alpha
    /\ nth_error learned_dict_ratios j = Some learned_dict_ratio
    /\ holds m r j (fst (run_single_go g l1_alpha learned_dict_ratio)).

End Sweep.

Arguments mmcs {AE num} o.
Arguments auto_encoder {AE num} o.
Arguments n_dead_features {AE num} o.
Arguments reconstruction_loss {AE num} o.
Arguments mmcs_matrix {AE num} m.
Arguments dead_features_matrix {AE num} m.
Arguments recon_loss_matrix {AE num} m.
Arguments auto_encoders {AE num} m.
Arguments results {L1 Ratio generator AE num} s.
Arguments data_generator {L1 Ratio generator AE num} s.
Arguments printed {L1 Ratio generator AE num} s.
Arguments line_l1_alpha {L1 Ratio AE num} l.
Arguments line_learned_dict_ratio {L1 Ratio AE num} l.
Arguments line_outcome {L1 Ratio AE num} l.
Arguments sweep_step {L1 Ratio} l1_eqb ratio_eqb {generator AE num} run_single_go
  l1_range learned_dict_ratios st p.
Arguments sweep {L1 Ratio} l1_eqb ratio_eqb {generator AE num} zero run_single_go
  l1_range learned_dict_ratios g.
Arguments holds {AE num} m r j out.
Arguments blank {AE num} zero m r j.
Arguments inside {AE num} m r j.
Arguments filled {L1 Ratio generator AE num} run_single_go
  l1_range learned_dict_ratios m r j.

(** A run that returns its settings: the coefficient as score, the ratio
    as autoencoder, and counts the draws from the generator. *)
Definition echo (g : nat) (l1_alpha ratio : nat) : outcome nat nat * nat :=
  ({| mmcs := l1_alpha; auto_encoder := ratio;
      n_dead_features := g; reconstruction_loss := 0%nat |}, S g).

End ToyModel.

(** ** The reconstruction of a dictionary model
    ([autoencoders/learned_dict.py], lines 7-24) *)

Module Forward.

Import Tensor LearnedDict.
Open Scope R_scope.

(** [torch.einsum("nd,bn->bd", learned_dict, c)] for a dictionary whose
    rows have [d] entries: [c @ learned_dict]. *)
Definition einsum_nd_bn_bd (d : nat) (learned_dict c : mat) : mat :=
  matmul_T c (transpose d learned_dict).

(** The abstract class [LearnedDict]: its two abstract methods. *)
Class LearnedDictT (T : Type) := {
  get_learned_dict : T -> option mat * T;
  encode : T -> mat -> option mat * T
}.

#[export] Instance UntiedSAE_LearnedDict : LearnedDictT UntiedSAE.t := {
  get_learned_dict := UntiedSAE.get_learned_dict;
  encode self batch :=
    let '(c, self') := UntiedSAE.encode self batch in (Some c, self')
}.

#[export] Instance TiedSAE_LearnedDict : LearnedDictT TiedSAE.t := {
  get_learned_dict := TiedSAE.get_learned_dict;
  encode := TiedSAE.encode
}.

(** [LearnedDict.forward], inherited by both models. *)
Definition forward {T} `{LearnedDictT T} (d : nat) (self : T) (batch : mat)
    : option mat * T :=
  let '(c, self) := encode self batch in
  let '(learned_dict, self) := get_learned_dict self in
  (match c, learned_dict with
   | Some c, Some learned_dict => Some (einsum_nd_bn_bd d learned_dict c)
   | _, _ => None
   end, self).

End Forward.

(** ** Saving activations in chunks
    ([run.py], [make_activation_dataset], lines 815-843, and
    [save_activation_chunk], lines 845-850) *)

Module Activations.

Open Scope nat_scope.

Section Chunks.

(** A batch of token ids, a row of activations, and the activations the
    model gives for a batch, flattened to rows (by either tracing method). *)
Variable batch row : Type.
Variable mlp_activation_data : batch -> list row.

Inductive message :=
| SavedChunk (n_saved_chunks total_size : nat)
| SavedUndersized (n_saved_chunks total_size : nat).

(** The local variables of the loop, the files written so far, as pairs
    of the number in the file name and the rows pickled, and the lines
    printed. *)
Record state := {
  dataset : list (list row);
  n_saved_chunks : nat;
  batch_idx : nat;
  files : list (nat * list row);
  printed : list message
}.

Inductive outcome :=
| Return (st : state)
| RuntimeError (st : state).

(** [save_activation_chunk]: [torch.cat] raises on an empty list of
    tensors. *)
Definition save_activation_chunk (dataset : list (list row)) (n_saved_chunks : nat)
    (files : list (nat * list row)) : option (list (nat * list row)) :=
  match dataset with
  | [] => None
  | _ => Some (files ++ [(n_saved_chunks, concat dataset)])
  end.

(** Lines 817-839: the loop over the enumerated batches; returning early
    is the [break]. *)
Fixpoint loop (max_chunks : nat) (n_chunks : Z) (activation_size : nat)
    (idx : nat) (sentence_dataset : list batch) (st : state) : outcome :=
  match sentence_dataset with
  | [] => Return st
  | b :: rest =>
      let dataset' := dataset st ++ [mlp_activation_data b] in
      if max_chunks <=? length dataset' then
        match save_activation_chunk dataset' (n_saved_chunks st) (files st) with
        | None =>
            RuntimeError {| dataset := dataset';
                            n_saved_chunks := n_saved_chunks st;
                            batch_idx := idx;
                            files := files st;
                            printed := printed st |}
        | Some files' =>
            let n := S (n_saved_chunks st) in
            let st' := {| dataset := [];
                          n_saved_chunks := n;
                          batch_idx := idx;
                          files := files';
                          printed := printed st
                                     ++ [SavedChunk n (idx * activation_size)] |} in
            if (Z.of_nat n =? n_chunks)%Z then Return st'
            else loop max_chunks n_chunks activation_size (S idx) rest st'
        end
      else
        loop max_chunks n_chunks activation_size (S idx) rest
             {| dataset := dataset';
                n_saved_chunks := n_saved_chunks st;
                batch_idx := idx;
                files := files st;
                printed := printed st |}
  end.

(** Lines 815-843, for [max_chunks = chunk_size // activation_size]. *)
Definition make_activation_dataset (max_chunks : nat) (n_chunks : Z)
    (activation_size : nat) (sentence_dataset : list batch) : outcome :=
  match loop max_chunks n_chunks activation_size 0 sentence_dataset
             {| dataset := []; n_saved_chunks := 0; batch_idx := 0;
                files := []; printed := [] |} with
  | RuntimeError st => RuntimeError st
  | Return st =>
      if (Z.of_nat (n_saved_chunks st) <? n_chunks)%Z then
        match save_activation_chunk (dataset st) (n_saved_chunks st) (files st) with
        | None => RuntimeError st
        | Some files' =>
            Return {| dataset := dataset st;
                      n_saved_chunks := n_saved_chunks st;
                      batch_idx := batch_idx st;
                      files := files';
                      printed := printed st
                                 ++ [SavedUndersized (n_saved_chunks st)
                                       (batch_idx st * activation_size)] |}
        end
      else Return st
  end.

Definition final_state (o : outcome) : state :=
  match o with
  | Return st => st
  | RuntimeError st => st
  end.

Definition raised (o : outcome) : bool :=
  match o with
  | Return _ => false
  | RuntimeError _ => true
  end.

End Chunks.

Arguments dataset {row} s.
Arguments n_saved_chunks {row} s.
Arguments batch_idx {row} s.
Arguments files {row} s.
Arguments printed {row} s.
Arguments Return {row} st.
Arguments RuntimeError {row} st.
Arguments loop {batch row} mlp_activation_data max_chunks n_chunks activation_size
  idx sentence_dataset st.
Arguments make_activation_dataset {batch row} mlp_activation_data max_chunks
  n_chunks activation_size sentence_dataset.
Arguments final_state {row} o.
Arguments raised {row} o.

End Activations.

(** * Properties *)

(** ** Indexed reads and writes *)

Module ListFacts.

Open Scope nat_scope.

Lemma length_set_nth {A} (l : list A) (i : nat) (x : A) :
  length (set_nth l i x) = length l.
Proof.
  revert i. induction l as [|y l IH]; intros [|i]; simpl; try reflexivity.
  f_equal. apply IH.
Qed.

Lemma nth_error_set_nth_eq {A} (l : list A) (i : nat) (x : A) :
  i < length l -> nth_error (set_nth l i x) i = Some x.
Proof.
  revert i. induction l as [|y l IH]; intros [|i]; simpl; try lia.
  - reflexivity.
  - intros H. apply IH. lia.
Qed.

Lemma nth_error_set_nth_ne {A} (l : list A) (i j : nat) (x : A) :
  i <> j -> nth_error (set_nth l i x) j = nth_error l j.
Proof.
  revert i j. induction l as [|y l IH]; intros [|i] [|j] H; simpl;
    try reflexivity; try contradiction.
  apply IH. congruence.
Qed.

Lemma nth_set_nth_ne {A} (l : list A) (i j : nat) (x d : A) :
  i <> j -> nth j (set_nth l i x) d = nth j l d.
Proof.
  revert i j. induction l as [|y l IH]; intros [|i] [|j] H; simpl;
    try reflexivity; try contradiction.
  apply IH. congruence.
Qed.

Lemma set_nth_beyond {A} (l : list A) (i : nat) (x : A) :
  length l <= i -> set_nth l i x = l.
Proof.
  revert i. induction l as [|y l IH]; intros [|i]; simpl; try reflexivity; try lia.
  intros H. f_equal. apply IH. lia.
Qed.

Lemma nth_error_lt {A} (l : list A) (i : nat) (x : A) :
  nth_error l i = Some x -> i < length l.
Proof. intros H. apply nth_error_Some. rewrite H. discriminate. Qed.

Lemma nth_error_nth_default {A} (l : list A) (i : nat) (d x : A) :
  nth_error l i = Some x -> nth i l d = x.
Proof. intros H. apply nth_error_nth. exact H. Qed.

(** A write is read back at its own place. *)
Lemma lookup2_set_entry_eq {A} (m : list (list A)) (r j : nat) (x y : A) :
  lookup2 m r j = Some y -> lookup2 (set_entry m r j x) r j = Some x.
Proof.
  unfold lookup2, set_entry. intros H.
  destruct (nth_error m r) as [row|] eqn:Er; [|discriminate].
  assert (Hr : r < length m) by (apply nth_error_Some; congruence).
  rewrite nth_error_set_nth_eq by exact Hr.
  rewrite (nth_error_nth_default m r [] row Er).
  apply nth_error_set_nth_eq. apply nth_error_Some. congruence.
Qed.

(** A write leaves every other place as it was. *)
Lemma lookup2_set_entry_ne {A} (m : list (list A)) (r j r' j' : nat) (x : A) :
  (r, j) <> (r', j') ->
  lookup2 (set_entry m r j x) r' j' = lookup2 m r' j'.
Proof.
  unfold lookup2, set_entry. intros H.
  destruct (Nat.eq_dec r r') as [<-|Hr].
  - destruct (Nat.lt_ge_cases r (length m)) as [Hlt|Hge].
    + rewrite nth_error_set_nth_eq by exact Hlt.
      destruct (nth_error m r) as [row|] eqn:Er.
      * rewrite (nth_error_nth_default m r [] row Er).
        apply nth_error_set_nth_ne. congruence.
      * apply nth_error_None in Er. lia.
    + rewrite set_nth_beyond by exact Hge. reflexivity.
  - rewrite nth_error_set_nth_ne by exact Hr. reflexivity.
Qed.

Lemma nth_error_repeat_lt {A} (x : A) (n i : nat) :
  i < n -> nth_error (repeat x n) i = Some x.
Proof.
  revert i. induction n as [|n IH]; intros [|i] H; simpl; try lia.
  - reflexivity.
  - apply IH. lia.
Qed.

Lemma nth_error_repeat_ge {A} (x : A) (n i : nat) :
  n <= i -> nth_error (repeat x n) i = None.
Proof. intros H. apply nth_error_None. rewrite repeat_length. exact H. Qed.

(** A loop keeps what every pass of its body keeps. *)
Lemma for_each_invariant {S I} (body : S -> I -> result S)
    (P : list I -> S -> Prop) (items : list I) :
  forall done st,
    P done st ->
    (forall done' i st', P done' st' -> In i items ->
       exists st'', body st' i = Ok st'' /\ P (done' ++ [i]) st'') ->
    exists st', for_each body items st = Ok st' /\ P (done ++ items) st'.
Proof.
  induction items as [|i items IH]; intros done st HP Hstep; simpl.
  - exists st. rewrite app_nil_r. split; [reflexivity | exact HP].
  - destruct (Hstep done i st HP (or_introl eq_refl)) as (st1 & E & HP1).
    rewrite E. simpl.
    destruct (IH (done ++ [i]) st1 HP1) as (st' & E' & HP').
    + intros done' i' st'' H Hin. apply Hstep; [exact H | right; exact Hin].
    + exists st'. rewrite <- app_assoc in HP'. split; [exact E' | exact HP'].
Qed.

End ListFacts.

(** ** The repair of rows without a nonzero entry *)

Module GenRepair.

Import Gen ListFacts.
Open Scope nat_scope.

Lemma zero_rows_from_spec (codes : mat) (i r : nat) :
  In r (zero_rows_from i codes)
  <-> exists k, r = i + k /\ k < length codes
                /\ count_nonzero (nth k codes []) = 0.
Proof.
  revert i. induction codes as [|row codes IH]; intros i; simpl.
  - split; [intros [] | intros (k & _ & H & _); lia].
  - destruct (Nat.eqb_spec (count_nonzero row) 0) as [E|E]; simpl; rewrite IH.
    + split.
      * intros [<- | (k & -> & Hk & Hz)].
        -- exists 0. repeat split; [lia | lia | exact E].
        -- exists (S k). repeat split; [lia | lia | exact Hz].
      * intros ([|k] & -> & Hk & Hz).
        -- left. lia.
        -- right. exists k. repeat split; [lia | lia | exact Hz].
    + split.
      * intros (k & -> & Hk & Hz). exists (S k). repeat split; [lia | lia | exact Hz].
      * intros ([|k] & -> & Hk & Hz); [contradiction|].
        exists k. repeat split; [lia | lia | exact Hz].
Qed.

Lemma zero_rows_from_NoDup (codes : mat) (i : nat) : NoDup (zero_rows_from i codes).
Proof.
  revert i. induction codes as [|row codes IH]; intros i; simpl.
  - constructor.
  - destruct (Nat.eqb (count_nonzero row) 0); [|apply IH].
    constructor; [|apply IH].
    intros H. apply zero_rows_from_spec in H. destruct H as (k & H & _). lia.
Qed.

Lemma length_force_one (rows cols : list nat) (codes : mat) :
  length (force_one codes rows cols) = length codes.
Proof.
  unfold force_one. revert cols codes.
  induction rows as [|r rows IH]; intros [|j cols] codes; simpl; try reflexivity.
  rewrite IH. unfold set_entry. apply length_set_nth.
Qed.

(** A row outside the index tensor is left as it was. *)
Lemma force_one_other (rows cols : list nat) (codes : mat) (r : nat) :
  ~ In r rows ->
  nth_error (force_one codes rows cols) r = nth_error codes r.
Proof.
  unfold force_one. revert cols codes.
  induction rows as [|r0 rows IH]; intros [|j cols] codes Hr; simpl;
    try reflexivity.
  rewrite IH by (intros H; apply Hr; right; exact H).
  unfold set_entry. apply nth_error_set_nth_ne.
  intros ->. apply Hr. left. reflexivity.
Qed.

(** A row of the index tensor gets a one at its paired column. *)
Lemma force_one_at (rows cols : list nat) (codes : mat) (k r j : nat) :
  NoDup rows -> nth_error rows k = Some r -> nth_error cols k = Some j ->
  r < length codes ->
  nth_error (force_one codes rows cols) r = Some (set_nth (nth r codes []) j 1%Q).
Proof.
  revert cols codes k.
  induction rows as [|r0 rows IH]; intros cols codes k Hnd Hr Hj Hlt.
  - destruct k; discriminate.
  - destruct cols as [|j0 cols]; [destruct k; discriminate|].
    inversion Hnd as [|? ? Hnotin Hnd']; subst.
    destruct k as [|k]; simpl in Hr, Hj.
    + injection Hr as ->. injection Hj as ->.
      change (force_one codes (r :: rows) (j :: cols))
        with (force_one (set_entry codes r j 1%Q) rows cols).
      rewrite force_one_other by exact Hnotin.
      unfold set_entry. apply nth_error_set_nth_eq. exact Hlt.
    + change (force_one codes (r0 :: rows) (j0 :: cols))
        with (force_one (set_entry codes r0 j0 1%Q) rows cols).
      assert (Hne : r0 <> r).
      { intros ->. apply Hnotin. eapply nth_error_In. exact Hr. }
      rewrite (IH cols (set_entry codes r0 j0 1%Q) k Hnd' Hr Hj)
        by (unfold set_entry; rewrite length_set_nth; exact Hlt).
      do 2 f_equal. unfold set_entry. apply nth_set_nth_ne. exact Hne.
Qed.

Lemma count_nonzero_set_one (row : vec) (j : nat) :
  j < length row -> count_nonzero (set_nth row j 1%Q) <> 0.
Proof.
  unfold count_nonzero. revert j.
  induction row as [|x row IH]; intros [|j] Hj; simpl in *; try lia.
  destruct (nonzero x); simpl; [discriminate|]. apply IH. lia.
Qed.

(** The repair of the correlated mode: with one index in range drawn for
    every row without a nonzero entry, no such row is left. *)
Lemma force_one_repairs (codes : mat) (cols : list nat) (n : nat) :
  Forall (fun row => length row = n) codes ->
  Forall (fun j => j < n) cols ->
  length cols = length (zero_sample_index codes) ->
  Forall (fun row => count_nonzero row <> 0)
         (force_one codes (zero_sample_index codes) cols).
Proof.
  intros Hshape Hcols Hlen. apply Forall_forall. intros row' Hin.
  apply In_nth_error in Hin. destruct Hin as [r Hr].
  assert (Hlt : r < length codes).
  { pose proof (nth_error_lt _ _ _ Hr) as H.
    rewrite length_force_one in H. exact H. }
  assert (Hrow : length (nth r codes []) = n).
  { rewrite Forall_forall in Hshape. apply Hshape, nth_In, Hlt. }
  destruct (Nat.eq_dec (count_nonzero (nth r codes [])) 0) as [Hz|Hnz].
  - assert (Hin : In r (zero_sample_index codes)).
    { apply zero_rows_from_spec. exists r. repeat split; [exact Hlt | exact Hz]. }
    apply In_nth_error in Hin. destruct Hin as [k Hk].
    destruct (nth_error cols k) as [j|] eqn:Ej.
    2: { apply nth_error_None in Ej.
         pose proof (nth_error_lt _ _ _ Hk). lia. }
    pose proof (force_one_at _ _ _ k r j (zero_rows_from_NoDup codes 0) Hk Ej Hlt)
      as Hat.
    pose proof (eq_trans (eq_sym Hr) Hat) as E. injection E as ->.
    apply count_nonzero_set_one.
    rewrite Forall_forall in Hcols. rewrite Hrow. apply Hcols.
    eapply nth_error_In. exact Ej.
  - assert (Hnotin : ~ In r (zero_sample_index codes)).
    { intros Hin. apply zero_rows_from_spec in Hin.
      destruct Hin as (k & -> & _ & Hz). simpl in Hnz. contradiction. }
    pose proof (force_one_other (zero_sample_index codes) cols codes r Hnotin)
      as Hother.
    pose proof (eq_trans (eq_sym Hr)
                  (eq_trans Hother (nth_error_nth' codes [] Hlt))) as E.
    injection E as ->. exact Hnz.
Qed.

(** The codes of the correlated mode, for draws of [n] columns. *)
Lemma correlated_codes_nonzero (activation_dim n : nat) (cdf decay : vec)
    (feats : mat) (frac : Q) (d : draws) (random_index : list nat) :
  Forall (fun row => length row = n)
         (thresholded (component_probs cdf decay frac) d) ->
  Forall (fun j => j < n) random_index ->
  length random_index
  = length (zero_sample_index (thresholded (component_probs cdf decay frac) d)) ->
  Forall (fun row => count_nonzero row <> 0)
         (codes_of (generate_correlated_dataset activation_dim cdf feats frac
                      decay d random_index)).
Proof. apply force_one_repairs. Qed.

End GenRepair.

(** ** The synthetic generators *)

Module GenFacts.

Import Gen.
Open Scope Q_scope.


Lemma vsum_vscale (s : Q) (v : vec) : vsum (vscale s v) == s * vsum v.
Proof.
  induction v as [|x v IH]; simpl.
  - ring.
  - rewrite IH. ring.
Qed.

Lemma length_vscale (s : Q) (v : vec) : length (vscale s v) = length v.
Proof. apply length_map. Qed.

Lemma mean_vscale (s : Q) (v : vec) : mean (vscale s v) == s * mean v.
Proof.
  unfold mean. rewrite vsum_vscale, length_vscale.
  unfold Qdiv. ring.
Qed.

Lemma vmul_nonneg (a b : vec) :
  Forall (Qle 0) a -> Forall (Qle 0) b -> Forall (Qle 0) (vmul a b).
Proof.
  intros Ha. revert b.
  induction Ha as [|x a Hx Ha IH]; intros b Hb; simpl.
  - constructor.
  - destruct Hb as [|y b Hy Hb]; constructor.
    + apply Qmult_le_0_compat; assumption.
    + apply IH; assumption.
Qed.

Lemma vscale_nonneg (s : Q) (v : vec) :
  0 <= s -> Forall (Qle 0) v -> Forall (Qle 0) (vscale s v).
Proof.
  intros Hs Hv. induction Hv as [|x v Hx Hv IH]; simpl; constructor.
  - apply Qmult_le_0_compat; assumption.
  - exact IH.
Qed.

(** Against a draw below one, a threshold above one decides as the
    threshold one does. *)
Lemma threshold_above_one (t p : Q) :
  t < 1 -> Qle_bool t p = Qle_bool t (Qmin p 1).
Proof.
  intros Ht.
  destruct (Qle_bool t p) eqn:Hp; symmetry.
  - apply Qle_bool_iff. apply Qle_bool_iff in Hp.
    apply Q.min_glb; [exact Hp | apply Qlt_le_weak; exact Ht].
  - destruct (Qle_bool t (Qmin p 1)) eqn:Hm; [|reflexivity].
    apply Qle_bool_iff in Hm.
    assert (Hle : t <= p) by (eapply Qle_trans; [exact Hm | apply Q.le_min_l]).
    apply Qle_bool_iff in Hle. congruence.
Qed.

(** C2, the independent mode at [high_draws]: the only row of the returned
    code matrix has no nonzero entry, and nothing repairs it. *)
Theorem generate_rand_dataset_zero_row :
  codes_of (generate_rand_dataset 2 sparse_probs unit_feats high_draws) = [[0; 0]]
  /\ count_nonzero [0; 0] = 0%nat.
Proof. split; vm_compute; reflexivity. Qed.

(** C3 as stated fails: at the steep decay the first rescaled probability
    is [9/5], and no clipping stands between it and the comparison. *)
Lemma component_probs_above_one :
  ~ Forall (fun p => 0 <= p /\ p <= 1)
           (component_probs half_cdf steep_decay half_frac).
Proof.
  intros H. inversion H as [|p l [_ Hp] _]; subst.
  vm_compute in Hp. apply Hp. reflexivity.
Qed.

(** C3, amended: the thresholds of the correlated mode are non-negative
    and average to [frac_nonzero]; they are not clipped, and against a draw
    of [[0,1)] a threshold above one decides as one would. *)
Theorem component_probs_scaled (cdf decay : vec) (frac : Q) :
  Forall (Qle 0) cdf -> Forall (Qle 0) decay -> 0 <= frac ->
  0 < mean (vmul cdf decay) ->
  Forall (Qle 0) (component_probs cdf decay frac)
  /\ mean (component_probs cdf decay frac) == frac
  /\ forall p t, In p (component_probs cdf decay frac) -> 0 <= t -> t < 1 ->
       Qle_bool t p = Qle_bool t (Qmin p 1).
Proof.
  intros Hcdf Hdecay Hfrac Hmean. unfold component_probs.
  split; [|split].
  - apply vscale_nonneg.
    + apply Qle_shift_div_l; [exact Hmean|]. rewrite Qmult_0_l. exact Hfrac.
    + apply vmul_nonneg; assumption.
  - rewrite mean_vscale. field. intros H0. rewrite H0 in Hmean.
    exact (Qlt_irrefl 0 Hmean).
  - intros p t _ _ Ht. apply threshold_above_one. exact Ht.
Qed.

Lemma component_probs_scaled_witness :
  Forall (Qle 0) (component_probs half_cdf steep_decay half_frac)
  /\ mean (component_probs half_cdf steep_decay half_frac) == half_frac
  /\ forall p t, In p (component_probs half_cdf steep_decay half_frac) ->
       0 <= t -> t < 1 -> Qle_bool t p = Qle_bool t (Qmin p 1).
Proof.
  apply (component_probs_scaled half_cdf steep_decay half_frac).
  - repeat constructor; discriminate.
  - repeat constructor; discriminate.
  - discriminate.
  - reflexivity.
Defined.

End GenFacts.

(** ** Norms and row normalisation *)

Module TensorFacts.

Import Tensor.
Open Scope R_scope.

Lemma dot_self_nonneg (v : vec) : 0 <= dot v v.
Proof.
  induction v as [|x v IH]; simpl.
  - lra.
  - pose proof (Rle_0_sqr x) as Hx. unfold Rsqr in Hx. lra.
Qed.

Lemma norm2_nonneg (v : vec) : 0 <= norm2 v.
Proof. apply sqrt_pos. Qed.

Lemma norm2_sqr (v : vec) : norm2 v * norm2 v = dot v v.
Proof. apply sqrt_sqrt, dot_self_nonneg. Qed.

Lemma dot_scaled (a b : vec) (d : R) :
  d <> 0 ->
  dot (map (fun x => x / d) a) (map (fun x => x / d) b) = dot a b / (d * d).
Proof.
  intros Hd. revert b.
  induction a as [|x a IH]; intros [|y b]; simpl; try (field; exact Hd).
  rewrite IH. field. exact Hd.
Qed.

Lemma norm2_scaled (v : vec) (d : R) :
  0 < d -> norm2 (map (fun x => x / d) v) = norm2 v / d.
Proof.
  intros Hd. unfold norm2.
  rewrite dot_scaled by lra.
  rewrite sqrt_div_alt by nra.
  rewrite sqrt_square by lra. reflexivity.
Qed.

(** A row over its own norm has norm one. *)
Lemma norm2_unit (v : vec) (lo : R) :
  0 < lo -> lo <= norm2 v ->
  norm2 (map (fun x => x / Rmax (norm2 v) lo) v) = 1.
Proof.
  intros Hlo Hv. rewrite Rmax_left by exact Hv.
  rewrite norm2_scaled by lra. field. lra.
Qed.

Lemma zero_row_scaled (v : vec) (d : R) :
  Forall (eq 0) v -> map (fun x => x / d) v = v.
Proof.
  intros Hv. induction Hv as [|x v Hx Hv IH]; simpl.
  - reflexivity.
  - rewrite IH. subst x. f_equal. unfold Rdiv. ring.
Qed.

Lemma vdiv_some (v : vec) (d : R) :
  d <> 0 -> vdiv v d = Some (map (fun x => x / d) v).
Proof.
  intros Hd. unfold vdiv.
  induction v as [|x v IH]; simpl.
  - reflexivity.
  - unfold fdiv at 1. destruct (Req_dec_T d 0) as [E|_]; [contradiction|].
    rewrite IH. reflexivity.
Qed.

Lemma vdiv_zero (x : R) (v : vec) : vdiv (x :: v) 0 = None.
Proof.
  unfold vdiv. simpl. unfold fdiv.
  destruct (Req_dec_T 0 0) as [_|N]; [reflexivity | contradiction].
Qed.

(** Rows divided by positive scalars: the division is total. *)
Lemma div_rows_some (w : mat) (f : vec -> R) :
  (forall row, 0 < f row) ->
  div_rows w (map f w) = Some (map (fun row => map (fun x => x / f row) row) w).
Proof.
  intros Hf. unfold div_rows.
  induction w as [|row w IH]; simpl.
  - reflexivity.
  - rewrite vdiv_some by (specialize (Hf row); lra).
    rewrite IH. reflexivity.
Qed.

Lemma sequence_length {A} (l : list (option A)) (xs : list A) :
  sequence l = Some xs -> length xs = length l.
Proof.
  revert xs. induction l as [|[x|] l IH]; simpl; intros xs H.
  - inversion H. reflexivity.
  - destruct (sequence l) as [ys|]; [|discriminate].
    inversion H; subst. simpl. f_equal. apply IH. reflexivity.
  - discriminate.
Qed.

(** Cauchy-Schwarz on the common prefix of two vectors. *)
Lemma cauchy_schwarz (a b : vec) :
  dot a b * dot a b <= dot a a * dot b b.
Proof.
  revert b. induction a as [|x a IH]; intros [|y b]; simpl; try lra.
  specialize (IH b).
  pose proof (dot_self_nonneg a) as Ha.
  pose proof (dot_self_nonneg b) as Hb.
  set (d := dot a b) in *. set (p := dot a a) in *. set (q := dot b b) in *.
  assert (Hc : 2 * (x * y) * d <= x * x * q + y * y * p).
  { destruct (Rle_dec (2 * (x * y) * d) 0) as [Hn|Hp].
    - pose proof (Rle_0_sqr x). pose proof (Rle_0_sqr y). unfold Rsqr in *. nra.
    - apply Rnot_le_lt in Hp.
      assert (Hsq : (2 * (x * y) * d) * (2 * (x * y) * d)
                    <= (x * x * q + y * y * p) * (x * x * q + y * y * p)).
      { assert (H1 : (2 * (x * y) * d) * (2 * (x * y) * d)
                     <= 4 * (x * x) * (y * y) * (p * q)).
        { pose proof (Rle_0_sqr (x * y)) as Hxy. unfold Rsqr in Hxy. nra. }
        assert (H2 : 4 * (x * x) * (y * y) * (p * q)
                     <= (x * x * q + y * y * p) * (x * x * q + y * y * p)).
        { pose proof (Rle_0_sqr (x * x * q - y * y * p)) as H. unfold Rsqr in H.
          nra. }
        lra. }
      assert (Hr : 0 <= x * x * q + y * y * p).
      { pose proof (Rle_0_sqr x). pose proof (Rle_0_sqr y). unfold Rsqr in *. nra. }
      nra. }
  nra.
Qed.

(** The inner product of two unit vectors is at most one. *)
Lemma dot_unit_le (a b : vec) : norm2 a = 1 -> norm2 b = 1 -> dot a b <= 1.
Proof.
  intros Ha Hb.
  pose proof (cauchy_schwarz a b) as H.
  rewrite <- (norm2_sqr a), <- (norm2_sqr b), Ha, Hb in H.
  nra.
Qed.

Lemma dot_unit_self (a : vec) : norm2 a = 1 -> dot a a = 1.
Proof. intros Ha. rewrite <- norm2_sqr, Ha. ring. Qed.

End TensorFacts.

(** ** Reading the dictionary of a model *)

Module LearnedDictFacts.

Import Tensor TensorFacts LearnedDict.
Open Scope R_scope.


Lemma eps_pos : 0 < eps.
Proof. unfold eps. lra. Qed.

Lemma clamped_norm_pos (row : vec) : 0 < clamp_min (norm2 row) eps.
Proof.
  unfold clamp_min. pose proof (Rmax_r (norm2 row) eps). pose proof eps_pos. lra.
Qed.

Lemma clamped_norms_bound (w : mat) :
  Forall (fun d => eps <= d /\ d <> 0) (clamped_norms w).
Proof.
  unfold clamped_norms. rewrite map_map. apply Forall_map, Forall_forall.
  intros row _. pose proof (clamped_norm_pos row) as H. split; [|lra].
  apply Rmax_r.
Qed.

(** The normalisation never meets a zero divisor. *)
Lemma normalize_rows_some (w : mat) :
  normalize_rows w
  = Some (map (fun row => map (fun x => x / clamp_min (norm2 row) eps) row) w).
Proof.
  unfold normalize_rows, clamped_norms. rewrite map_map.
  apply (div_rows_some w (fun row => clamp_min (norm2 row) eps)).
  exact clamped_norm_pos.
Qed.

Lemma normalize_rows_zero_row (w m : mat) (i : nat) (row : vec) :
  normalize_rows w = Some m -> nth_error w i = Some row ->
  Forall (eq 0) row -> nth_error m i = Some row.
Proof.
  rewrite normalize_rows_some. intros [= <-] Hi Hz.
  rewrite (map_nth_error _ _ _ Hi). rewrite zero_row_scaled by exact Hz.
  reflexivity.
Qed.


Lemma normalize_rows_length (w m : mat) :
  normalize_rows w = Some m -> length m = length w.
Proof. rewrite normalize_rows_some. intros [= <-]. apply length_map. Qed.




(** C10: [get_learned_dict] of both variants, and the normalising
    [encode] of the tied one, return finite values for every weight
    matrix: each divisor is at least [1e-8], and a zero row comes back as
    the same zero row. *)
Theorem get_learned_dict_finite :
  (forall w, Forall (fun d => eps <= d /\ d <> 0) (clamped_norms w))
  /\ (forall self : UntiedSAE.t,
        exists m, fst (UntiedSAE.get_learned_dict self) = Some m
                  /\ length m = length (UntiedSAE.decoder self)
                  /\ forall i row,
                       nth_error (UntiedSAE.decoder self) i = Some row ->
                       Forall (eq 0) row -> nth_error m i = Some row)
  /\ (forall self : TiedSAE.t,
        exists m, fst (TiedSAE.get_learned_dict self) = Some m
                  /\ length m = length (TiedSAE.encoder self)
                  /\ forall i row,
                       nth_error (TiedSAE.encoder self) i = Some row ->
                       Forall (eq 0) row -> nth_error m i = Some row)
  /\ (forall (self : TiedSAE.t) batch,
        exists c, fst (TiedSAE.encode self batch) = Some c).
Proof.
  split; [exact clamped_norms_bound|]. split; [|split].
  - intros self. simpl.
    destruct (normalize_rows (UntiedSAE.decoder self)) as [m|] eqn:E.
    2: { rewrite normalize_rows_some in E. discriminate. }
    exists m. split; [reflexivity|]. split.
    + apply normalize_rows_length. exact E.
    + intros i row Hi Hz. eapply normalize_rows_zero_row; eassumption.
  - intros self. simpl.
    destruct (normalize_rows (TiedSAE.encoder self)) as [m|] eqn:E.
    2: { rewrite normalize_rows_some in E. discriminate. }
    exists m. split; [reflexivity|]. split.
    + apply normalize_rows_length. exact E.
    + intros i row Hi Hz. eapply normalize_rows_zero_row; eassumption.
  - intros self batch. unfold TiedSAE.encode. simpl.
    destruct (TiedSAE.norm_encoder self).
    + rewrite normalize_rows_some. eexists. reflexivity.
    + eexists. reflexivity.
Qed.

End LearnedDictFacts.

(** ** Mean max cosine similarity *)

Module MmcsFacts.

Import Tensor TensorFacts Run.
Open Scope R_scope.


Lemma same_elements_trans {A} (a b c : option (list A)) :
  same_elements a b -> same_elements b c -> same_elements a c.
Proof.
  destruct a, b, c; simpl; try tauto. apply Permutation_trans.
Qed.

Lemma sequence_perm {A} (l l' : list (option A)) :
  Permutation l l' -> same_elements (sequence l) (sequence l').
Proof.
  induction 1 as [|x l l' _ IH|x y l|l l' l'' _ IH1 _ IH2].
  - simpl. constructor.
  - simpl. destruct x; [|exact I].
    destruct (sequence l), (sequence l'); simpl in *; try tauto.
    constructor. exact IH.
  - simpl. destruct x, y, (sequence l); simpl; try exact I.
    apply perm_swap.
  - eapply same_elements_trans; eassumption.
Qed.

Lemma map2_diag {A B C} (f : A -> B -> C) (g : A -> B) (l : list A) :
  map2 f l (map g l) = map (fun x => f x (g x)) l.
Proof. induction l as [|x l IH]; simpl; [|rewrite IH]; reflexivity. Qed.

Lemma normalize_perm (d d' : mat) :
  Permutation d d' -> same_elements (normalize d) (normalize d').
Proof.
  intros H. unfold normalize, div_rows. rewrite !map2_diag.
  apply sequence_perm, Permutation_map, H.
Qed.

Lemma fold_max_perm (l l' : vec) :
  Permutation l l' -> forall a, fold_left Rmax l a = fold_left Rmax l' a.
Proof.
  induction 1 as [|x l l' _ IH|x y l|l l' l'' _ IH1 _ IH2]; intros a; simpl.
  - reflexivity.
  - apply IH.
  - f_equal. rewrite <- !Rmax_assoc. f_equal. apply Rmax_comm.
  - rewrite IH1. apply IH2.
Qed.

Lemma row_max_perm (l l' : vec) : Permutation l l' -> row_max l = row_max l'.
Proof.
  induction 1 as [|x l l' H _|x y l|l l' l'' _ IH1 _ IH2]; simpl.
  - reflexivity.
  - f_equal. apply fold_max_perm, H.
  - f_equal. f_equal. apply Rmax_comm.
  - congruence.
Qed.

(** The row maxima of the similarity matrix do not see the order of the
    second argument's rows. *)
Lemma maxima_perm (g d d' : mat) :
  Permutation d d' ->
  map row_max (matmul_T g d) = map row_max (matmul_T g d').
Proof.
  intros H. unfold matmul_T. rewrite !map_map.
  apply map_ext. intros x. apply row_max_perm, Permutation_map, H.
Qed.

(** C7: the score of a dictionary is the score of any reordering of its
    rows; a zero row makes both undefined. *)
Theorem mmcs_row_permutation (ground_truth_features d d' : mat) :
  Permutation d d' ->
  mean_max_cosine_similarity ground_truth_features d
  = mean_max_cosine_similarity ground_truth_features d'.
Proof.
  intros H. unfold mean_max_cosine_similarity, cosine_sim.
  destruct (normalize ground_truth_features) as [g|]; [|reflexivity].
  pose proof (normalize_perm d d' H) as Hn.
  destruct (normalize d) as [n|], (normalize d') as [n'|];
    simpl in Hn; try contradiction; [|reflexivity].
  rewrite (maxima_perm g n n' Hn). reflexivity.
Qed.

Lemma mmcs_row_permutation_witness :
  mean_max_cosine_similarity truth learned
  = mean_max_cosine_similarity truth learned_swapped.
Proof.
  apply (mmcs_row_permutation truth learned learned_swapped).
  apply perm_swap.
Defined.

Lemma div_rows_some_in (w : mat) (f : vec -> R) :
  (forall row, In row w -> f row <> 0) ->
  div_rows w (map f w) = Some (map (fun row => map (fun x => x / f row) row) w).
Proof.
  unfold div_rows. induction w as [|row w IH]; intros Hf; simpl.
  - reflexivity.
  - rewrite vdiv_some by (apply Hf; left; reflexivity).
    rewrite IH by (intros r Hr; apply Hf; right; exact Hr). reflexivity.
Qed.

Lemma sequence_row_max (m : mat) :
  Forall (fun row => row <> []) m -> exists maxima,
    sequence (map row_max m) = Some maxima /\ length maxima = length m.
Proof.
  induction 1 as [|row m Hrow _ (maxima & E & Hlen)]; simpl.
  - exists []. split; reflexivity.
  - destruct row as [|x row]; [contradiction|]. simpl. rewrite E.
    eexists. split; [reflexivity|]. simpl. f_equal. exact Hlen.
Qed.

(** With features and dictionary rows of nonzero norm, and at least one
    of each, the score is a finite number. *)
Lemma mmcs_defined (ground_truth_features d : mat) :
  ground_truth_features <> [] -> d <> [] ->
  Forall (fun row => norm2 row <> 0) ground_truth_features ->
  Forall (fun row => norm2 row <> 0) d ->
  exists score, mean_max_cosine_similarity ground_truth_features d = Some score.
Proof.
  intros Hg Hd Hgn Hdn. unfold mean_max_cosine_similarity, cosine_sim, normalize.
  rewrite Forall_forall in Hgn, Hdn.
  rewrite (div_rows_some_in _ norm2 Hgn), (div_rows_some_in _ norm2 Hdn).
  destruct (sequence_row_max
              (matmul_T (map (fun row => map (fun x => x / norm2 row) row)
                             ground_truth_features)
                        (map (fun row => map (fun x => x / norm2 row) row) d)))
    as (maxima & E & Hlen).
  - unfold matmul_T. apply Forall_map, Forall_forall. intros x _.
    destruct d; [contradiction|discriminate].
  - rewrite E. unfold mean, fdiv.
    destruct (Req_dec_T (INR (length maxima)) 0) as [E0|_]; [|eexists; reflexivity].
    exfalso. revert E0. apply not_0_INR. rewrite Hlen.
    unfold matmul_T. rewrite !length_map.
    destruct ground_truth_features; [contradiction|discriminate].
Qed.

End MmcsFacts.

(** ** The unit-norm projection of the decoder *)

Module TrainingFacts.

Import Tensor TensorFacts Run.
Open Scope R_scope.


Lemma nth_map_seq {A} (f : nat -> A) (n j : nat) (d : A) :
  (j < n)%nat -> nth j (map f (seq 0 n)) d = f j.
Proof.
  intros Hj. rewrite (nth_indep _ d (f 0%nat)) by (rewrite length_map, length_seq; exact Hj).
  rewrite map_nth, seq_nth by exact Hj. reflexivity.
Qed.

Lemma nth_map2 {A B C} (f : A -> B -> C) (a : list A) (b : list B)
    (j : nat) (da : A) (db : B) (d : C) :
  (j < length a)%nat -> (j < length b)%nat ->
  nth j (map2 f a b) d = f (nth j a da) (nth j b db).
Proof.
  revert b j. induction a as [|x a IH]; intros [|y b] [|j]; simpl; try lia.
  - reflexivity.
  - intros Ha Hb. apply IH; lia.
Qed.

(** A column of the normalised weight is the column over its bounded norm. *)
Lemma column_normalize_dim0 (n j : nat) (w : mat) :
  Forall (fun row => length row = n) w -> (j < n)%nat ->
  column j (normalize_dim0 n w)
  = map (fun x => x / Rmax (norm2 (column j w)) normalize_eps) (column j w).
Proof.
  intros Hw Hj.
  set (d := Rmax (norm2 (column j w)) normalize_eps).
  unfold normalize_dim0, column. rewrite !map_map.
  apply map_ext_in. intros row Hrow.
  rewrite Forall_forall in Hw. specialize (Hw row Hrow).
  rewrite (nth_map2 Rdiv _ _ j 0 0 0).
  - rewrite nth_map_seq by exact Hj. reflexivity.
  - lia.
  - rewrite length_map, length_seq. exact Hj.
Qed.

Lemma normalize_eps_pos : 0 < normalize_eps.
Proof. unfold normalize_eps. lra. Qed.

(** After the forward pass every dictionary element that is not
    negligible has norm one. *)
Lemma forward_unit_norm (self : AutoEncoder) (x : mat) (j : nat) :
  well_shaped self -> (j < n_dict_components self)%nat ->
  normalize_eps <= norm2 (column j (decoder_weight self)) ->
  norm2 (column j (decoder_weight (snd (forward self x)))) = 1.
Proof.
  intros Hw Hj Hn. simpl.
  rewrite column_normalize_dim0 by assumption.
  apply norm2_unit; [exact normalize_eps_pos | exact Hn].
Qed.

Lemma norm2_one : norm2 [1] = 1.
Proof.
  unfold norm2. simpl. replace (1 * 1 + 0) with 1 by ring. apply sqrt_1.
Qed.

Lemma norm2_single (x : R) : 0 <= x -> norm2 [x] = x.
Proof.
  intros Hx. unfold norm2. simpl. rewrite Rplus_0_r. apply sqrt_square, Hx.
Qed.

Lemma sqrt_quarter : sqrt (1 / 4) = 1 / 2.
Proof.
  replace (1 / 4) with ((1 / 2) * (1 / 2)) by field.
  apply sqrt_square. lra.
Qed.

(** The decoder of [small_autoencoder] after one training step at the
    default learning rate. *)
Lemma small_step_decoder :
  decoder_weight
    (fst (fst (train_step (1 / 1000) 0 small_autoencoder
                          (adam_init small_autoencoder) small_batch)))
  = [[1 + (1 / 2000) / (1 / 2 + adam_eps)]].
Proof.
  cbn. rewrite norm2_one.
  rewrite (Rmax_left 1 normalize_eps) by (unfold normalize_eps; lra).
  unfold clamp_min. rewrite (Rmax_left (1 / 2 * 1 + 0 + 0) 0) by lra.
  replace (2 * (1 / 1 * (1 / 2 * 1 + 0 + 0) + 0 - 1) / 1 * (1 / 2 * 1 + 0 + 0) + 0)
    with (- (1 / 2)) by field.
  rewrite <- sqrt_div_alt by (unfold beta2; lra).
  replace ((beta2 * 0 + (1 - beta2) * (- (1 / 2) * - (1 / 2))) / (1 - beta2 * 1))
    with (1 / 4) by (unfold beta2; field).
  rewrite sqrt_quarter.
  do 2 f_equal. unfold beta1, adam_eps. field.
Qed.

(** C1 as stated fails: right after the optimizer step the only
    dictionary element of [small_autoencoder] has norm above [1.0009]. *)
Lemma train_step_leaves_decoder_unnormalized :
  1 + 9 / 10000
  < norm2 (column 0
      (decoder_weight
         (fst (fst (train_step (1 / 1000) 0 small_autoencoder
                               (adam_init small_autoencoder) small_batch))))).
Proof.
  rewrite small_step_decoder. cbn [column map nth].
  assert (H : 9 / 10000 < (1 / 2000) / (1 / 2 + adam_eps)).
  { unfold adam_eps. lra. }
  rewrite norm2_single by lra. lra.
Qed.

(** C1, amended: each training step projects the decoder inside its
    forward pass, where every dictionary element of norm at least [1e-12]
    gets norm one; the optimizer step then moves these weights, and the
    step ends there, without a second projection. *)
Theorem train_step_projects_in_forward (lr l1_alpha : R) (self : AutoEncoder)
    (opt : Adam) (batch : mat) :
  well_shaped self ->
  exists x_hat c projected,
    forward self batch = (x_hat, c, projected)
    /\ (forall j, (j < n_dict_components self)%nat ->
          normalize_eps <= norm2 (column j (decoder_weight self)) ->
          norm2 (column j (decoder_weight projected)) = 1)
    /\ train_step lr l1_alpha self opt batch
       = (optimizer_step lr opt projected
            (backward projected l1_alpha batch x_hat c),
          mse_loss batch x_hat).
Proof.
  intros Hw.
  destruct (forward self batch) as [[x_hat c] projected] eqn:E.
  exists x_hat, c, projected. split; [reflexivity|]. split.
  - intros j Hj Hn.
    replace projected with (snd (forward self batch)) by (rewrite E; reflexivity).
    apply forward_unit_norm; assumption.
  - unfold train_step. rewrite E.
    destruct (optimizer_step _ _ _ _) as [s o]. reflexivity.
Qed.

Lemma train_step_projects_in_forward_witness :
  exists x_hat c projected,
    forward small_autoencoder small_batch = (x_hat, c, projected)
    /\ (forall j, (j < n_dict_components small_autoencoder)%nat ->
          normalize_eps <= norm2 (column j (decoder_weight small_autoencoder)) ->
          norm2 (column j (decoder_weight projected)) = 1)
    /\ train_step (1 / 1000) 0 small_autoencoder (adam_init small_autoencoder)
                  small_batch
       = (optimizer_step (1 / 1000) (adam_init small_autoencoder) projected
            (backward projected 0 small_batch x_hat c),
          mse_loss small_batch x_hat).
Proof.
  apply (train_step_projects_in_forward (1 / 1000) 0 small_autoencoder
           (adam_init small_autoencoder) small_batch).
  repeat constructor.
Defined.

End TrainingFacts.

(** ** Matching against the next larger dictionary *)

Module CompareFacts.

Import Tensor TensorFacts ListFacts Compare.
Open Scope R_scope.


Lemma cosine_eps_small : cosine_eps <= 1.
Proof. unfold cosine_eps. lra. Qed.

Lemma cosine_unit (x y : vec) :
  norm2 x = 1 -> norm2 y = 1 -> cosine_similarity x y = dot x y.
Proof.
  intros Hx Hy. unfold cosine_similarity. rewrite Hx, Hy.
  rewrite Rmax_left by exact cosine_eps_small. field.
Qed.

Lemma nth_nth_error {A} (l : list A) (i : nat) (d : A) :
  (i < length l)%nat -> nth_error l i = Some (nth i l d).
Proof. intros H. apply nth_error_nth'. exact H. Qed.

Lemma entry_cost_matrix (s l : mat) (i j : nat) :
  (i < length s)%nat -> (j < length l)%nat ->
  entry (cost_matrix s l) i j = 1 - cosine_similarity (nth i s []) (nth j l []).
Proof.
  intros Hi Hj. unfold entry, cost_matrix, similarities.
  rewrite map_map.
  rewrite (nth_indep _ [] ((fun v => map (fun s0 => 1 - s0)
                                       (map (cosine_similarity v) l)) []))
    by (rewrite length_map; exact Hi).
  rewrite (map_nth (fun v => map (fun s0 => 1 - s0) (map (cosine_similarity v) l))).
  rewrite map_map.
  rewrite (nth_indep _ 0 ((fun w => 1 - cosine_similarity (nth i s []) w) []))
    by (rewrite length_map; exact Hj).
  rewrite (map_nth (fun w => 1 - cosine_similarity (nth i s []) w)).
  reflexivity.
Qed.

Lemma length_cost_matrix (s l : mat) : length (cost_matrix s l) = length s.
Proof. unfold cost_matrix, similarities. rewrite !length_map. reflexivity. Qed.

Lemma cost_matrix_rows (s l : mat) :
  Forall (fun row => length row = length l) (cost_matrix s l).
Proof.
  unfold cost_matrix, similarities. rewrite map_map.
  apply Forall_map, Forall_forall. intros v _. rewrite !length_map. reflexivity.
Qed.

(** The indexed read succeeds on indices inside the matrix. *)
Lemma take_pairs_ok (m : mat) (width : nat) (row_ind col_ind : list nat) :
  Forall (fun row => length row = width) m ->
  Forall (fun i => (i < length m)%nat) row_ind ->
  Forall (fun j => (j < width)%nat) col_ind ->
  take_pairs m row_ind col_ind = Ok (map2 (entry m) row_ind col_ind).
Proof.
  intros Hm Hr. revert col_ind.
  induction Hr as [|i row_ind Hi Hr IH]; intros col_ind Hc; simpl.
  - destruct col_ind; reflexivity.
  - destruct Hc as [|j col_ind Hj Hc]; [reflexivity|].
    unfold get at 1. rewrite (nth_nth_error m i []) by exact Hi. simpl.
    assert (Hrow : length (nth i m []) = width).
    { rewrite Forall_forall in Hm. apply Hm, nth_In, Hi. }
    unfold get at 1. rewrite (nth_nth_error (nth i m []) j 0) by lia. simpl.
    rewrite (IH col_ind Hc). reflexivity.
Qed.

Lemma map2_Forall {A B C} (P : C -> Prop) (f : A -> B -> C)
    (Q : A -> Prop) (S : B -> Prop) (a : list A) (b : list B) :
  (forall x y, Q x -> S y -> P (f x y)) ->
  Forall Q a -> Forall S b -> Forall P (map2 f a b).
Proof.
  intros Hf Ha. revert b.
  induction Ha as [|x a Hx Ha IH]; intros b Hb; simpl.
  - constructor.
  - destruct Hb as [|y b Hy Hb]; constructor; auto.
Qed.

Lemma length_map2 {A B C} (f : A -> B -> C) (a : list A) (b : list B) :
  length a = length b -> length (map2 f a b) = length a.
Proof.
  revert b. induction a as [|x a IH]; intros [|y b]; simpl; try discriminate.
  - reflexivity.
  - intros [= H]. f_equal. apply IH, H.
Qed.

Lemma vsum_nonneg (l : vec) : Forall (Rle 0) l -> 0 <= vsum l.
Proof. induction 1 as [|x l Hx _ IH]; simpl; lra. Qed.

(** Non-negative terms of a sum that is not positive are all zero. *)
Lemma vsum_zero (l : vec) :
  Forall (Rle 0) l -> vsum l <= 0 -> l = repeat 0 (length l).
Proof.
  induction 1 as [|x l Hx Hl IH]; simpl; intros Hs.
  - reflexivity.
  - pose proof (vsum_nonneg l Hl) as Hn.
    rewrite <- IH by lra. f_equal. lra.
Qed.

Section Self.

Variable d : mat.
Hypothesis d_unit : unit_rows d.

Lemma row_unit (i : nat) : (i < length d)%nat -> norm2 (nth i d []) = 1.
Proof.
  intros Hi. unfold unit_rows in d_unit. rewrite Forall_forall in d_unit.
  apply d_unit, nth_In, Hi.
Qed.

Lemma self_cost_nonneg (i j : nat) :
  (i < length d)%nat -> (j < length d)%nat -> 0 <= entry (cost_matrix d d) i j.
Proof.
  intros Hi Hj. rewrite entry_cost_matrix by assumption.
  rewrite cosine_unit by (apply row_unit; assumption).
  pose proof (dot_unit_le _ _ (row_unit i Hi) (row_unit j Hj)). lra.
Qed.

Lemma self_cost_diag (i : nat) :
  (i < length d)%nat -> entry (cost_matrix d d) i i = 0.
Proof.
  intros Hi. rewrite entry_cost_matrix by assumption.
  rewrite cosine_unit by (apply row_unit; assumption).
  rewrite dot_unit_self by (apply row_unit; assumption). ring.
Qed.

Lemma self_assignment_nonneg (a : list nat * list nat) :
  is_assignment (length d) (length d) a ->
  Forall (Rle 0) (map2 (entry (cost_matrix d d)) (fst a) (snd a)).
Proof.
  intros (_ & _ & _ & _ & Hr & Hc).
  eapply map2_Forall; [|exact Hr|exact Hc].
  intros i j Hi Hj. apply self_cost_nonneg; assumption.
Qed.

Lemma identity_is_assignment :
  is_assignment (length d) (length d) (identity_assignment (cost_matrix d d)).
Proof.
  unfold is_assignment, identity_assignment. rewrite length_cost_matrix. simpl.
  rewrite length_seq, Nat.min_id.
  repeat split; try apply seq_NoDup;
    apply Forall_forall; intros i Hi; apply in_seq in Hi; lia.
Qed.

Lemma diag_cost_from (k n : nat) :
  (k + n <= length d)%nat ->
  vsum (map2 (entry (cost_matrix d d)) (seq k n) (seq k n)) = 0.
Proof.
  revert k. induction n as [|n IH]; intros k Hk; simpl.
  - reflexivity.
  - rewrite self_cost_diag by lia. rewrite IH by lia. ring.
Qed.

Lemma identity_cost :
  assignment_cost (cost_matrix d d) (identity_assignment (cost_matrix d d)) = 0.
Proof.
  unfold assignment_cost, identity_assignment. simpl.
  rewrite length_cost_matrix. apply diag_cost_from. lia.
Qed.

(** Matching every row of a unit-norm dictionary with itself is optimal. *)
Lemma identity_optimal :
  optimal_assignment (cost_matrix d d) (length d)
                     (identity_assignment (cost_matrix d d)).
Proof.
  split; rewrite length_cost_matrix.
  - exact identity_is_assignment.
  - intros a' Ha'. rewrite identity_cost.
    apply vsum_nonneg, self_assignment_nonneg, Ha'.
Qed.

(** Any optimal matching of the dictionary with itself pairs rows at
    similarity one. *)
Lemma optimal_self_costs (a : list nat * list nat) :
  optimal_assignment (cost_matrix d d) (length d) a ->
  map2 (entry (cost_matrix d d)) (fst a) (snd a) = repeat 0 (length d).
Proof.
  intros [Ha Hopt]. rewrite length_cost_matrix in Ha, Hopt.
  specialize (Hopt _ identity_is_assignment). rewrite identity_cost in Hopt.
  pose proof (self_assignment_nonneg a Ha) as Hn.
  rewrite (vsum_zero _ Hn Hopt).
  destruct Ha as (Hr & Hc & _). rewrite Nat.min_id in Hr, Hc.
  rewrite length_map2 by congruence. rewrite Hr. reflexivity.
Qed.

End Self.

Lemma compare_unfold (lsa : mat -> list nat * list nat) (s l : mat) (t : R) :
  compare lsa s l t
  = (picked <- take_pairs (cost_matrix s l) (fst (lsa (cost_matrix s l)))
                          (snd (lsa (cost_matrix s l))) ;;
     fraction <- int_div (count_above (9 / 10) (map (fun c => 1 - c) picked))
                         (length s) ;;
     Ok (mean (map (fun c => 1 - c) picked), fraction * 100,
         map (fun c => 1 - c) picked)).
Proof.
  unfold compare, cost_matrix. destruct (lsa _) as [row_ind col_ind]. reflexivity.
Qed.

Lemma count_above_ones (n : nat) : count_above (9 / 10) (repeat 1 n) = n.
Proof.
  unfold count_above. induction n as [|n IH]; simpl.
  - reflexivity.
  - destruct (Rlt_dec (9 / 10) 1) as [_|N]; [|exfalso; apply N; lra].
    simpl. f_equal. exact IH.
Qed.

Lemma vsum_ones (n : nat) : vsum (repeat 1 n) = INR n.
Proof.
  induction n as [|n IH].
  - reflexivity.
  - rewrite S_INR. simpl repeat. simpl vsum. rewrite IH. ring.
Qed.

Lemma mean_ones (n : nat) : n <> 0%nat -> mean (repeat 1 n) = Some 1.
Proof.
  intros Hn. unfold mean, fdiv. rewrite repeat_length, vsum_ones.
  destruct (Req_dec_T (INR n) 0) as [E|N].
  - exfalso. exact (not_0_INR n Hn E).
  - f_equal. field. exact N.
Qed.

(** A unit-norm dictionary compared with itself: every matched pair at
    similarity one, all of them above the threshold in use. *)
Lemma compare_self (lsa : mat -> list nat * list nat) (d : mat) (t : R) :
  d <> [] -> unit_rows d ->
  optimal_assignment (cost_matrix d d) (length d) (lsa (cost_matrix d d)) ->
  compare lsa d d t = Ok (Some 1, 100, repeat 1 (length d)).
Proof.
  intros Hd Hu Hopt. rewrite compare_unfold.
  pose proof (optimal_self_costs d Hu _ Hopt) as Hcosts.
  destruct Hopt as [(_ & _ & _ & _ & Hr & Hc) _].
  rewrite (take_pairs_ok _ (length d)); [|apply cost_matrix_rows|exact Hr|exact Hc].
  rewrite Hcosts. simpl. rewrite map_repeat.
  replace (1 - 0) with 1 by ring.
  rewrite count_above_ones.
  assert (Hn : length d <> 0%nat) by (destruct d; [contradiction|discriminate]).
  unfold int_div. destruct (Nat.eqb_spec (length d) 0) as [E|_]; [contradiction|].
  simpl. rewrite mean_ones by exact Hn.
  do 3 f_equal. field. apply not_0_INR, Hn.
Qed.

(** C4: a dictionary of unit-norm rows matched against a copy of itself
    by an optimal assignment. The mean matched similarity is one and the
    share above the threshold is 100 percent, whatever threshold is
    passed; the slot of the last size keeps its initial zero. *)
Theorem compare_with_itself (lsa : mat -> list nat * list nat) (d : mat) (t : R) :
  d <> [] -> unit_rows d ->
  optimal_assignment (cost_matrix d d) (length d) (lsa (cost_matrix d d)) ->
  run_mmcs_with_larger lsa [[d; d]] t
  = Ok {| av_mmcs_with_larger_dicts := [[Some 1; Some 0]];
          feats_above_threshold := [[100; 0]];
          full_max_cosine_sim_for_histograms := [[Some (repeat 1 (length d))]] |}.
Proof.
  intros Hd Hu Hopt. unfold run_mmcs_with_larger. cbn -[compare].
  rewrite (compare_self lsa d t Hd Hu Hopt). reflexivity.
Qed.

Lemma norm2_first_axis : norm2 [1; 0] = 1.
Proof.
  unfold norm2. simpl. replace (1 * 1 + (0 * 0 + 0)) with 1 by ring. apply sqrt_1.
Qed.

Lemma norm2_second_axis : norm2 [0; 1] = 1.
Proof.
  unfold norm2. simpl. replace (0 * 0 + (1 * 1 + 0)) with 1 by ring. apply sqrt_1.
Qed.

Lemma axes_unit : unit_rows axes.
Proof.
  repeat constructor; [exact norm2_first_axis | exact norm2_second_axis].
Qed.

Lemma compare_with_itself_witness :
  run_mmcs_with_larger identity_assignment [[axes; axes]] (9 / 10)
  = Ok {| av_mmcs_with_larger_dicts := [[Some 1; Some 0]];
          feats_above_threshold := [[100; 0]];
          full_max_cosine_sim_for_histograms := [[Some (repeat 1 (length axes))]] |}.
Proof.
  apply (compare_with_itself identity_assignment axes (9 / 10)).
  - discriminate.
  - exact axes_unit.
  - exact (identity_optimal axes axes_unit).
Defined.

Lemma norm2_tilted : norm2 [3 / 5; 4 / 5] = 1.
Proof.
  unfold norm2. simpl.
  replace (3 / 5 * (3 / 5) + (4 / 5 * (4 / 5) + 0)) with 1 by field.
  apply sqrt_1.
Qed.

Lemma cost_first_axis_tilted : cost_matrix first_axis tilted = [[2 / 5]].
Proof.
  unfold cost_matrix, similarities, first_axis, tilted. simpl.
  rewrite cosine_unit by (exact norm2_first_axis || exact norm2_tilted).
  simpl. do 2 f_equal. field.
Qed.

Lemma compare_first_axis_tilted (t : R) :
  compare identity_assignment first_axis tilted t = Ok (Some (3 / 5), 0, [3 / 5]).
Proof.
  rewrite compare_unfold, cost_first_axis_tilted. cbn.
  replace (1 - 2 / 5) with (3 / 5) by field.
  unfold count_above. simpl.
  destruct (Rlt_dec (9 / 10) (3 / 5)) as [H|_]; [exfalso; lra|].
  simpl. unfold mean, fdiv. simpl.
  destruct (Req_dec_T 1 0) as [E|_]; [exfalso; lra|].
  replace ((3 / 5 + 0) / 1) with (3 / 5) by field.
  replace (0 / 1 * 100) with 0 by field. reflexivity.
Qed.

Lemma percent_above_half : percent_above (1 / 2) [3 / 5] = 100.
Proof.
  unfold percent_above, count_above. simpl.
  destruct (Rlt_dec (1 / 2) (3 / 5)) as [_|N]; [|exfalso; apply N; lra].
  simpl. field.
Qed.

(** C5, the divergence: the value passed as [threshold] never reaches the
    comparison, which is made against [0.9]. At the threshold [1/2] the
    only matched pair, of similarity [3/5], is above the threshold, and the
    function reports that none is. *)
Theorem threshold_argument_overwritten :
  (forall lsa learned_dicts t,
     run_mmcs_with_larger lsa learned_dicts t
     = run_mmcs_with_larger lsa learned_dicts (9 / 10))
  /\ run_mmcs_with_larger identity_assignment [[first_axis; tilted]] (1 / 2)
     = Ok {| av_mmcs_with_larger_dicts := [[Some (3 / 5); Some 0]];
             feats_above_threshold := [[0; 0]];
             full_max_cosine_sim_for_histograms := [[Some [3 / 5]]] |}
  /\ percent_above (1 / 2) [3 / 5] = 100.
Proof.
  split; [reflexivity|]. split; [|exact percent_above_half].
  unfold run_mmcs_with_larger. cbn -[compare].
  rewrite compare_first_axis_tilted. reflexivity.
Qed.

Lemma lookup2_zeros {A} (x : A) (rows cols r j : nat) :
  (r < rows)%nat ->
  lookup2 (zeros x rows cols) r j
  = if Nat.ltb j cols then Some x else None.
Proof.
  intros Hr. unfold lookup2, zeros. rewrite nth_error_repeat_lt by exact Hr.
  destruct (Nat.ltb_spec j cols) as [Hj|Hj].
  - apply nth_error_repeat_lt, Hj.
  - apply nth_error_repeat_ge, Hj.
Qed.

Lemma get_ok {A} (l : list A) (i : nat) (x : A) :
  nth_error l i = Some x -> get l i = Ok x.
Proof. intros H. unfold get. rewrite H. reflexivity. Qed.

Lemma compare_ok (lsa : mat -> list nat * list nat) (s l : mat) (t : R) :
  s <> [] ->
  Forall (fun i => (i < length s)%nat) (fst (lsa (cost_matrix s l))) ->
  Forall (fun j => (j < length l)%nat) (snd (lsa (cost_matrix s l))) ->
  exists r, compare lsa s l t = Ok r.
Proof.
  intros Hs Hr Hc. rewrite compare_unfold.
  rewrite (take_pairs_ok _ (length l));
    [|apply cost_matrix_rows|rewrite length_cost_matrix; exact Hr|exact Hc].
  simpl. unfold int_div.
  destruct (Nat.eqb_spec (length s) 0) as [E|_].
  - destruct s; [contradiction|discriminate].
  - simpl. eexists. reflexivity.
Qed.

Lemma slot_eq_dec (x y : nat * nat) : {x = y} + {x <> y}.
Proof. decide equality; apply Nat.eq_dec. Qed.

Section Sweep.

Variable lsa : mat -> list nat * list nat.
Variable learned_dicts : list (list mat).
Variable t : R.
Variable n : nat.

Hypothesis n_pos : (0 < n)%nat.
Hypothesis rectangular : Forall (fun dicts => length dicts = n) learned_dicts.
Hypothesis comparisons :
  forall l1 k s l,
    lookup2 learned_dicts l1 k = Some s ->
    lookup2 learned_dicts l1 (k + 1) = Some l ->
    exists r, compare lsa s l t = Ok r.

Lemma loop_body_unfold (out : arrays) (l1 k : nat) :
  loop_body lsa learned_dicts n t out (l1, k)
  = if Nat.eqb k (n - 1) then Ok out
    else r <- slot_result lsa learned_dicts t l1 k ;;
         Ok {| av_mmcs_with_larger_dicts :=
                 set_entry (av_mmcs_with_larger_dicts out) l1 k (fst (fst r));
               feats_above_threshold :=
                 set_entry (feats_above_threshold out) l1 k (snd (fst r));
               full_max_cosine_sim_for_histograms :=
                 set_entry (full_max_cosine_sim_for_histograms out) l1 k
                           (Some (snd r)) |}.
Proof.
  unfold loop_body, slot_result. destruct (Nat.eqb k (n - 1)); [reflexivity|].
  destruct (get learned_dicts l1) as [dicts|e]; [simpl|reflexivity].
  destruct (get dicts k) as [s|e]; [simpl|reflexivity].
  destruct (get dicts (k + 1)) as [l|e]; [simpl|reflexivity].
  destruct (compare lsa s l t) as [[[a b] sims]|e]; reflexivity.
Qed.

(** The last size is passed over: the arrays stay as they are. *)
Lemma loop_body_last (out : arrays) (l1 : nat) :
  loop_body lsa learned_dicts n t out (l1, (n - 1)%nat) = Ok out.
Proof. rewrite loop_body_unfold, Nat.eqb_refl. reflexivity. Qed.

Lemma slot_result_inv (l1 k : nat) (r : option R * R * vec) :
  slot_result lsa learned_dicts t l1 k = Ok r ->
  exists s l, lookup2 learned_dicts l1 k = Some s
              /\ lookup2 learned_dicts l1 (k + 1) = Some l
              /\ compare lsa s l t = Ok r.
Proof.
  unfold slot_result, lookup2, get.
  destruct (nth_error learned_dicts l1) as [dicts|]; [simpl|discriminate].
  destruct (nth_error dicts k) as [s|]; [simpl|discriminate].
  destruct (nth_error dicts (k + 1)) as [l|]; [simpl|discriminate].
  intros H. exists s, l. repeat split. exact H.
Qed.

Lemma slot_result_ok (l1 k : nat) :
  (l1 < length learned_dicts)%nat -> (k + 1 < n)%nat ->
  exists r, slot_result lsa learned_dicts t l1 k = Ok r.
Proof.
  intros Hl1 Hk.
  destruct (nth_error learned_dicts l1) as [dicts|] eqn:Ed.
  2: { apply nth_error_None in Ed. lia. }
  assert (Hlen : length dicts = n).
  { rewrite Forall_forall in rectangular.
    apply rectangular. eapply nth_error_In. exact Ed. }
  destruct (nth_error dicts k) as [s|] eqn:Es.
  2: { apply nth_error_None in Es. lia. }
  destruct (nth_error dicts (k + 1)) as [l|] eqn:El.
  2: { apply nth_error_None in El. lia. }
  destruct (comparisons l1 k s l) as [r Hr].
  - unfold lookup2. rewrite Ed. exact Es.
  - unfold lookup2. rewrite Ed. exact El.
  - exists r. unfold slot_result.
    rewrite (get_ok _ _ _ Ed). simpl.
    rewrite (get_ok _ _ _ Es). simpl.
    rewrite (get_ok _ _ _ El). simpl. exact Hr.
Qed.


Lemma visited_init :
  visited lsa learned_dicts t n []
    {| av_mmcs_with_larger_dicts := zeros (Some 0) (length learned_dicts) n;
       feats_above_threshold := zeros 0 (length learned_dicts) n;
       full_max_cosine_sim_for_histograms :=
         zeros None (length learned_dicts) (n - 1) |}.
Proof.
  intros l1 k Hl1 Hk. split; [intros []|]. intros _.
  unfold untouched. simpl. rewrite !lookup2_zeros by exact Hl1.
  destruct (Nat.ltb_spec k n) as [_|H]; [|lia]. repeat split.
Qed.

Lemma visited_step (done : list (nat * nat)) (i : nat * nat) (out : arrays) :
  visited lsa learned_dicts t n done out ->
  In i (list_prod (seq 0 (length learned_dicts)) (seq 0 n)) ->
  exists out', loop_body lsa learned_dicts n t out i = Ok out'
               /\ visited lsa learned_dicts t n (done ++ [i]) out'.
Proof.
  intros Hv Hi. destruct i as [l1' k'].
  apply in_prod_iff in Hi. destruct Hi as [Hl1' Hk'].
  apply in_seq in Hl1'. apply in_seq in Hk'.
  rewrite loop_body_unfold.
  destruct (Nat.eqb_spec k' (n - 1)) as [Elast|Hnot].
  - exists out. split; [reflexivity|].
    intros l1 k Hl1 Hk. destruct (Hv l1 k Hl1 Hk) as [Hw Hu]. split.
    + intros Hin Hne. apply Hw; [|exact Hne].
      apply in_app_or in Hin. destruct Hin as [Hin|[[= -> ->]|[]]];
        [exact Hin | contradiction].
    + intros [Hnin | Hlast]; apply Hu; [left|right; exact Hlast].
      intros Hin. apply Hnin, in_or_app. left. exact Hin.
  - destruct (slot_result_ok l1' k') as [r Hr]; [lia|lia|].
    rewrite Hr. simpl. eexists. split; [reflexivity|].
    intros l1 k Hl1 Hk. destruct (Hv l1 k Hl1 Hk) as [Hw Hu].
    destruct (Nat.eq_dec l1 l1') as [->|Hl]; [destruct (Nat.eq_dec k k') as [->|Hkk]|].
    + (* the slot just written *)
      assert (Hold : exists a b h,
                 lookup2 (av_mmcs_with_larger_dicts out) l1' k' = Some a
                 /\ lookup2 (feats_above_threshold out) l1' k' = Some b
                 /\ lookup2 (full_max_cosine_sim_for_histograms out) l1' k' = Some h).
      { destruct (in_dec slot_eq_dec (l1', k') done) as [Hin|Hnin].
        - destruct (Hw Hin Hnot) as (r0 & _ & Ha & Hb & Hh).
          exists (fst (fst r0)), (snd (fst r0)), (Some (snd r0)).
          repeat split; assumption.
        - destruct (Hu (or_introl Hnin)) as (Ha & Hb & Hh).
          assert (Hlt : Nat.ltb k' (n - 1) = true) by (apply Nat.ltb_lt; lia).
          rewrite Hlt in Hh. exists (Some 0), 0, None.
          repeat split; assumption. }
      destruct Hold as (a & b & h & Ha & Hb & Hh). split.
      * intros _ _. exists r. split; [exact Hr|].
        unfold written. simpl.
        rewrite (lookup2_set_entry_eq _ _ _ _ _ Ha).
        rewrite (lookup2_set_entry_eq _ _ _ _ _ Hb).
        rewrite (lookup2_set_entry_eq _ _ _ _ _ Hh). repeat split.
      * intros [Hnin | Hlast]; [|contradiction].
        exfalso. apply Hnin, in_or_app. right. left. reflexivity.
    + (* same row, another column *)
      assert (Hne : (l1', k') <> (l1', k)) by congruence.
      split.
      * intros Hin Hk1. apply in_app_or in Hin.
        destruct Hin as [Hin|[[= <-]|[]]]; [|contradiction].
        destruct (Hw Hin Hk1) as (r0 & Hr0 & Ha & Hb & Hh).
        exists r0. split; [exact Hr0|]. unfold written. simpl.
        rewrite !lookup2_set_entry_ne by exact Hne. repeat split; assumption.
      * intros Hcase. unfold untouched. simpl.
        rewrite !lookup2_set_entry_ne by exact Hne. apply Hu.
        destruct Hcase as [Hnin|Hlast]; [left|right; exact Hlast].
        intros Hin. apply Hnin, in_or_app. left. exact Hin.
    + (* another row *)
      assert (Hne : (l1', k') <> (l1, k)) by congruence.
      split.
      * intros Hin Hk1. apply in_app_or in Hin.
        destruct Hin as [Hin|[[= <- <-]|[]]]; [|contradiction].
        destruct (Hw Hin Hk1) as (r0 & Hr0 & Ha & Hb & Hh).
        exists r0. split; [exact Hr0|]. unfold written. simpl.
        rewrite !lookup2_set_entry_ne by exact Hne. repeat split; assumption.
      * intros Hcase. unfold untouched. simpl.
        rewrite !lookup2_set_entry_ne by exact Hne. apply Hu.
        destruct Hcase as [Hnin|Hlast]; [left|right; exact Hlast].
        intros Hin. apply Hnin, in_or_app. left. exact Hin.
Qed.

Lemma run_visits_all :
  learned_dicts <> [] ->
  exists out, run_mmcs_with_larger lsa learned_dicts t = Ok out
              /\ visited lsa learned_dicts t n
                   (list_prod (seq 0 (length learned_dicts)) (seq 0 n)) out.
Proof.
  intros Hne. unfold run_mmcs_with_larger, get.
  destruct (nth_error learned_dicts 0) as [first|] eqn:E.
  2: { apply nth_error_None in E. apply Nat.le_0_r, length_zero_iff_nil in E.
       contradiction. }
  simpl.
  assert (Hlen : length first = n).
  { rewrite Forall_forall in rectangular.
    apply rectangular. eapply nth_error_In. exact E. }
  rewrite Hlen. destruct (Nat.eqb_spec n 0) as [H0|_]; [lia|].
  apply (for_each_invariant (loop_body lsa learned_dicts n t)
           (visited lsa learned_dicts t n) _ []).
  - exact visited_init.
  - intros done' i st' Hv Hi. apply visited_step; assumption.
Qed.

End Sweep.

(** C6: on a rectangular grid whose comparisons succeed, the slot of
    every size but the last holds the comparison of the dictionary at that
    size with the one at the next size; the pass over the last size changes
    nothing, and its slot is as the allocation left it. *)
Theorem adjacent_sizes_only (lsa : mat -> list nat * list nat)
    (learned_dicts : list (list mat)) (t : R) (n : nat) :
  learned_dicts <> [] -> (0 < n)%nat ->
  Forall (fun dicts => length dicts = n) learned_dicts ->
  (forall l1 k s l,
     lookup2 learned_dicts l1 k = Some s ->
     lookup2 learned_dicts l1 (k + 1) = Some l ->
     exists r, compare lsa s l t = Ok r) ->
  (forall out l1,
     loop_body lsa learned_dicts n t out (l1, (n - 1)%nat) = Ok out)
  /\ exists out,
       run_mmcs_with_larger lsa learned_dicts t = Ok out
       /\ forall l1, (l1 < length learned_dicts)%nat ->
            untouched n out l1 (n - 1)
            /\ forall k, (k + 1 < n)%nat ->
                 exists s l r,
                   lookup2 learned_dicts l1 k = Some s
                   /\ lookup2 learned_dicts l1 (k + 1) = Some l
                   /\ compare lsa s l t = Ok r
                   /\ written out l1 k r.
Proof.
  intros Hne Hn Hrect Hcmp. split.
  - intros out l1. apply loop_body_last.
  - destruct (run_visits_all lsa learned_dicts t n Hn Hrect Hcmp Hne)
      as (out & Hrun & Hv).
    exists out. split; [exact Hrun|].
    intros l1 Hl1. split.
    + destruct (Hv l1 (n - 1)%nat Hl1 ltac:(lia)) as [_ Hu].
      apply Hu. right. reflexivity.
    + intros k Hk. destruct (Hv l1 k Hl1 ltac:(lia)) as [Hw _].
      destruct Hw as (r & Hr & Hwr).
      * apply in_prod_iff. split; apply in_seq; lia.
      * lia.
      * destruct (slot_result_inv lsa learned_dicts t l1 k r Hr)
          as (s & l & Hs & Hl & Hc).
        exists s, l, r. auto.
Qed.

Lemma three_sizes_compare (l1 k : nat) (s l : mat) :
  lookup2 three_sizes l1 k = Some s ->
  lookup2 three_sizes l1 (k + 1) = Some l ->
  exists r, compare identity_assignment s l (9 / 10) = Ok r.
Proof.
  destruct l1 as [|l1]; [|destruct l1; discriminate].
  destruct k as [|[|[|[|k]]]]; simpl; intros Hs Hl; try discriminate;
    injection Hs as <-; injection Hl as <-; apply compare_ok;
    try discriminate; simpl; repeat constructor.
Qed.

Lemma adjacent_sizes_only_witness :
  (forall out l1,
     loop_body identity_assignment three_sizes 3 (9 / 10) out (l1, (3 - 1)%nat)
     = Ok out)
  /\ exists out,
       run_mmcs_with_larger identity_assignment three_sizes (9 / 10) = Ok out
       /\ forall l1, (l1 < length three_sizes)%nat ->
            untouched 3 out l1 (3 - 1)
            /\ forall k, (k + 1 < 3)%nat ->
                 exists s l r,
                   lookup2 three_sizes l1 k = Some s
                   /\ lookup2 three_sizes l1 (k + 1) = Some l
                   /\ compare identity_assignment s l (9 / 10) = Ok r
                   /\ written out l1 k r.
Proof.
  apply (adjacent_sizes_only identity_assignment three_sizes (9 / 10) 3).
  - discriminate.
  - lia.
  - repeat constructor.
  - exact three_sizes_compare.
Defined.

End CompareFacts.

(** ** Configuration errors *)

Module ConfigFacts.

Import Config.


Lemma select_model_unknown (model_name : string) :
  known_model model_name = false ->
  select_model model_name = Raise (ValueError "Model name not recognised").
Proof.
  unfold known_model, select_model. simpl. intros H.
  destruct (String.eqb model_name "gpt2"); [discriminate|].
  destruct (String.eqb model_name "EleutherAI/pythia-70m-deduped");
    [discriminate|].
  destruct (String.eqb model_name "nanoGPT"); [discriminate|].
  reflexivity.
Qed.

(** C8 as stated fails: with a recognised model name and a checkpoint of
    the wrong activation size the run does not stop. It goes on with the
    fresh autoencoder, after one printed line. *)
Lemma mismatched_checkpoint_does_not_stop :
  run_real_data_model checkpoint ck_activation_size ck_l1_coef ck_dict_size
    "nanoGPT" 512 [1 # 1000] [1024%nat] [[fresh]] (Some [[stale]])
  = Ok (nanoGPT, true, ([[fresh]], [Mismatch 512 256])).
Proof. reflexivity. Qed.

Section Checkpoints.

Variable AE : Type.
Variable activation_size : AE -> nat.
Variable l1_coef : AE -> Q.
Variable dict_size : AE -> nat.

(** C8, amended: an unrecognised model name stops the run with the error
    "Model name not recognised", whatever else is configured; a loaded
    autoencoder whose activation size differs from the configured one is
    reported and passed over, the autoencoders in place are kept, and the
    run goes on. *)
Theorem configuration_errors (model_name : string) (activation_dim : nat)
    (l1_range : list Q) (dict_sizes : list nat) (auto_encoders : list (list AE))
    (loaded : option (list (list AE))) :
  known_model model_name = false ->
  run_real_data_model AE activation_size l1_coef dict_size model_name
    activation_dim l1_range dict_sizes auto_encoders loaded
  = Raise (ValueError "Model name not recognised")
  /\ forall st ae,
       activation_size ae <> activation_dim ->
       load_one AE activation_size l1_coef dict_size activation_dim l1_range
                dict_sizes st ae
       = (fst st, snd st ++ [Mismatch activation_dim (activation_size ae)]).
Proof.
  intros Hname. split.
  - unfold run_real_data_model. rewrite (select_model_unknown _ Hname).
    reflexivity.
  - intros [auto_encoders' out] ae Hne. unfold load_one.
    destruct (Nat.eqb_spec (activation_size ae) activation_dim) as [E|_];
      [contradiction|reflexivity].
Qed.

End Checkpoints.

Lemma configuration_errors_witness :
  run_real_data_model checkpoint ck_activation_size ck_l1_coef ck_dict_size
    "bert-base" 512 [1 # 1000] [1024%nat] [[fresh]] (Some [[stale]])
  = Raise (ValueError "Model name not recognised")
  /\ forall st ae,
       ck_activation_size ae <> 512%nat ->
       load_one checkpoint ck_activation_size ck_l1_coef ck_dict_size 512
                [1 # 1000] [1024%nat] st ae
       = (fst st, (snd st ++ [Mismatch 512 (ck_activation_size ae)])%list).
Proof.
  apply (configuration_errors checkpoint ck_activation_size ck_l1_coef
           ck_dict_size "bert-base" 512 [1 # 1000] [1024%nat] [[fresh]]
           (Some [[stale]])).
  reflexivity.
Defined.

End ConfigFacts.


(** ** The generator object and the shape of its samples *)

Module GeneratorFacts.

Import Gen Generator ListFacts GenRepair GenFacts.
Open Scope Q_scope.

Lemma decay_unfold (q : Q) (n : nat) :
  decay q n = map (fun i => q ^ Z.of_nat i) (seq 0 n).
Proof. reflexivity. Qed.

Lemma power_succ (q : Q) (i : nat) :
  q ^ Z.of_nat (S i) == q ^ Z.of_nat i * q.
Proof.
  rewrite Nat2Z.inj_succ. unfold Z.succ.
  rewrite Qpower_plus' by lia. reflexivity.
Qed.

Lemma mult_le_l (a b c : Q) : 0 <= c -> a <= b -> c * a <= c * b.
Proof.
  intros Hc Hab. rewrite (Qmult_comm c a), (Qmult_comm c b).
  apply Qmult_le_compat_r; assumption.
Qed.

Lemma power_unit_interval (q : Q) (i : nat) :
  0 <= q -> q <= 1 -> 0 <= q ^ Z.of_nat i /\ q ^ Z.of_nat i <= 1.
Proof.
  intros H0 H1. induction i as [|i [IH0 IH1]].
  - simpl. split; discriminate.
  - rewrite power_succ. split.
    + apply Qmult_le_0_compat; assumption.
    + apply Qle_trans with (q ^ Z.of_nat i * 1).
      * apply mult_le_l; assumption.
      * rewrite Qmult_1_r. exact IH1.
Qed.

Lemma power_decreasing (q : Q) (i j : nat) :
  0 <= q -> q <= 1 -> (i <= j)%nat -> q ^ Z.of_nat j <= q ^ Z.of_nat i.
Proof.
  intros H0 H1 Hij. induction Hij as [|j Hij IH].
  - apply Qle_refl.
  - rewrite power_succ.
    destruct (power_unit_interval q j H0 H1) as [Hj0 _].
    apply Qle_trans with (q ^ Z.of_nat j * 1).
    + apply mult_le_l; assumption.
    + rewrite Qmult_1_r. exact IH.
Qed.

Lemma frac_unit_interval (k n : nat) :
  (0 < n)%nat -> (k <= n)%nat ->
  0 <= frac_nonzero k n /\ frac_nonzero k n <= 1.
Proof.
  intros Hn Hk. unfold frac_nonzero.
  assert (Hpos : 0 < inject_Z (Z.of_nat n)).
  { rewrite <- (Zlt_Qlt 0). lia. }
  split.
  - apply Qle_shift_div_l; [exact Hpos|]. rewrite Qmult_0_l.
    rewrite <- (Zle_Qle 0). lia.
  - apply Qle_shift_div_r; [exact Hpos|]. rewrite Qmult_1_l.
    rewrite <- Zle_Qle. lia.
Qed.

Lemma nth_component_prob (q : Q) (k n i : nat) :
  (i < n)%nat ->
  nth i (independent_component_probs q k n) 0
  = q ^ Z.of_nat i * frac_nonzero k n.
Proof.
  intros Hi. unfold independent_component_probs. rewrite decay_unfold, map_map.
  rewrite (nth_indep _ 0 ((fun j => q ^ Z.of_nat j * frac_nonzero k n) 0%nat))
    by (rewrite length_map, length_seq; exact Hi).
  rewrite (map_nth (fun j => q ^ Z.of_nat j * frac_nonzero k n)).
  rewrite seq_nth by exact Hi. reflexivity.
Qed.

(** In independent mode, with a decay factor of [[0,1]] and no more
    active components asked for than there are components, every
    inclusion probability lies in [[0,1]], the first is [frac_nonzero] and
    they do not increase along the components. *)
Theorem independent_probs_valid (q : Q) (k n : nat) :
  0 <= q -> q <= 1 -> (0 < n)%nat -> (k <= n)%nat ->
  length (independent_component_probs q k n) = n
  /\ Forall (fun p => 0 <= p /\ p <= 1) (independent_component_probs q k n)
  /\ nth 0 (independent_component_probs q k n) 0 == frac_nonzero k n
  /\ forall i j, (i <= j)%nat -> (j < n)%nat ->
       nth j (independent_component_probs q k n) 0
       <= nth i (independent_component_probs q k n) 0.
Proof.
  intros H0 H1 Hn Hk.
  destruct (frac_unit_interval k n Hn Hk) as [Hf0 Hf1].
  split; [|split; [|split]].
  - unfold independent_component_probs, decay. rewrite !length_map, length_seq.
    reflexivity.
  - unfold independent_component_probs. rewrite decay_unfold, map_map.
    apply Forall_map, Forall_forall. intros i _.
    destruct (power_unit_interval q i H0 H1) as [Hp0 Hp1]. split.
    + apply Qmult_le_0_compat; assumption.
    + apply Qle_trans with (1 * frac_nonzero k n).
      * apply Qmult_le_compat_r; assumption.
      * rewrite Qmult_1_l. exact Hf1.
  - rewrite nth_component_prob by exact Hn. simpl. apply Qmult_1_l.
  - intros i j Hij Hj. rewrite !nth_component_prob by lia.
    apply Qmult_le_compat_r; [|exact Hf0].
    apply power_decreasing; assumption.
Qed.

Lemma independent_probs_valid_witness :
  length (independent_component_probs (99 # 100) 5 512) = 512%nat
  /\ Forall (fun p => 0 <= p /\ p <= 1) (independent_component_probs (99 # 100) 5 512)
  /\ nth 0 (independent_component_probs (99 # 100) 5 512) 0 == frac_nonzero 5 512
  /\ forall i j, (i <= j)%nat -> (j < 512)%nat ->
       nth j (independent_component_probs (99 # 100) 5 512) 0
       <= nth i (independent_component_probs (99 # 100) 5 512) 0.
Proof.
  apply (independent_probs_valid (99 # 100) 5 512).
  - discriminate.
  - discriminate.
  - lia.
  - lia.
Defined.

Lemma vmul_zero_row (codes strengths : vec) :
  Forall (fun c => c == 0) codes ->
  Forall (fun c => c == 0) (vmul codes strengths).
Proof.
  intros H. revert strengths.
  induction H as [|c codes Hc _ IH]; intros [|s strengths]; simpl;
    constructor.
  - rewrite Hc. apply Qmult_0_l.
  - apply IH.
Qed.

Lemma vadd_zero (a b : vec) :
  Forall (fun x => x == 0) a -> Forall (fun x => x == 0) b ->
  Forall (fun x => x == 0) (vadd a b).
Proof.
  intros Ha. revert b.
  induction Ha as [|x a Hx _ IH]; intros b Hb; simpl.
  - constructor.
  - destruct Hb as [|y b Hy Hb]; constructor.
    + rewrite Hx, Hy. reflexivity.
    + apply IH, Hb.
Qed.

Lemma vec_mat_zero (dim : nat) (row : vec) (feats : mat) :
  Forall (fun c => c == 0) row ->
  Forall (fun x => x == 0) (vec_mat dim row feats).
Proof.
  intros H. revert feats.
  assert (Hz : Forall (fun x => x == 0) (repeat 0 dim)).
  { apply Forall_forall. intros x Hx. apply repeat_spec in Hx. subst.
    reflexivity. }
  induction H as [|c row Hc _ IH]; intros [|f feats]; simpl; try exact Hz.
  apply vadd_zero; [|apply IH].
  unfold vscale. apply Forall_map, Forall_forall. intros x _.
  rewrite Hc. apply Qmult_0_l.
Qed.

Lemma nth_error_map2 {A B C} (f : A -> B -> C) (a : list A) (b : list B)
    (i : nat) (x : A) (y : B) :
  nth_error a i = Some x -> nth_error b i = Some y ->
  nth_error (map2 f a b) i = Some (f x y).
Proof.
  revert b i. induction a as [|x' a IH]; intros [|y' b] [|i]; simpl;
    try discriminate.
  - intros [= ->] [= ->]. reflexivity.
  - apply IH.
Qed.

(** In independent mode a sample whose code has no nonzero entry is the
    zero activation vector. *)
Theorem zero_code_zero_sample (activation_dim : nat) (feature_probs : vec)
    (feats : mat) (d : draws) (i : nat) (code strengths : vec) :
  nth_error (codes_of (generate_rand_dataset activation_dim feature_probs feats d)) i
  = Some code ->
  nth_error (feature_strengths d) i = Some strengths ->
  Forall (fun c => c == 0) code ->
  exists sample,
    nth_error (snd (generate_rand_dataset activation_dim feature_probs feats d)) i
    = Some sample
    /\ Forall (fun x => x == 0) sample.
Proof.
  unfold generate_rand_dataset, codes_of. simpl. intros Hc Hs Hz.
  exists (vec_mat activation_dim (vmul code strengths) feats). split.
  - unfold mat_mul.
    rewrite (map_nth_error _ _ _ (nth_error_map2 vmul _ _ _ _ _ Hc Hs)).
    reflexivity.
  - apply vec_mat_zero, vmul_zero_row, Hz.
Qed.

Lemma zero_code_zero_sample_witness :
  exists sample,
    nth_error (snd (generate_rand_dataset 2 sparse_probs unit_feats high_draws)) 0
    = Some sample
    /\ Forall (fun x => x == 0) sample.
Proof.
  apply (zero_code_zero_sample 2 sparse_probs unit_feats high_draws 0
           [0; 0] [1 # 2; 1 # 2]).
  - reflexivity.
  - reflexivity.
  - repeat constructor.
Defined.

Lemma count_nonzero_cons (x : Q) (row : vec) :
  count_nonzero (x :: row)
  = ((if nonzero x then 1 else 0) + count_nonzero row)%nat.
Proof. unfold count_nonzero. simpl. destruct (nonzero x); reflexivity. Qed.

Lemma count_nonzero_one_hot (row : vec) (j : nat) :
  (j < length row)%nat -> count_nonzero row = 0%nat ->
  count_nonzero (set_nth row j 1) = 1%nat.
Proof.
  revert j. induction row as [|x row IH]; intros [|j] Hj Hz; simpl in *; try lia.
  - rewrite count_nonzero_cons in *. destruct (nonzero x); [discriminate|].
    simpl in Hz. rewrite Hz. reflexivity.
  - rewrite count_nonzero_cons in *. destruct (nonzero x); [discriminate|].
    simpl in *. apply IH; [lia | exact Hz].
Qed.

(** The repair of the correlated mode is minimal: a sample with an active
    component keeps its code as thresholded, and a sample without one gets
    a code with a single nonzero entry, a one at one of the drawn indices. *)
Theorem repair_is_minimal (activation_dim n : nat) (cdf decay : vec)
    (feats : mat) (frac : Q) (d : draws) (random_index : list nat)
    (r : nat) (row : vec) :
  Forall (fun row => length row = n)
         (thresholded (component_probs cdf decay frac) d) ->
  Forall (fun j => (j < n)%nat) random_index ->
  length random_index
  = length (zero_sample_index (thresholded (component_probs cdf decay frac) d)) ->
  nth_error (thresholded (component_probs cdf decay frac) d) r = Some row ->
  exists row',
    nth_error (codes_of (generate_correlated_dataset activation_dim cdf feats
                           frac decay d random_index)) r = Some row'
    /\ (count_nonzero row <> 0%nat -> row' = row)
    /\ (count_nonzero row = 0%nat ->
        count_nonzero row' = 1%nat
        /\ exists j, In j random_index /\ row' = set_nth row j 1).
Proof.
  intros Hshape Hcols Hlen Hr.
  unfold generate_correlated_dataset, codes_of. simpl.
  set (codes := thresholded (component_probs cdf decay frac) d) in *.
  pose proof (nth_error_lt _ _ _ Hr) as Hlt.
  assert (Hrow : nth r codes [] = row) by (apply nth_error_nth; exact Hr).
  assert (Hn : length row = n).
  { rewrite Forall_forall in Hshape. apply Hshape.
    eapply nth_error_In. exact Hr. }
  destruct (Nat.eq_dec (count_nonzero row) 0) as [Hz|Hnz].
  - assert (Hin : In r (zero_sample_index codes)).
    { apply zero_rows_from_spec. exists r. rewrite Hrow.
      repeat split; [exact Hlt | exact Hz]. }
    apply In_nth_error in Hin. destruct Hin as [k Hk].
    destruct (nth_error random_index k) as [j|] eqn:Ej.
    2: { apply nth_error_None in Ej. pose proof (nth_error_lt _ _ _ Hk). lia. }
    pose proof (force_one_at _ _ _ k r j (zero_rows_from_NoDup codes 0) Hk Ej Hlt)
      as Hat.
    rewrite Hrow in Hat. exists (set_nth row j 1). split; [exact Hat|].
    split; [intros Hc; contradiction|]. intros _. split.
    + apply count_nonzero_one_hot; [|exact Hz].
      rewrite Forall_forall in Hcols. rewrite Hn. apply Hcols.
      eapply nth_error_In. exact Ej.
    + exists j. split; [eapply nth_error_In; exact Ej | reflexivity].
  - exists row. split; [|split; [reflexivity | intros Hc; contradiction]].
    assert (Hnotin : ~ In r (zero_sample_index codes)).
    { intros Hin. apply zero_rows_from_spec in Hin.
      destruct Hin as (k & -> & _ & Hz). simpl in Hrow. rewrite Hrow in Hz.
      contradiction. }
    exact (eq_trans (force_one_other (zero_sample_index codes) random_index
                       codes r Hnotin) Hr).
Qed.

Lemma repair_is_minimal_witness :
  exists row',
    nth_error (codes_of (generate_correlated_dataset 2 half_cdf unit_feats
                           half_frac steep_decay two_samples [2%nat])) 0
    = Some row'
    /\ (count_nonzero [0; 0; 0; 0] <> 0%nat -> row' = [0; 0; 0; 0])
    /\ (count_nonzero [0; 0; 0; 0] = 0%nat ->
        count_nonzero row' = 1%nat
        /\ exists j, In j [2%nat] /\ row' = set_nth [0; 0; 0; 0] j 1).
Proof.
  apply (repair_is_minimal 2 4 half_cdf steep_decay unit_feats half_frac
           two_samples [2%nat] 0 [0; 0; 0; 0]).
  - repeat constructor.
  - repeat constructor.
  - reflexivity.
  - reflexivity.
Defined.

(** The correlated mode at [two_samples]: no code is left without a
    nonzero entry. *)
Lemma correlated_codes_nonzero_witness :
  Forall (fun row => count_nonzero row <> 0%nat)
         (codes_of (generate_correlated_dataset 2 half_cdf unit_feats half_frac
                      steep_decay two_samples [2%nat])).
Proof.
  apply (correlated_codes_nonzero 2 4 half_cdf steep_decay unit_feats half_frac
           two_samples [2%nat]).
  - repeat constructor.
  - repeat constructor.
  - reflexivity.
Defined.

End GeneratorFacts.


(** ** Reading and chunking text *)

Module TextFacts.

Import Text.
Open Scope nat_scope.

Lemma read_from_spec {line item} (loads : line -> item)
    (max_lines start_line i : nat) (f : list line) :
  read_from line item loads max_lines start_line i f
  = map loads (firstn (max_lines + start_line - Nat.max i start_line)
                      (skipn (start_line - i) f)).
Proof.
  revert i. induction f as [|l f IH]; intros i; simpl.
  - rewrite skipn_nil, firstn_nil. reflexivity.
  - destruct (Nat.ltb_spec i start_line) as [Hlt|Hge].
    + rewrite IH.
      replace (start_line - i) with (S (start_line - S i)) by lia.
      replace (Nat.max (S i) start_line) with (Nat.max i start_line) by lia.
      reflexivity.
    + replace (start_line - i) with 0 by lia. simpl.
      destruct (Nat.leb_spec (max_lines + start_line) i) as [Hend|Hin].
      * replace (max_lines + start_line - Nat.max i start_line) with 0 by lia.
        reflexivity.
      * replace (max_lines + start_line - Nat.max i start_line)
          with (S (max_lines + start_line - Nat.max (S i) start_line)) by lia.
        simpl. f_equal. rewrite IH.
        replace (start_line - S i) with 0 by lia. reflexivity.
Qed.

(** [read_from_pile] yields the parsed lines numbered [start_line] to
    [start_line + max_lines - 1], as many of them as the file has. *)
Theorem read_from_pile_window {line item} (loads : line -> item)
    (f : list line) (max_lines start_line : nat) :
  read_from_pile line item loads f max_lines start_line
  = map loads (firstn max_lines (skipn start_line f))
  /\ length (read_from_pile line item loads f max_lines start_line)
     = Nat.min max_lines (length f - start_line).
Proof.
  assert (E : read_from_pile line item loads f max_lines start_line
              = map loads (firstn max_lines (skipn start_line f))).
  { unfold read_from_pile. rewrite read_from_spec.
    rewrite Nat.sub_0_r, Nat.max_0_l.
    replace (max_lines + start_line - start_line) with max_lines by lia.
    reflexivity. }
  split; [exact E|].
  rewrite E, length_map, length_firstn, length_skipn. reflexivity.
Qed.

Section Chunking.

Variable token : Type.

Lemma ceil_div_bounds (a b : nat) :
  0 < b -> (ceil_div a b - 1) * b < a + (if Nat.eqb a 0 then 1 else 0)
           /\ a <= ceil_div a b * b.
Proof.
  intros Hb. unfold ceil_div.
  pose proof (Nat.div_mod (a + b - 1) b ltac:(lia)) as Hdm.
  pose proof (Nat.mod_upper_bound (a + b - 1) b ltac:(lia)) as Hmod.
  set (q := (a + b - 1) / b) in *. set (m := (a + b - 1) mod b) in *.
  destruct (Nat.eqb_spec a 0) as [->|Ha]; split; nia.
Qed.

Lemma ceil_div_zero (b : nat) : 0 < b -> ceil_div 0 b = 0.
Proof.
  intros Hb. unfold ceil_div. apply Nat.div_small. lia.
Qed.

(** Consecutive slices of width [c] from [k * c] on, enough of them to
    reach the end, put the list back together. *)
Lemma concat_slices (c : nat) (l : list token) (k n : nat) :
  0 < c -> length l <= (k + n) * c ->
  concat (map (fun i => slice token l (i * c) ((i + 1) * c)) (seq k n))
  = skipn (k * c) l.
Proof.
  intros Hc. revert k. induction n as [|n IH]; intros k Hlen; simpl.
  - rewrite skipn_all2 by lia. reflexivity.
  - rewrite IH by lia. unfold slice.
    replace ((k + 1) * c - k * c) with c by lia.
    replace (S k * c) with (c + k * c) by lia.
    rewrite <- skipn_skipn. apply firstn_skipn.
Qed.

(** The pieces cut from the overflow hold its tokens in order, none of
    them is empty and none is longer than [chunk_size]. *)
Theorem overflow_chunks_partition (chunk_size : nat) (overflow : list token) :
  0 < chunk_size ->
  concat (overflow_chunks token chunk_size overflow) = overflow
  /\ Forall (fun chunk => 0 < length chunk <= chunk_size)
            (overflow_chunks token chunk_size overflow)
  /\ length (overflow_chunks token chunk_size overflow)
     = ceil_div (length overflow) chunk_size.
Proof.
  intros Hc. unfold overflow_chunks.
  destruct (ceil_div_bounds (length overflow) chunk_size Hc) as [Hlo Hhi].
  split; [|split].
  - rewrite concat_slices by (simpl; lia). reflexivity.
  - apply Forall_map, Forall_forall. intros i Hi. apply in_seq in Hi.
    unfold slice. rewrite length_firstn, length_skipn.
    replace ((i + 1) * chunk_size - i * chunk_size) with chunk_size by lia.
    destruct (Nat.eqb_spec (length overflow) 0) as [E|E].
    + rewrite E, ceil_div_zero in Hi by exact Hc. lia.
    + assert (i * chunk_size < length overflow) by nia. lia.
  - rewrite length_map, length_seq. reflexivity.
Qed.

Lemma list_sum_repeat (d k : nat) : list_sum (repeat d k) = k * d.
Proof. induction k as [|k IH]; simpl; [|rewrite IH]; reflexivity. Qed.

Lemma spread_sum (total n : nat) :
  0 < n -> list_sum (spread total n) = total /\ length (spread total n) = n.
Proof.
  intros Hn. unfold spread. split.
  - rewrite list_sum_app, list_sum_repeat. simpl.
    pose proof (Nat.div_mod total n ltac:(lia)) as H.
    set (q := total / n) in *. set (m := total mod n) in *. nia.
  - rewrite length_app, repeat_length. simpl. lia.
Qed.

(** What [_tokenize_fn] returns from its chunks. Without
    [return_final_batch] the last chunk is dropped; if no chunk is left the
    function raises, and otherwise the [length] column sums to the token
    count of all the chunks, the dropped one included, and the [bytes]
    column to the byte count, one entry per kept chunk. *)
Theorem finish_totals (input_ids : list (list token)) (total_bytes : nat)
    (return_final_batch : bool) :
  let kept := if return_final_batch then input_ids else removelast input_ids in
  (kept = [] ->
   exists msg, finish token input_ids total_bytes return_final_batch
               = Raise (ValueError msg))
  /\ (kept <> [] ->
      exists out,
        finish token input_ids total_bytes return_final_batch = Ok out
        /\ input_ids_out token out = kept
        /\ list_sum (length_out token out)
           = list_sum (map (@length token) input_ids)
        /\ list_sum (bytes_out token out) = total_bytes
        /\ length (length_out token out) = length kept
        /\ length (bytes_out token out) = length kept).
Proof.
  intros kept. unfold finish. fold kept. split.
  - intros ->. simpl. eexists. reflexivity.
  - intros Hk.
    assert (Hpos : 0 < length kept) by (destruct kept; [contradiction|simpl; lia]).
    destruct (Nat.eqb_spec (length kept) 0) as [E|_]; [lia|].
    eexists. split; [reflexivity|]. simpl.
    destruct (spread_sum (list_sum (map (@length token) input_ids))
                         (length kept) Hpos) as [Hs1 Hl1].
    destruct (spread_sum total_bytes (length kept) Hpos) as [Hs2 Hl2].
    repeat split; assumption.
Qed.

End Chunking.

Lemma overflow_chunks_partition_witness :
  concat (overflow_chunks nat 2 [1; 2; 3; 4; 5]) = [1; 2; 3; 4; 5]
  /\ Forall (fun chunk => 0 < length chunk <= 2)
            (overflow_chunks nat 2 [1; 2; 3; 4; 5])
  /\ length (overflow_chunks nat 2 [1; 2; 3; 4; 5])
     = ceil_div (length [1; 2; 3; 4; 5]) 2.
Proof.
  apply (overflow_chunks_partition nat 2 [1; 2; 3; 4; 5]). lia.
Defined.

End TextFacts.


(** ** Ground-truth features and feature movement *)

Module FeaturesFacts.

Import Tensor TensorFacts Compare CompareFacts MmcsFacts Features.
Open Scope R_scope.

Lemma norm2_pos (v : vec) : norm2 v <> 0 -> 0 < norm2 v.
Proof. intros H. pose proof (norm2_nonneg v). lra. Qed.

(** The generated features: as many rows as were drawn, each of norm
    one, provided no drawn row is the zero vector. *)
Theorem generate_rand_feats_unit (drawn : mat) :
  Forall (fun row => norm2 row <> 0) drawn ->
  exists feats,
    generate_rand_feats drawn = Some feats
    /\ length feats = length drawn
    /\ Forall (fun row => norm2 row = 1) feats.
Proof.
  intros H. unfold generate_rand_feats.
  rewrite Forall_forall in H. rewrite (div_rows_some_in drawn norm2 H).
  eexists. split; [reflexivity|]. split; [apply length_map|].
  apply Forall_map, Forall_forall. intros row Hrow.
  pose proof (norm2_pos row (H row Hrow)) as Hpos.
  rewrite norm2_scaled by exact Hpos. field. lra.
Qed.

Lemma norm2_drawn_row : norm2 [3; 4] = 5.
Proof.
  unfold norm2. simpl. replace (3 * 3 + (4 * 4 + 0)) with (5 * 5) by ring.
  apply sqrt_square. lra.
Qed.

Lemma generate_rand_feats_unit_witness :
  exists feats,
    generate_rand_feats drawn_row = Some feats
    /\ length feats = length drawn_row
    /\ Forall (fun row => norm2 row = 1) feats.
Proof.
  apply (generate_rand_feats_unit drawn_row).
  repeat constructor. rewrite norm2_drawn_row. lra.
Defined.

(** A drawn zero row leaves no finite feature matrix. *)
Lemma generate_rand_feats_zero_row (before after : mat) (row : vec) :
  row <> [] -> norm2 row = 0 ->
  Forall (fun r => norm2 r <> 0) before ->
  generate_rand_feats (before ++ row :: after) = None.
Proof.
  intros Hne Hz Hb. unfold generate_rand_feats, div_rows.
  induction Hb as [|r before Hr _ IH]; simpl.
  - rewrite Hz. destruct row as [|x row]; [contradiction|].
    rewrite vdiv_zero. reflexivity.
  - rewrite vdiv_some by exact Hr. rewrite IH. reflexivity.
Qed.

Lemma shape_eqb_true (a b : mat) : shape_eqb a b = true <-> shape a = shape b.
Proof.
  unfold shape_eqb, shape. simpl. rewrite andb_true_iff, !Nat.eqb_eq.
  split; [intros [-> ->]; reflexivity | intros [= -> ->]; auto].
Qed.

Lemma vsum_app (a b : vec) : vsum (a ++ b) = vsum a + vsum b.
Proof. induction a as [|x a IH]; simpl; [|rewrite IH]; ring. Qed.

Lemma vsum_repeat (x : R) (d : nat) : vsum (repeat x d) = INR d * x.
Proof.
  induction d as [|d IH].
  - simpl. ring.
  - rewrite S_INR. simpl repeat. simpl vsum. rewrite IH. ring.
Qed.

(** Rows filled with one value each: the sum and the number of entries. *)
Lemma filled_rows (values : vec) (d : nat) :
  vsum (concat (map (fun x => repeat x d) values)) = INR d * vsum values
  /\ length (concat (map (fun x => repeat x d) values))
     = (d * length values)%nat.
Proof.
  induction values as [|x values [IHs IHl]]; simpl.
  - split; [ring | lia].
  - rewrite vsum_app, vsum_repeat, length_app, repeat_length, IHs, IHl.
    split; [ring | lia].
Qed.

Lemma map2_map {A B C D} (f : C -> D) (g : A -> B -> C) (a : list A) (b : list B) :
  map f (map2 g a b) = map2 (fun x y => f (g x y)) a b.
Proof.
  revert b. induction a as [|x a IH]; intros [|y b]; simpl; try reflexivity.
  rewrite IH. reflexivity.
Qed.

Lemma mean_filled (values : vec) (d : nat) :
  (0 < d)%nat ->
  mean (concat (map (fun x => repeat x d) values)) = mean values.
Proof.
  intros Hd. unfold mean, fdiv.
  destruct (filled_rows values d) as [Hs Hl]. rewrite Hs, Hl.
  assert (HId : INR d <> 0) by (apply not_0_INR; lia).
  rewrite mult_INR.
  destruct (Req_dec_T (INR (length values)) 0) as [E|N].
  - rewrite E, Rmult_0_r.
    destruct (Req_dec_T 0 0) as [_|C]; [reflexivity | contradiction].
  - destruct (Req_dec_T (INR d * INR (length values)) 0) as [E|_].
    + apply Rmult_integral in E. tauto.
    + f_equal. field. split; assumption.
Qed.

Lemma map2_ext {A B C} (f g : A -> B -> C) (a : list A) (b : list B) :
  (forall x y, f x y = g x y) -> map2 f a b = map2 g a b.
Proof.
  intros H. revert b. induction a as [|x a IH]; intros [|y b]; simpl;
    try reflexivity.
  rewrite H, IH. reflexivity.
Qed.

Lemma movement_as_average (a b : mat) :
  shape a = shape b -> (0 < snd (shape a))%nat ->
  check_feature_movement a b
  = Passed (mean (map2 (fun v w => 1 - cosine_similarity v w) a b)).
Proof.
  intros Hs Hd. unfold check_feature_movement.
  apply shape_eqb_true in Hs. rewrite Hs. f_equal.
  rewrite <- (mean_filled (map2 (fun v w => 1 - cosine_similarity v w) a b)
                          (snd (shape a)) Hd).
  rewrite !map2_map. do 2 f_equal.
  apply map2_ext. intros v w. apply map_repeat.
Qed.

(** The filling of whole rows does not move the mean: the function
    returns the average over the features of one minus the cosine
    similarity of the paired rows. An empty dictionary gives [nan]. *)
Theorem check_feature_movement_row_average (a b : mat) :
  shape a = shape b -> (0 < snd (shape a))%nat ->
  check_feature_movement a b
  = Passed (mean (map2 (fun v w => 1 - cosine_similarity v w) a b)).
Proof. exact (movement_as_average a b). Qed.

Lemma check_feature_movement_row_average_witness :
  check_feature_movement first_axis tilted
  = Passed (mean (map2 (fun v w => 1 - cosine_similarity v w) first_axis tilted)).
Proof.
  apply (check_feature_movement_row_average first_axis tilted).
  - reflexivity.
  - simpl. lia.
Defined.

Lemma cosine_eps_pos : 0 < cosine_eps.
Proof. unfold cosine_eps. lra. Qed.

Lemma cosine_self (v : vec) : cosine_eps <= norm2 v -> cosine_similarity v v = 1.
Proof.
  intros H. unfold cosine_similarity. rewrite Rmax_left by exact H.
  rewrite <- norm2_sqr. field. pose proof cosine_eps_pos. lra.
Qed.

Lemma map2_same {A C} (f : A -> A -> C) (l : list A) :
  map2 f l l = map (fun x => f x x) l.
Proof. induction l as [|x l IH]; simpl; [|rewrite IH]; reflexivity. Qed.

Lemma vsum_zeros (l : vec) : Forall (eq 0) l -> vsum l = 0.
Proof. induction 1 as [|x l Hx _ IH]; simpl; [|rewrite IH, <- Hx]; ring. Qed.

(** A dictionary has not moved from itself: with at least one row, at
    least one column and no row of norm below [1e-8], the movement
    between the dictionary and itself is zero. *)
Theorem check_feature_movement_self (d : mat) :
  d <> [] -> (0 < snd (shape d))%nat ->
  Forall (fun row => cosine_eps <= norm2 row) d ->
  check_feature_movement d d = Passed (Some 0).
Proof.
  intros Hne Hw Hn.
  rewrite movement_as_average by (reflexivity || exact Hw).
  f_equal. rewrite map2_same. unfold mean, fdiv. rewrite length_map.
  destruct (Req_dec_T (INR (length d)) 0) as [E|N].
  - exfalso. revert E. apply not_0_INR.
    destruct d; [contradiction | discriminate].
  - f_equal. rewrite vsum_zeros; [field; exact N|].
    apply Forall_map. rewrite Forall_forall in *. intros row Hrow.
    rewrite cosine_self by (apply Hn, Hrow). ring.
Qed.

Lemma check_feature_movement_self_witness :
  check_feature_movement axes axes = Passed (Some 0).
Proof.
  apply (check_feature_movement_self axes).
  - discriminate.
  - simpl. lia.
  - pose proof cosine_eps_small as H.
    constructor; [rewrite norm2_first_axis; exact H|].
    constructor; [rewrite norm2_second_axis; exact H|]. constructor.
Defined.

Lemma dot_comm (a b : vec) : dot a b = dot b a.
Proof.
  revert b. induction a as [|x a IH]; intros [|y b]; simpl; try reflexivity.
  rewrite IH. ring.
Qed.

Lemma cosine_comm (x y : vec) : cosine_similarity x y = cosine_similarity y x.
Proof.
  unfold cosine_similarity. rewrite (dot_comm x y).
  rewrite (Rmult_comm (Rmax (norm2 x) cosine_eps)). reflexivity.
Qed.

Lemma dot_le_norms (x y : vec) :
  - (norm2 x * norm2 y) <= dot x y <= norm2 x * norm2 y.
Proof.
  pose proof (cauchy_schwarz x y) as H.
  rewrite <- (norm2_sqr x), <- (norm2_sqr y) in H.
  pose proof (norm2_nonneg x). pose proof (norm2_nonneg y).
  assert (0 <= norm2 x * norm2 y) by nra.
  split; nra.
Qed.

(** The cosine similarity of the comparison lies between minus one and
    one, whatever the two vectors. *)
Lemma cosine_bounds (x y : vec) : -1 <= cosine_similarity x y <= 1.
Proof.
  unfold cosine_similarity.
  pose proof (dot_le_norms x y) as [Hlo Hhi].
  pose proof (norm2_nonneg x). pose proof (norm2_nonneg y).
  pose proof cosine_eps_pos.
  pose proof (Rmax_l (norm2 x) cosine_eps). pose proof (Rmax_r (norm2 x) cosine_eps).
  pose proof (Rmax_l (norm2 y) cosine_eps). pose proof (Rmax_r (norm2 y) cosine_eps).
  set (p := Rmax (norm2 x) cosine_eps) in *.
  set (q := Rmax (norm2 y) cosine_eps) in *.
  assert (Hpq : 0 < p * q) by nra.
  assert (Hn : norm2 x * norm2 y <= p * q) by nra.
  split; apply (Rmult_le_reg_r (p * q)); try exact Hpq;
    unfold Rdiv; rewrite Rmult_assoc, Rinv_l by lra; lra.
Qed.

Lemma mean_bounds (l : vec) (lo hi : R) :
  l <> [] -> Forall (fun x => lo <= x <= hi) l ->
  exists v, mean l = Some v /\ lo <= v <= hi.
Proof.
  intros Hne Hl.
  assert (Hs : INR (length l) * lo <= vsum l <= INR (length l) * hi).
  { clear Hne. induction Hl as [|x l Hx _ IH].
    - simpl. lra.
    - change (length (x :: l)) with (S (length l)). rewrite S_INR. simpl vsum.
      lra. }
  assert (Hk : 0 < INR (length l)).
  { apply lt_0_INR. destruct l; [contradiction | simpl; lia]. }
  unfold mean, fdiv.
  destruct (Req_dec_T (INR (length l)) 0) as [E|_]; [lra|].
  eexists. split; [reflexivity|].
  split; apply (Rmult_le_reg_r (INR (length l))); try exact Hk;
    unfold Rdiv; rewrite ?Rmult_assoc, ?Rinv_l by lra; lra.
Qed.

Lemma map2_comm {A C} (f : A -> A -> C) (a b : list A) :
  (forall x y, f x y = f y x) -> map2 f a b = map2 f b a.
Proof.
  intros H. revert b. induction a as [|x a IH]; intros [|y b]; simpl;
    try reflexivity.
  rewrite H, IH. reflexivity.
Qed.

(** Dictionaries of different shapes fail the assertion. For two of one
    shape, with at least one row and one column, the movement is a number
    between zero and two, and the same in both directions. *)
Theorem check_feature_movement_range (a b : mat) :
  (shape a <> shape b -> check_feature_movement a b = AssertionError)
  /\ (shape a = shape b -> a <> [] -> (0 < snd (shape a))%nat ->
      exists v, check_feature_movement a b = Passed (Some v)
                /\ 0 <= v <= 2
                /\ check_feature_movement b a = Passed (Some v)).
Proof.
  split.
  - intros Hne. unfold check_feature_movement.
    destruct (shape_eqb a b) eqn:E; [|reflexivity].
    apply shape_eqb_true in E. contradiction.
  - intros Hs Hne Hw.
    rewrite (movement_as_average a b Hs Hw).
    rewrite (movement_as_average b a (eq_sym Hs)) by (rewrite <- Hs; exact Hw).
    rewrite (map2_comm (fun v w => 1 - cosine_similarity v w) b a)
      by (intros x y; rewrite cosine_comm; reflexivity).
    destruct (mean_bounds (map2 (fun v w => 1 - cosine_similarity v w) a b) 0 2)
      as (v & Hv & Hb).
    + destruct a as [|x a]; [contradiction|].
      destruct b as [|y b]; [discriminate|]. discriminate.
    + apply (map2_Forall _ _ (fun _ => True) (fun _ => True)).
      * intros x y _ _. pose proof (cosine_bounds x y). lra.
      * apply Forall_forall. auto.
      * apply Forall_forall. auto.
    + exists v. rewrite Hv. auto.
Qed.

End FeaturesFacts.


(** ** The projection and the codes of a model *)

Module ModelFacts.

Import Tensor TensorFacts LearnedDict LearnedDictFacts Run TrainingFacts.
Open Scope R_scope.

Lemma length_map2_min {A B C} (f : A -> B -> C) (a : list A) (b : list B) :
  length (map2 f a b) = Nat.min (length a) (length b).
Proof.
  revert b. induction a as [|x a IH]; intros [|y b]; simpl; try reflexivity.
  rewrite IH. reflexivity.
Qed.

Lemma normalize_dim0_shape (n : nat) (w : mat) :
  Forall (fun row => length row = n) w ->
  Forall (fun row => length row = n) (normalize_dim0 n w).
Proof.
  intros H. unfold normalize_dim0. apply Forall_map.
  rewrite Forall_forall in *. intros row Hrow.
  rewrite length_map2_min, length_map, length_seq, (H row Hrow).
  apply Nat.min_id.
Qed.

Lemma div_by_ones (row : vec) (n k : nat) :
  (length row <= n)%nat ->
  map2 Rdiv row (map (fun _ => 1) (seq k n)) = row.
Proof.
  revert n k. induction row as [|x row IH]; intros [|n] k H; simpl in *;
    try reflexivity; try lia.
  rewrite IH by lia. f_equal. field.
Qed.

(** Projecting a projected decoder changes nothing, when no dictionary
    element had a norm below [1e-12]. *)
Lemma normalize_dim0_idempotent (n : nat) (w : mat) :
  Forall (fun row => length row = n) w ->
  (forall j, (j < n)%nat -> normalize_eps <= norm2 (column j w)) ->
  normalize_dim0 n (normalize_dim0 n w) = normalize_dim0 n w.
Proof.
  intros Hw Hn.
  pose proof (normalize_dim0_shape n w Hw) as Hw'.
  set (w' := normalize_dim0 n w) in *.
  unfold normalize_dim0 at 1.
  assert (Hd : map (fun j => Rmax (norm2 (column j w')) normalize_eps) (seq 0 n)
               = map (fun _ => 1) (seq 0 n)).
  { apply map_ext_in. intros j Hj. apply in_seq in Hj.
    unfold w'. rewrite column_normalize_dim0 by (assumption || lia).
    rewrite norm2_unit by (exact normalize_eps_pos || apply Hn; lia).
    apply Rmax_left. unfold normalize_eps. lra. }
  rewrite Hd.
  rewrite <- (map_id w') at 2. apply map_ext_in. intros row Hrow.
  apply div_by_ones. rewrite Forall_forall in Hw'. rewrite (Hw' row Hrow). lia.
Qed.

(** A forward pass after a forward pass leaves the module as the first
    one left it: the projection of the decoder is applied once and for all,
    for a decoder with no dictionary element of norm below [1e-12]. *)
Theorem forward_twice (self : AutoEncoder) (x x' : mat) :
  well_shaped self ->
  (forall j, (j < n_dict_components self)%nat ->
     normalize_eps <= norm2 (column j (decoder_weight self))) ->
  snd (forward (snd (forward self x)) x') = snd (forward self x).
Proof.
  intros Hw Hn. unfold forward, with_params. simpl.
  rewrite normalize_dim0_idempotent by assumption. reflexivity.
Qed.

Lemma forward_twice_witness :
  snd (forward (snd (forward small_autoencoder small_batch)) small_batch)
  = snd (forward small_autoencoder small_batch).
Proof.
  apply (forward_twice small_autoencoder small_batch small_batch).
  - repeat constructor.
  - intros j Hj. simpl in Hj. assert (j = 0%nat) by lia. subst j.
    simpl. rewrite norm2_one. unfold normalize_eps. lra.
Defined.

Lemma affine_relu_nonneg (encoder : mat) (bias : vec) (batch : mat) :
  length (affine_relu encoder bias batch) = length batch
  /\ Forall (Forall (Rle 0)) (affine_relu encoder bias batch).
Proof.
  unfold affine_relu, matmul_T. rewrite !length_map. split; [reflexivity|].
  rewrite !map_map. apply Forall_map, Forall_forall. intros x _.
  apply Forall_map, Forall_forall. intros y _.
  unfold clamp_min. apply Rmax_r.
Qed.

(** Codes are never negative, and there is one row of them per sample:
    for [encode] of both dictionary variants and for the codes the
    autoencoder's forward pass returns. *)
Theorem codes_nonnegative :
  (forall (self : UntiedSAE.t) batch,
     length (fst (UntiedSAE.encode self batch)) = length batch
     /\ Forall (Forall (Rle 0)) (fst (UntiedSAE.encode self batch)))
  /\ (forall (self : TiedSAE.t) batch,
        exists c, fst (TiedSAE.encode self batch) = Some c
                  /\ length c = length batch /\ Forall (Forall (Rle 0)) c)
  /\ (forall (self : AutoEncoder) x,
        length (snd (fst (forward self x))) = length x
        /\ Forall (Forall (Rle 0)) (snd (fst (forward self x)))).
Proof.
  split; [|split].
  - intros self batch. apply affine_relu_nonneg.
  - intros self batch. unfold TiedSAE.encode. simpl.
    destruct (TiedSAE.norm_encoder self).
    + rewrite normalize_rows_some. eexists. split; [reflexivity|].
      apply affine_relu_nonneg.
    + eexists. split; [reflexivity|]. apply affine_relu_nonneg.
  - intros self x. apply affine_relu_nonneg.
Qed.

Lemma scaled_by_one (row : vec) : map (fun x => x / 1) row = row.
Proof.
  rewrite <- (map_id row) at 2. apply map_ext. intros x. field.
Qed.

(** The dictionary read from a model is a fixed point of the read: a
    model that stores it returns it unchanged, when the rows it was read
    from had norms of at least [1e-8]. *)
Theorem get_learned_dict_fixed_point (self : UntiedSAE.t) (m : mat) :
  Forall (fun row => eps <= norm2 row) (UntiedSAE.decoder self) ->
  fst (UntiedSAE.get_learned_dict self) = Some m ->
  fst (UntiedSAE.get_learned_dict
         {| UntiedSAE.encoder := UntiedSAE.encoder self;
            UntiedSAE.decoder := m;
            UntiedSAE.encoder_bias := UntiedSAE.encoder_bias self |})
  = Some m
  /\ fst (TiedSAE.get_learned_dict
            {| TiedSAE.encoder := m;
               TiedSAE.encoder_bias := UntiedSAE.encoder_bias self;
               TiedSAE.norm_encoder := false |})
     = Some m.
Proof.
  simpl. intros Hn. rewrite !normalize_rows_some. intros [= <-].
  assert (E : map (fun row => map (fun x => x / clamp_min (norm2 row) eps) row)
                  (map (fun row => map (fun x => x / clamp_min (norm2 row) eps) row)
                       (UntiedSAE.decoder self))
              = map (fun row => map (fun x => x / clamp_min (norm2 row) eps) row)
                    (UntiedSAE.decoder self)).
  { rewrite map_map. apply map_ext_in. intros row Hrow.
    rewrite Forall_forall in Hn. specialize (Hn row Hrow).
    unfold clamp_min.
    rewrite (norm2_unit row eps eps_pos Hn).
    rewrite (Rmax_left 1 eps) by (unfold eps; lra).
    apply scaled_by_one. }
  rewrite E. split; reflexivity.
Qed.

Lemma get_learned_dict_fixed_point_witness :
  fst (UntiedSAE.get_learned_dict
         {| UntiedSAE.encoder := [[1; 0]];
            UntiedSAE.decoder := [[1 / 1; 0 / 1]];
            UntiedSAE.encoder_bias := [0] |})
  = Some [[1 / 1; 0 / 1]]
  /\ fst (TiedSAE.get_learned_dict
            {| TiedSAE.encoder := [[1 / 1; 0 / 1]];
               TiedSAE.encoder_bias := [0];
               TiedSAE.norm_encoder := false |})
     = Some [[1 / 1; 0 / 1]].
Proof.
  apply (get_learned_dict_fixed_point
           {| UntiedSAE.encoder := [[1; 0]];
              UntiedSAE.decoder := [[1; 0]];
              UntiedSAE.encoder_bias := [0] |} [[1 / 1; 0 / 1]]).
  - simpl. repeat constructor. rewrite CompareFacts.norm2_first_axis.
    unfold eps. lra.
  - simpl. rewrite normalize_rows_some. simpl. unfold clamp_min.
    rewrite CompareFacts.norm2_first_axis.
    rewrite (Rmax_left 1 eps) by (unfold eps; lra). reflexivity.
Defined.

End ModelFacts.


(** ** Dead features *)

Module DiagnosticsFacts.

Import Tensor TensorFacts Run TrainingFacts ModelFacts Diagnostics.
Open Scope R_scope.

Lemma nth_nonneg (v : vec) (j : nat) : Forall (Rle 0) v -> 0 <= nth j v 0.
Proof.
  intros H. revert j. induction H as [|x v Hx _ IH]; intros [|j]; simpl;
    try lra; auto.
Qed.

Lemma blend_zero (a m : R) :
  0 <= a -> 0 <= m ->
  (a * ((1000 - 1) / 1000) + m / 1000 = 0 <-> a = 0 /\ m = 0).
Proof. intros Ha Hm. split; [intros H; split; lra | intros [-> ->]; lra]. Qed.

(** From the second batch on, an entry of the running activations is
    zero only if it was zero and stays out of every batch. *)
Lemma run_metrics_later (n k : nat) (st : running) (batches : list (R * R * vec)) :
  length (feature_activations st) = n ->
  Forall (Rle 0) (feature_activations st) ->
  Forall (batch_ok n) batches ->
  let final := feature_activations (run_metrics (S k) st batches) in
  length final = n /\ Forall (Rle 0) final
  /\ forall j, (j < n)%nat ->
       (nth j final 0 = 0
        <-> nth j (feature_activations st) 0 = 0
            /\ Forall (fun b => nth j (snd b) 0 = 0) batches).
Proof.
  intros Hlen Hpos Hb. revert k st Hlen Hpos.
  induction Hb as [|[[lr l1] m] batches [Hm Hmpos] _ IH]; intros k st Hlen Hpos;
    simpl.
  - split; [exact Hlen|]. split; [exact Hpos|]. intros j Hj.
    split; [intros E; split; [exact E | constructor] | intros [E _]; exact E].
  - simpl in Hm, Hmpos.
    set (st' := update_running (S (S k)) st lr l1 m).
    assert (Hfa : feature_activations st'
                  = map2 (fun a x => a * ((1000 - 1) / 1000) + x / 1000)
                         (feature_activations st) m) by reflexivity.
    assert (Hlen' : length (feature_activations st') = n).
    { rewrite Hfa, length_map2_min, Hlen, Hm. apply Nat.min_id. }
    assert (Hpos' : Forall (Rle 0) (feature_activations st')).
    { rewrite Hfa. apply (CompareFacts.map2_Forall _ _ (Rle 0) (Rle 0));
        [|assumption|assumption].
      intros a x Ha Hx. lra. }
    destruct (IH (S k) st' Hlen' Hpos') as (Hl & Hp & Hiff).
    split; [exact Hl|]. split; [exact Hp|].
    intros j Hj. rewrite (Hiff j Hj), Hfa.
    rewrite (nth_map2 _ _ _ j 0 0 0) by lia.
    rewrite blend_zero by (apply nth_nonneg; assumption).
    split.
    + intros [[Ha Hx] Hrest]. split; [exact Ha|]. constructor; assumption.
    + intros [Ha Hall]. inversion Hall; subst. simpl in *. tauto.
Qed.

Lemma nth_repeat_zero (n j : nat) : nth j (repeat 0 n) 0 = 0.
Proof.
  revert j. induction n as [|n IH]; intros [|j]; simpl; try reflexivity.
  apply IH.
Qed.

(** After a run over batches of non-negative mean activation levels, a
    feature's running activation is exactly zero if and only if the
    feature was at zero in every batch: a feature that fired once is never
    counted dead again. *)
Theorem dead_iff_never_active (n : nat) (batches : list (R * R * vec)) :
  Forall (batch_ok n) batches ->
  let final := feature_activations (run_metrics 0 (initial_running n) batches) in
  length final = n
  /\ (dead_features final <= n)%nat
  /\ forall j, (j < n)%nat ->
       (nth j final 0 = 0 <-> Forall (fun b => nth j (snd b) 0 = 0) batches).
Proof.
  intros Hb.
  assert (Hmain :
    let final := feature_activations (run_metrics 0 (initial_running n) batches) in
    length final = n
    /\ forall j, (j < n)%nat ->
         (nth j final 0 = 0 <-> Forall (fun b => nth j (snd b) 0 = 0) batches)).
  { destruct Hb as [|[[lr l1] m] batches [Hm Hmpos] Hb]; simpl.
    - split; [apply repeat_length|]. intros j _. rewrite nth_repeat_zero.
      split; [constructor | reflexivity].
    - simpl in Hm, Hmpos.
      destruct (run_metrics_later n 0
                  {| running_recon_loss := lr; running_l1_loss := l1;
                     feature_activations := m |} batches Hm Hmpos Hb)
        as (Hl & _ & Hiff).
      split; [exact Hl|]. intros j Hj. rewrite (Hiff j Hj). simpl. split.
      + intros [Hx Hrest]. constructor; assumption.
      + intros Hall. inversion Hall; subst. simpl in *. tauto. }
  destruct Hmain as [Hl Hiff]. simpl. split; [exact Hl|]. split; [|exact Hiff].
  unfold dead_features. lia.
Qed.

Lemma dead_iff_never_active_witness :
  let final := feature_activations (run_metrics 0 (initial_running 2) three_batches) in
  length final = 2%nat
  /\ (dead_features final <= 2)%nat
  /\ forall j, (j < 2)%nat ->
       (nth j final 0 = 0
        <-> Forall (fun b => nth j (snd b) 0 = 0) three_batches).
Proof.
  apply (dead_iff_never_active 2 three_batches).
  unfold three_batches, batch_ok. repeat constructor; simpl; lra.
Defined.

Lemma probe_codes (self : AutoEncoder) (input : nat -> mat) (from count : nat) :
  fst (probe self input from count)
  = map (fun k => LearnedDict.affine_relu (encoder_weight self)
                    (encoder_bias self) (input k))
        (seq from count).
Proof.
  revert self from. induction count as [|count IH]; intros self from; simpl.
  - reflexivity.
  - specialize (IH (with_params self
                      (normalize_dim0 (n_dict_components self) (decoder_weight self))
                      (encoder_weight self) (encoder_bias self)) (S from)).
    destruct (probe _ input (S from) count) as [outputs self''].
    simpl in *. rewrite IH. reflexivity.
Qed.

Lemma probe_module (self : AutoEncoder) (input : nat -> mat) (from count : nat) :
  (forall x, snd (forward self x) = self) ->
  snd (probe self input from count) = self.
Proof.
  intros Hfix. revert from. induction count as [|count IH]; intros from; simpl.
  - reflexivity.
  - specialize (Hfix (input from)). unfold forward in Hfix. simpl in Hfix.
    rewrite Hfix. specialize (IH (S from)).
    destruct (probe self input (S from) count) as [outputs self''].
    simpl in *. exact IH.
Qed.

Lemma projected_fixed (self : AutoEncoder) (x x' : mat) :
  well_shaped self ->
  (forall j, (j < n_dict_components self)%nat ->
     normalize_eps <= norm2 (column j (decoder_weight self))) ->
  snd (forward (snd (forward self x)) x') = snd (forward self x).
Proof.
  intros Hw Hn. unfold forward, with_params. simpl.
  rewrite normalize_dim0_idempotent by assumption. reflexivity.
Qed.

Lemma probe_projects (self : AutoEncoder) (input : nat -> mat) (count : nat) (x : mat) :
  well_shaped self ->
  (forall j, (j < n_dict_components self)%nat ->
     normalize_eps <= norm2 (column j (decoder_weight self))) ->
  snd (probe self input 0 (S count)) = snd (forward self x).
Proof.
  intros Hw Hn. simpl.
  pose proof (probe_module (snd (forward self x)) input 1 count
                (fun x' => projected_fixed self x x' Hw Hn)) as H.
  unfold forward in H. simpl in H.
  destruct (probe _ input 1 count) as [outputs self''].
  simpl in *. exact H.
Qed.

(** Counting dead features projects the decoder: whatever the generator
    yields, the module is left as one forward pass leaves it, for a decoder
    with no dictionary element of norm below [1e-12]. *)
Theorem get_n_dead_features_projects (self : AutoEncoder) (g : first_items)
    (n_batches : nat) (x : mat) :
  well_shaped self ->
  (forall j, (j < n_dict_components self)%nat ->
     normalize_eps <= norm2 (column j (decoder_weight self))) ->
  snd (get_n_dead_features self g n_batches) = snd (forward self x)
  /\ forall j, (j < n_dict_components self)%nat ->
       norm2 (column j (decoder_weight (snd (get_n_dead_features self g n_batches))))
       = 1.
Proof.
  intros Hw Hn.
  assert (E : snd (get_n_dead_features self g n_batches) = snd (forward self x)).
  { unfold get_n_dead_features. destruct g as [s|m].
    - pose proof (probe_projects self (fun k => [s k]) n_batches x Hw Hn) as H.
      destruct (probe self (fun k => [s k]) 0 (S n_batches)) as [outputs self'].
      exact H.
    - pose proof (probe_projects self m n_batches x Hw Hn) as H.
      destruct (probe self m 0 (S n_batches)) as [outputs self'].
      exact H. }
  split; [exact E|]. intros j Hj. rewrite E.
  apply forward_unit_norm; [exact Hw | exact Hj | apply Hn, Hj].
Qed.

Lemma get_n_dead_features_projects_witness :
  snd (get_n_dead_features small_autoencoder (Matrices (fun _ => small_batch)) 10)
  = snd (forward small_autoencoder small_batch)
  /\ forall j, (j < n_dict_components small_autoencoder)%nat ->
       norm2 (column j (decoder_weight
                          (snd (get_n_dead_features small_autoencoder
                                  (Matrices (fun _ => small_batch)) 10))))
       = 1.
Proof.
  apply (get_n_dead_features_projects small_autoencoder
           (Matrices (fun _ => small_batch)) 10 small_batch).
  - repeat constructor.
  - intros j Hj. simpl in Hj. assert (j = 0%nat) by lia. subst j.
    simpl. rewrite norm2_one. unfold normalize_eps. lra.
Defined.

Lemma vsum_zero_iff (l : vec) :
  Forall (Rle 0) l -> (vsum l = 0 <-> forallb zerob l = true).
Proof.
  induction 1 as [|x l Hx Hl IH]; simpl.
  - tauto.
  - pose proof (CompareFacts.vsum_nonneg l Hl) as Hs.
    unfold zerob at 1. destruct (Req_dec_T x 0) as [->|Hne]; simpl.
    + rewrite <- IH. split; intros H; lra.
    + split; [intros H; exfalso; lra | discriminate].
Qed.

(** The mean of non-negative values is exactly zero when there is a
    value and all are zero. *)
Lemma is_zero_mean (l : vec) :
  Forall (Rle 0) l ->
  is_zero (mean l) = match l with [] => false | _ => forallb zerob l end.
Proof.
  intros Hl. unfold mean, fdiv.
  destruct l as [|x l].
  - simpl. destruct (Req_dec_T 0 0) as [_|C]; [reflexivity | contradiction].
  - assert (Hk : 0 < INR (length (x :: l))) by (apply lt_0_INR; simpl; lia).
    destruct (Req_dec_T (INR (length (x :: l))) 0) as [E|_]; [lra|].
    unfold is_zero.
    destruct (forallb zerob (x :: l)) eqn:Ef.
    + apply vsum_zero_iff in Ef; [|exact Hl]. rewrite Ef.
      destruct (Req_dec_T (0 / INR (length (x :: l))) 0) as [_|C];
        [reflexivity|]. exfalso. apply C. unfold Rdiv. ring.
    + destruct (Req_dec_T (vsum (x :: l) / INR (length (x :: l))) 0) as [E0|_];
        [|reflexivity].
      assert (Hs : vsum (x :: l) = 0).
      { apply (Rmult_eq_reg_r (/ INR (length (x :: l)))).
        - rewrite Rmult_0_l. exact E0.
        - apply Rinv_neq_0_compat. lra. }
      apply vsum_zero_iff in Hs; [|exact Hl]. congruence.
Qed.

Lemma probed_codes_nonneg (self : AutoEncoder) (input : nat -> mat) (n : nat) :
  Forall (Forall (Rle 0)) (probed_codes self input n).
Proof.
  unfold probed_codes. apply Forall_concat, Forall_map, Forall_forall.
  intros k _. apply affine_relu_nonneg.
Qed.

Lemma forallb_map {A B} (f : A -> B) (p : B -> bool) (l : list A) :
  forallb p (map f l) = forallb (fun x => p (f x)) l.
Proof. induction l as [|x l IH]; simpl; [|rewrite IH]; reflexivity. Qed.

Lemma length_filter_map {A B} (f : A -> B) (p : B -> bool) (l : list A) :
  length (filter p (map f l)) = length (filter (fun x => p (f x)) l).
Proof.
  induction l as [|x l IH]; simpl; [reflexivity|].
  destruct (p (f x)); simpl; rewrite IH; reflexivity.
Qed.

Lemma length_filter_le {A} (p : A -> bool) (l : list A) :
  (length (filter p l) <= length l)%nat.
Proof.
  induction l as [|x l IH]; simpl; [lia|]. destruct (p x); simpl; lia.
Qed.

(** With batches that are tuples holding the sample matrix, the count is
    the number of features at zero in every probed row, among the
    [n_dict_components] features; without a probed row it is zero. *)
Theorem get_n_dead_features_matrices (self : AutoEncoder) (x : nat -> mat)
    (n_batches : nat) :
  let codes := probed_codes self x n_batches in
  fst (get_n_dead_features self (Matrices x) n_batches)
  = match codes with
    | [] => 0%nat
    | _ => length (filter (silent codes) (seq 0 (n_dict_components self)))
    end
  /\ (fst (get_n_dead_features self (Matrices x) n_batches)
      <= n_dict_components self)%nat.
Proof.
  intros codes.
  assert (E : fst (get_n_dead_features self (Matrices x) n_batches)
              = length (filter (fun j => is_zero (mean (column j codes)))
                               (seq 0 (n_dict_components self)))).
  { unfold get_n_dead_features.
    pose proof (probe_codes self x 0 (S n_batches)) as H.
    destruct (probe self x 0 (S n_batches)) as [outputs self'].
    simpl in H. subst outputs. rewrite length_filter_map. reflexivity. }
  split.
  - rewrite E. pose proof (probed_codes_nonneg self x n_batches) as Hpos.
    fold codes in Hpos.
    destruct codes as [|row codes'] eqn:Ec.
    + clear. induction (seq 0 (n_dict_components self)) as [|j l IH]; simpl.
      * reflexivity.
      * unfold mean at 1, fdiv. simpl.
        destruct (Req_dec_T 0 0) as [_|C]; [exact IH | contradiction].
    + f_equal. apply filter_ext. intros j.
      rewrite is_zero_mean.
      * unfold column. simpl. unfold silent. simpl. f_equal.
        apply forallb_map.
      * unfold column. apply Forall_map. rewrite Forall_forall in *.
        intros r Hr. apply nth_nonneg. apply Hpos, Hr.
  - rewrite E.
    pose proof (length_filter_le (fun j => is_zero (mean (column j codes)))
                  (seq 0 (n_dict_components self))) as H.
    rewrite length_seq in H. exact H.
Qed.

(** Codes of one-sample batches: taking the only row of each batch and
    stacking the batches give the same entries. *)
Lemma sample_codes (encoder : mat) (bias : vec) (x : nat -> vec) (l : list nat) :
  concat (map (fun k => hd [] (LearnedDict.affine_relu encoder bias [x k])) l)
  = concat (concat (map (fun k => LearnedDict.affine_relu encoder bias [x k]) l)).
Proof.
  induction l as [|k l IH]; [reflexivity|].
  cbn [map concat]. rewrite concat_app, <- IH.
  unfold LearnedDict.affine_relu, matmul_T. cbn [map hd concat].
  rewrite app_nil_r. reflexivity.
Qed.

Lemma forallb_concat_false (codes : mat) (row : vec) (c : R) :
  In row codes -> In c row -> c <> 0 -> forallb zerob (concat codes) = false.
Proof.
  intros Hrow Hc Hne.
  destruct (forallb zerob (concat codes)) eqn:E; [|reflexivity].
  rewrite forallb_forall in E.
  assert (Hin : In c (concat codes)) by (apply in_concat; eauto).
  specialize (E c Hin). unfold zerob in E.
  destruct (Req_dec_T c 0); [contradiction | discriminate].
Qed.

(** With batches that are the sample matrix itself, [batch[0]] is one
    sample and the codes of all probes are averaged into a single number:
    the count is at most one, and it is zero as soon as one feature is
    active on one probed sample, however many features are silent. *)
Theorem get_n_dead_features_samples (self : AutoEncoder) (x : nat -> vec)
    (n_batches : nat) :
  let codes := probed_codes self (fun k => [x k]) n_batches in
  fst (get_n_dead_features self (Samples x) n_batches)
  = match concat codes with
    | [] => 0%nat
    | _ => if forallb zerob (concat codes) then 1%nat else 0%nat
    end
  /\ (fst (get_n_dead_features self (Samples x) n_batches) <= 1)%nat
  /\ (forall row c, In row codes -> In c row -> c <> 0 ->
      fst (get_n_dead_features self (Samples x) n_batches) = 0%nat).
Proof.
  intros codes.
  assert (E : fst (get_n_dead_features self (Samples x) n_batches)
              = if is_zero (mean (concat codes)) then 1%nat else 0%nat).
  { unfold get_n_dead_features.
    pose proof (probe_codes self (fun k => [x k]) 0 (S n_batches)) as H.
    destruct (probe self (fun k => [x k]) 0 (S n_batches)) as [outputs self'].
    simpl fst in H. subst outputs. cbn [fst].
    rewrite map_map. unfold codes, probed_codes.
    rewrite sample_codes. reflexivity. }
  assert (Hpos : Forall (Rle 0) (concat codes)).
  { apply Forall_concat. apply probed_codes_nonneg. }
  rewrite E, (is_zero_mean _ Hpos).
  split; [|split].
  - destruct (concat codes); reflexivity.
  - destruct (concat codes) as [|y l]; [lia|].
    destruct (forallb zerob (y :: l)); lia.
  - intros row c Hrow Hc Hne.
    rewrite (forallb_concat_false codes row c Hrow Hc Hne).
    destruct (concat codes); reflexivity.
Qed.

End DiagnosticsFacts.


(** ** Edges of the comparison *)

Module CompareEdgeFacts.

Import Tensor TensorFacts ListFacts Compare CompareFacts FeaturesFacts.
Open Scope R_scope.

Lemma for_each_unchanged {S I} (body : S -> I -> result S) (items : list I) (st : S) :
  (forall i, In i items -> body st i = Ok st) -> for_each body items st = Ok st.
Proof.
  induction items as [|i items IH]; intros H; simpl.
  - reflexivity.
  - rewrite (H i (or_introl eq_refl)). simpl. apply IH.
    intros j Hj. apply H. right. exact Hj.
Qed.

(** What the function does without a pair of sizes to compare: without an
    L1 coefficient it raises [IndexError], without a size [ValueError],
    and with a single size it returns the arrays as allocated, all zero,
    without a call of the solver. *)
Theorem run_mmcs_without_pairs (lsa : mat -> list nat * list nat) (t : R) :
  run_mmcs_with_larger lsa [] t = Raise IndexError
  /\ (forall rest, exists msg,
        run_mmcs_with_larger lsa ([] :: rest) t = Raise (ValueError msg))
  /\ (forall d rest,
        run_mmcs_with_larger lsa ([d] :: rest) t
        = Ok {| av_mmcs_with_larger_dicts := zeros (Some 0) (S (length rest)) 1;
                feats_above_threshold := zeros 0 (S (length rest)) 1;
                full_max_cosine_sim_for_histograms :=
                  zeros None (S (length rest)) 0 |}).
Proof.
  split; [reflexivity|]. split.
  - intros rest. eexists. reflexivity.
  - intros d rest. unfold run_mmcs_with_larger.
    cbn [get nth_error bind length Nat.eqb Nat.sub].
    apply for_each_unchanged. intros [l1 k] Hin.
    apply in_prod_iff in Hin. destruct Hin as [_ Hk]. apply in_seq in Hk.
    assert (k = 0%nat) by lia. subst k. reflexivity.
Qed.

Lemma count_above_le (threshold : R) (v : vec) :
  (count_above threshold v <= length v)%nat.
Proof.
  unfold count_above. induction v as [|x v IH]; simpl; [lia|].
  destruct (Rlt_dec threshold x); simpl; lia.
Qed.

Lemma length_map2_eq {A B C} (f : A -> B -> C) (a : list A) (b : list B) (n : nat) :
  length a = n -> length b = n -> length (map2 f a b) = n.
Proof.
  intros Ha Hb. rewrite length_map2 by congruence. exact Ha.
Qed.

(** One comparison under the solver's contract, for a smaller dictionary
    with at least one row: as many matched similarities as the smaller of
    the two row counts, each between minus one and one, and a percentage
    between 0 and 100. *)
Theorem compare_ranges (lsa : mat -> list nat * list nat) (s l : mat) (t : R) :
  s <> [] ->
  is_assignment (length s) (length l) (lsa (cost_matrix s l)) ->
  exists av above sims,
    compare lsa s l t = Ok (av, above, sims)
    /\ length sims = Nat.min (length s) (length l)
    /\ Forall (fun x => -1 <= x <= 1) sims
    /\ 0 <= above <= 100.
Proof.
  intros Hs (Hlr & Hlc & _ & _ & Hr & Hc).
  rewrite compare_unfold.
  rewrite (take_pairs_ok _ (length l));
    [|apply cost_matrix_rows|rewrite length_cost_matrix; exact Hr|exact Hc].
  simpl. unfold int_div.
  assert (Hn : length s <> 0%nat) by (destruct s; [contradiction|discriminate]).
  destruct (Nat.eqb_spec (length s) 0) as [E|_]; [contradiction|]. simpl.
  set (sims := map (fun c => 1 - c)
                   (map2 (entry (cost_matrix s l)) (fst (lsa (cost_matrix s l)))
                         (snd (lsa (cost_matrix s l))))).
  assert (Hlen : length sims = Nat.min (length s) (length l)).
  { unfold sims. rewrite length_map. apply length_map2_eq; assumption. }
  exists (mean sims), (INR (count_above (9 / 10) sims) / INR (length s) * 100), sims.
  split; [reflexivity|]. split; [exact Hlen|]. split.
  - unfold sims. apply Forall_map.
    apply (map2_Forall _ _ (fun i => (i < length s)%nat) (fun j => (j < length l)%nat));
      [|exact Hr|exact Hc].
    intros i j Hi Hj. rewrite entry_cost_matrix by assumption.
    pose proof (cosine_bounds (nth i s []) (nth j l [])). lra.
  - pose proof (count_above_le (9 / 10) sims) as Hc'.
    assert (Hle : (count_above (9 / 10) sims <= length s)%nat) by lia.
    apply le_INR in Hle. pose proof (pos_INR (count_above (9 / 10) sims)).
    assert (Hpos : 0 < INR (length s)) by (apply lt_0_INR; lia).
    split.
    + apply Rmult_le_pos; [|lra]. apply Rmult_le_pos; [assumption|].
      left. apply Rinv_0_lt_compat. exact Hpos.
    + apply (Rmult_le_reg_r (INR (length s))); [exact Hpos|].
      unfold Rdiv. field_simplify; [|lra]. lra.
Qed.

Lemma compare_ranges_witness :
  exists av above sims,
    compare identity_assignment axes axes (9 / 10) = Ok (av, above, sims)
    /\ length sims = Nat.min (length axes) (length axes)
    /\ Forall (fun x => -1 <= x <= 1) sims
    /\ 0 <= above <= 100.
Proof.
  apply (compare_ranges identity_assignment axes axes (9 / 10)).
  - discriminate.
  - exact (identity_is_assignment axes).
Defined.

(** An empty smaller dictionary: under the solver's contract the
    comparison ends in [ZeroDivisionError]. *)
Theorem compare_empty (lsa : mat -> list nat * list nat) (l : mat) (t : R) :
  is_assignment 0 (length l) (lsa (cost_matrix [] l)) ->
  compare lsa [] l t = Raise ZeroDivisionError.
Proof.
  intros (Hlr & Hlc & _). rewrite compare_unfold.
  simpl in Hlr, Hlc.
  destruct (lsa (cost_matrix [] l)) as [r c]. simpl in *.
  apply length_zero_iff_nil in Hlr, Hlc. subst. reflexivity.
Qed.

Lemma compare_empty_witness :
  compare identity_assignment [] axes (9 / 10) = Raise ZeroDivisionError.
Proof.
  apply (compare_empty identity_assignment axes (9 / 10)).
  repeat split; simpl; constructor.
Defined.

End CompareEdgeFacts.


(** ** Positions in a grid *)

Module GridFacts.

Import ListFacts Config Grid.
Open Scope nat_scope.

Lemma index_lt {A} (eqb : A -> A -> bool) (x : A) (l : list A) :
  existsb (eqb x) l = true ->
  (forall y, eqb y x = eqb x y) ->
  index eqb x l < length l.
Proof.
  intros H Hsym. induction l as [|y l IH]; simpl in *; [discriminate|].
  rewrite Hsym. destruct (eqb x y); simpl in *; [lia|].
  apply IH in H. lia.
Qed.

Lemma Qeq_bool_symm (x y : Q) : Qeq_bool y x = Qeq_bool x y.
Proof.
  destruct (Qeq_bool x y) eqn:E.
  - apply Qeq_bool_iff. symmetry. apply Qeq_bool_iff. exact E.
  - destruct (Qeq_bool y x) eqn:E'; [|reflexivity].
    apply Qeq_bool_iff in E'. symmetry in E'. apply Qeq_bool_iff in E'.
    congruence.
Qed.

Lemma index_nth {A} (eqb : A -> A -> bool) (x : A) (l : list A) :
  existsb (eqb x) l = true ->
  (forall y, eqb y x = eqb x y) ->
  exists y, nth_error l (index eqb x l) = Some y /\ eqb y x = true.
Proof.
  intros H Hsym. induction l as [|y l IH]; simpl in *; [discriminate|].
  destruct (eqb y x) eqn:E.
  - exists y. split; [reflexivity | exact E].
  - rewrite <- Hsym, E in H. simpl in H. apply IH. exact H.
Qed.

Lemma set_entry_shape {A} (rows cols : nat) (grid : list (list A)) (r j : nat) (x : A) :
  grid_shape rows cols grid -> grid_shape rows cols (set_entry grid r j x).
Proof.
  intros [Hl Hr]. unfold set_entry, grid_shape. rewrite length_set_nth.
  split; [exact Hl|].
  destruct (Nat.lt_ge_cases r (length grid)) as [Hlt|Hge].
  - apply Forall_forall. intros row Hin.
    apply In_nth_error in Hin. destruct Hin as [i Hi].
    rewrite Forall_forall in Hr.
    destruct (Nat.eq_dec r i) as [<-|Hne].
    + rewrite nth_error_set_nth_eq in Hi by exact Hlt.
      injection Hi as <-. rewrite length_set_nth.
      apply Hr, nth_In, Hlt.
    + rewrite nth_error_set_nth_ne in Hi by exact Hne.
      apply Hr. eapply nth_error_In. exact Hi.
  - rewrite set_nth_beyond by exact Hge. exact Hr.
Qed.

Lemma lookup2_in_shape {A} (rows cols : nat) (grid : list (list A)) (r j : nat) :
  grid_shape rows cols grid -> r < rows -> j < cols ->
  exists x, lookup2 grid r j = Some x.
Proof.
  intros [Hl Hr] Hlt Hj. unfold lookup2.
  destruct (nth_error grid r) as [row|] eqn:E.
  - rewrite Forall_forall in Hr.
    assert (Hrow : length row = cols) by (apply Hr; eapply nth_error_In; exact E).
    destruct (nth_error row j) as [x|] eqn:Ej; [eauto|].
    apply nth_error_None in Ej. lia.
  - apply nth_error_None in E. lia.
Qed.

End GridFacts.

(** ** Loading checkpoints *)

Module CheckpointFacts.

Import ListFacts Config Grid GridFacts.
Open Scope nat_scope.

Section Loading.

Variable AE : Type.
Variable activation_size : AE -> nat.
Variable l1_coef : AE -> Q.
Variable dict_size : AE -> nat.

(** A checkpoint that matches the configuration lands in its slot: with
    the configured activation size, an L1 coefficient of the sweep and a
    dictionary size of the sweep, the loaded autoencoder replaces the one
    in the row of its coefficient and the column of its size, every other
    slot and the shape of the grid are kept, and one line is printed. *)
Theorem load_one_places (activation_dim : nat) (l1_range : list Q)
    (dict_sizes : list nat) (auto_encoders : list (list AE))
    (out : list message) (ae : AE) :
  grid_shape (length l1_range) (length dict_sizes) auto_encoders ->
  activation_size ae = activation_dim ->
  existsb (Qeq_bool (l1_coef ae)) l1_range = true ->
  existsb (Nat.eqb (dict_size ae)) dict_sizes = true ->
  let r := index Qeq_bool (l1_coef ae) l1_range in
  let j := index Nat.eqb (dict_size ae) dict_sizes in
  let st := load_one AE activation_size l1_coef dict_size activation_dim
                     l1_range dict_sizes (auto_encoders, out) ae in
  (exists l1, nth_error l1_range r = Some l1 /\ (l1 == l1_coef ae)%Q)
  /\ nth_error dict_sizes j = Some (dict_size ae)
  /\ lookup2 (fst st) r j = Some ae
  /\ (forall r' j', (r, j) <> (r', j') ->
        lookup2 (fst st) r' j' = lookup2 auto_encoders r' j')
  /\ grid_shape (length l1_range) (length dict_sizes) (fst st)
  /\ snd st = (out ++ [Loading (l1_coef ae) (dict_size ae)])%list.
Proof.
  intros Hshape Hact Hl1 Hds r j st.
  assert (Est : st = (set_entry auto_encoders r j ae,
                      (out ++ [Loading (l1_coef ae) (dict_size ae)])%list)).
  { unfold st, load_one. rewrite Hact, Nat.eqb_refl. simpl.
    rewrite Hl1, Hds. reflexivity. }
  rewrite Est. simpl.
  assert (Hr : r < length l1_range).
  { apply index_lt; [exact Hl1 | intros y; apply Qeq_bool_symm]. }
  assert (Hj : j < length dict_sizes).
  { apply index_lt; [exact Hds | intros y; apply Nat.eqb_sym]. }
  destruct (lookup2_in_shape _ _ auto_encoders r j Hshape Hr Hj) as [old Hold].
  split; [|split; [|split; [|split; [|split]]]].
  - destruct (index_nth Qeq_bool (l1_coef ae) l1_range Hl1
                (fun y => Qeq_bool_symm (l1_coef ae) y)) as [l1 [Hn Hq]].
    exists l1. split; [exact Hn | apply Qeq_bool_iff; exact Hq].
  - destruct (index_nth Nat.eqb (dict_size ae) dict_sizes Hds
                (fun y => Nat.eqb_sym y (dict_size ae))) as [d [Hn Hd]].
    apply Nat.eqb_eq in Hd. subst d. exact Hn.
  - eapply lookup2_set_entry_eq. exact Hold.
  - intros r' j' Hne. apply lookup2_set_entry_ne. exact Hne.
  - apply set_entry_shape. exact Hshape.
  - reflexivity.
Qed.

Lemma load_one_message (activation_dim : nat) (l1_range : list Q)
    (dict_sizes : list nat) (st : state AE) (ae : AE) (rows cols : nat) :
  grid_shape rows cols (fst st) ->
  let st' := load_one AE activation_size l1_coef dict_size activation_dim
                      l1_range dict_sizes st ae in
  grid_shape rows cols (fst st') /\ length (snd st') = S (length (snd st)).
Proof.
  destruct st as [grid out]. simpl. intros Hshape. unfold load_one.
  destruct (negb (Nat.eqb (activation_size ae) activation_dim)); simpl.
  - split; [exact Hshape|]. rewrite length_app. simpl. lia.
  - destruct (existsb (Qeq_bool (l1_coef ae)) l1_range
              && existsb (Nat.eqb (dict_size ae)) dict_sizes); simpl.
    + split; [apply set_entry_shape; exact Hshape|].
      rewrite length_app. simpl. lia.
    + split; [exact Hshape|]. rewrite length_app. simpl. lia.
Qed.

Lemma load_list (activation_dim : nat) (l1_range : list Q)
    (dict_sizes : list nat) (l : list AE) (st : state AE) (rows cols : nat) :
  grid_shape rows cols (fst st) ->
  let st' := fold_left (load_one AE activation_size l1_coef dict_size
                          activation_dim l1_range dict_sizes) l st in
  grid_shape rows cols (fst st')
  /\ length (snd st') = length (snd st) + length l.
Proof.
  revert st. induction l as [|ae l IH]; intros st Hshape; simpl.
  - split; [exact Hshape | lia].
  - destruct (load_one_message activation_dim l1_range dict_sizes st ae rows cols
                Hshape) as [Hs Hl].
    destruct (IH _ Hs) as [Hs' Hl']. split; [exact Hs'|].
    simpl in Hl'. rewrite Hl', Hl. lia.
Qed.

(** Loading never changes the shape of the grid of autoencoders, and it
    prints exactly one line per loaded autoencoder. *)
Theorem load_autoencoders_accounts (activation_dim : nat) (l1_range : list Q)
    (dict_sizes : list nat) (auto_encoders loaded : list (list AE))
    (rows cols : nat) :
  grid_shape rows cols auto_encoders ->
  let st := load_autoencoders AE activation_size l1_coef dict_size activation_dim
              l1_range dict_sizes auto_encoders loaded in
  grid_shape rows cols (fst st)
  /\ length (snd st) = length (concat loaded).
Proof.
  intros Hshape. unfold load_autoencoders.
  assert (H : forall st : state AE,
             grid_shape rows cols (fst st) ->
             let st' := fold_left
               (fun st autoencoder_list =>
                  fold_left (load_one AE activation_size l1_coef dict_size
                               activation_dim l1_range dict_sizes)
                            autoencoder_list st) loaded st in
             grid_shape rows cols (fst st')
             /\ length (snd st') = length (snd st) + length (concat loaded)).
  { induction loaded as [|l loaded IH]; intros st Hs; simpl.
    - split; [exact Hs | lia].
    - destruct (load_list activation_dim l1_range dict_sizes l st rows cols Hs)
        as [Hs1 Hl1].
      destruct (IH _ Hs1) as [Hs2 Hl2]. split; [exact Hs2|].
      simpl in Hl2. rewrite Hl2, Hl1, length_app. lia. }
  destruct (H (auto_encoders, []) Hshape) as [Hs Hl].
  split; [exact Hs | exact Hl].
Qed.

End Loading.

Lemma load_one_places_witness :
  let r := index Qeq_bool (ck_l1_coef fresh) [1 # 1000] in
  let j := index Nat.eqb (ck_dict_size fresh) [1024] in
  let st := load_one checkpoint ck_activation_size ck_l1_coef ck_dict_size 512
                     [1 # 1000] [1024] ([[stale]], []) fresh in
  (exists l1, nth_error [1 # 1000] r = Some l1 /\ (l1 == ck_l1_coef fresh)%Q)
  /\ nth_error [1024] j = Some (ck_dict_size fresh)
  /\ lookup2 (fst st) r j = Some fresh
  /\ (forall r' j', (r, j) <> (r', j') ->
        lookup2 (fst st) r' j' = lookup2 [[stale]] r' j')
  /\ grid_shape (length [1 # 1000]) (length [1024]) (fst st)
  /\ snd st = ([] ++ [Loading (ck_l1_coef fresh) (ck_dict_size fresh)])%list.
Proof.
  apply (load_one_places checkpoint ck_activation_size ck_l1_coef ck_dict_size
           512 [1 # 1000] [1024] [[stale]] [] fresh).
  - split; [reflexivity | repeat constructor].
  - reflexivity.
  - reflexivity.
  - reflexivity.
Defined.

Lemma load_autoencoders_accounts_witness :
  let st := load_autoencoders checkpoint ck_activation_size ck_l1_coef
              ck_dict_size 512 [1 # 1000] [1024] [[fresh]] [[stale; fresh]; [stale]] in
  grid_shape 1 1 (fst st)
  /\ length (snd st) = length (concat [[stale; fresh]; [stale]]).
Proof.
  apply (load_autoencoders_accounts checkpoint ck_activation_size ck_l1_coef
           ck_dict_size 512 [1 # 1000] [1024] [[fresh]]
           [[stale; fresh]; [stale]] 1 1).
  split; [reflexivity | repeat constructor].
Defined.

End CheckpointFacts.


(** ** The sweep of the toy model *)

Module ToyModelFacts.

Import ListFacts Config Grid GridFacts ToyModel.
Open Scope nat_scope.

Section Index.

Context {A : Type} (eqb : A -> A -> bool).
Hypothesis eqb_spec : forall x y, reflect (x = y) (eqb x y).

Lemma index_found (x : A) (l : list A) :
  In x l -> nth_error l (index eqb x l) = Some x.
Proof.
  induction l as [|y l IH]; simpl; [contradiction|].
  intros H. destruct (eqb_spec y x) as [->|Hne]; [reflexivity|].
  destruct H as [H|H]; [contradiction|]. apply IH. exact H.
Qed.

Lemma index_le (x : A) (l : list A) (i : nat) :
  nth_error l i = Some x -> index eqb x l <= i.
Proof.
  revert i. induction l as [|y l IH]; intros [|i] H; simpl in *;
    try discriminate.
  - injection H as ->. destruct (eqb_spec x x) as [_|Hne]; [lia|contradiction].
  - destruct (eqb_spec y x) as [_|_]; [lia|]. apply IH in H. lia.
Qed.

Lemma index_NoDup (x : A) (l : list A) (i : nat) :
  NoDup l -> nth_error l i = Some x -> index eqb x l = i.
Proof.
  intros Hnd Hi.
  assert (Hin : In x l) by (eapply nth_error_In; exact Hi).
  pose proof (index_found x l Hin) as Hf.
  assert (Hlt : i < length l) by (eapply nth_error_lt; exact Hi).
  rewrite NoDup_nth_error in Hnd. symmetry. apply Hnd; [exact Hlt|].
  rewrite Hi, Hf. reflexivity.
Qed.

End Index.

Section Sweep.

Variable L1 Ratio : Type.
Variable l1_eqb : L1 -> L1 -> bool.
Variable ratio_eqb : Ratio -> Ratio -> bool.
Variable generator : Type.
Variable AE num : Type.
Variable zero : num.
Variable run_single_go : generator -> L1 -> Ratio -> outcome AE num * generator.

Hypothesis l1_eqb_spec : forall x y, reflect (x = y) (l1_eqb x y).
Hypothesis ratio_eqb_spec : forall x y, reflect (x = y) (ratio_eqb x y).

Variable l1_range : list L1.
Variable learned_dict_ratios : list Ratio.

(** One run: the cell at its position is filled, every other cell is as
    it was. *)
Lemma sweep_step_cell (st : state L1 Ratio generator AE num) (p : L1 * Ratio)
    (r j : nat) :
  In (fst p) l1_range -> In (snd p) learned_dict_ratios ->
  inside (results st) r j ->
  let st' := sweep_step l1_eqb ratio_eqb run_single_go l1_range
                        learned_dict_ratios st p in
  let at_p := (index l1_eqb (fst p) l1_range,
               index ratio_eqb (snd p) learned_dict_ratios) in
  (at_p = (r, j)
   /\ filled run_single_go l1_range learned_dict_ratios (results st') r j)
  \/ (at_p <> (r, j)
      /\ lookup2 (mmcs_matrix (results st')) r j
         = lookup2 (mmcs_matrix (results st)) r j
      /\ lookup2 (dead_features_matrix (results st')) r j
         = lookup2 (dead_features_matrix (results st)) r j
      /\ lookup2 (recon_loss_matrix (results st')) r j
         = lookup2 (recon_loss_matrix (results st)) r j
      /\ lookup2 (auto_encoders (results st')) r j
         = lookup2 (auto_encoders (results st)) r j).
Proof.
  destruct p as [a d]. simpl. intros Ha Hd [[x1 H1] [[x2 H2] [[x3 H3] [x4 H4]]]].
  unfold sweep_step.
  destruct (run_single_go (data_generator st) a d) as [out g] eqn:E. simpl.
  set (r0 := index l1_eqb a l1_range).
  set (j0 := index ratio_eqb d learned_dict_ratios).
  assert (Dec : {(r0, j0) = (r, j)} + {(r0, j0) <> (r, j)}).
  { decide equality; apply Nat.eq_dec. }
  destruct Dec as [Heq|Hne].
  - left. split; [exact Heq|]. injection Heq as Hr Hj.
    exists (data_generator st), a, d. rewrite E. simpl.
    split; [rewrite <- Hr; apply index_found; assumption|].
    split; [rewrite <- Hj; apply index_found; assumption|].
    rewrite Hr, Hj. unfold holds. simpl.
    rewrite (lookup2_set_entry_eq _ _ _ _ _ H1).
    rewrite (lookup2_set_entry_eq _ _ _ _ _ H2).
    rewrite (lookup2_set_entry_eq _ _ _ _ _ H3).
    rewrite (lookup2_set_entry_eq _ _ _ _ _ H4). repeat split.
  - right. split; [exact Hne|].
    rewrite !lookup2_set_entry_ne by exact Hne. repeat split.
Qed.

Lemma holds_inside (m : matrices AE num) (r j : nat) (out : outcome AE num) :
  holds m r j out -> inside m r j.
Proof.
  intros [H1 [H2 [H3 H4]]]. unfold inside. eauto 10.
Qed.

Lemma blank_inside (m : matrices AE num) (r j : nat) :
  blank zero m r j -> inside m r j.
Proof.
  intros [H1 [H2 [H3 H4]]]. unfold inside. eauto 10.
Qed.

Lemma filled_inside (m : matrices AE num) (r j : nat) :
  filled run_single_go l1_range learned_dict_ratios m r j -> inside m r j.
Proof.
  intros [g [a [d [_ [_ H]]]]]. eapply holds_inside. exact H.
Qed.

Lemma inside_kept (ps : list (L1 * Ratio)) (st : state L1 Ratio generator AE num)
    (r j : nat) :
  Forall (fun p => In (fst p) l1_range /\ In (snd p) learned_dict_ratios) ps ->
  inside (results st) r j ->
  inside (results (fold_left
      (sweep_step l1_eqb ratio_eqb run_single_go l1_range learned_dict_ratios)
      ps st)) r j.
Proof.
  revert st. induction ps as [|p ps IH]; intros st Hps Hin; simpl; [exact Hin|].
  inversion Hps as [|? ? [Ha Hd] Hps']; subst. apply IH; [exact Hps'|].
  destruct (sweep_step_cell st p r j Ha Hd Hin) as [[_ Hf]|[_ [E1 [E2 [E3 E4]]]]].
  - eapply filled_inside. exact Hf.
  - unfold inside. rewrite E1, E2, E3, E4. exact Hin.
Qed.

Lemma filled_kept (ps : list (L1 * Ratio)) (st : state L1 Ratio generator AE num)
    (r j : nat) :
  Forall (fun p => In (fst p) l1_range /\ In (snd p) learned_dict_ratios) ps ->
  filled run_single_go l1_range learned_dict_ratios (results st) r j ->
  filled run_single_go l1_range learned_dict_ratios
         (results (fold_left
      (sweep_step l1_eqb ratio_eqb run_single_go l1_range learned_dict_ratios)
      ps st)) r j.
Proof.
  revert st. induction ps as [|p ps IH]; intros st Hps Hf; simpl; [exact Hf|].
  inversion Hps as [|? ? [Ha Hd] Hps']; subst. apply IH; [exact Hps'|].
  destruct (sweep_step_cell st p r j Ha Hd (filled_inside _ _ _ Hf))
    as [[_ Hf']|[_ [E1 [E2 [E3 E4]]]]]; [exact Hf'|].
  destruct Hf as [g [a [d [Hna [Hnd H]]]]]. exists g, a, d.
  split; [exact Hna|]. split; [exact Hnd|].
  unfold holds. rewrite E1, E2, E3, E4. exact H.
Qed.

Lemma blank_kept (ps : list (L1 * Ratio)) (st : state L1 Ratio generator AE num)
    (r j : nat) :
  Forall (fun p => (index l1_eqb (fst p) l1_range,
                    index ratio_eqb (snd p) learned_dict_ratios) <> (r, j)) ps ->
  blank zero (results st) r j ->
  blank zero (results (fold_left
      (sweep_step l1_eqb ratio_eqb run_single_go l1_range learned_dict_ratios)
      ps st)) r j.
Proof.
  revert st. induction ps as [|p ps IH]; intros st Hps Hb; simpl; [exact Hb|].
  inversion Hps as [|? ? Hne Hps']; subst. apply IH; [exact Hps'|].
  destruct p as [a d]. simpl in Hne. unfold sweep_step.
  destruct (run_single_go (data_generator st) a d) as [out g]. simpl.
  unfold blank. simpl. rewrite !lookup2_set_entry_ne by exact Hne. exact Hb.
Qed.

Lemma empty_blank (r j : nat) :
  r < length l1_range -> j < length learned_dict_ratios ->
  blank zero (empty_matrices L1 Ratio AE num zero l1_range learned_dict_ratios) r j.
Proof.
  intros Hr Hj. unfold blank, empty_matrices, lookup2. simpl.
  rewrite !(nth_error_repeat_lt _ _ r Hr).
  rewrite !(nth_error_repeat_lt _ _ j Hj). repeat split.
Qed.

Lemma product_in :
  Forall (fun p => In (fst p) l1_range /\ In (snd p) learned_dict_ratios)
         (list_prod l1_range learned_dict_ratios).
Proof.
  apply Forall_forall. intros [a d] H. apply in_prod_iff in H. exact H.
Qed.

(** When no coefficient and no ratio is repeated, the sweep fills the
    whole grid: the cell in row [r] and column [j] of the four arrays holds
    what [run_single_go] returned for the [r]-th coefficient and the [j]-th
    ratio. *)
Theorem sweep_fills_grid (g : generator) (r j : nat) (l1_alpha : L1)
    (learned_dict_ratio : Ratio) :
  NoDup l1_range -> NoDup learned_dict_ratios ->
  nth_error l1_range r = Some l1_alpha ->
  nth_error learned_dict_ratios j = Some learned_dict_ratio ->
  exists g',
    holds (results (sweep l1_eqb ratio_eqb zero run_single_go
                          l1_range learned_dict_ratios g))
          r j (fst (run_single_go g' l1_alpha learned_dict_ratio)).
Proof.
  intros Hn1 Hn2 Hr Hj.
  assert (Hin : In (l1_alpha, learned_dict_ratio)
                   (list_prod l1_range learned_dict_ratios)).
  { apply in_prod; eapply nth_error_In; eassumption. }
  destruct (in_split _ _ Hin) as [ps1 [ps2 Hsplit]].
  pose proof product_in as Hall. rewrite Hsplit in Hall.
  apply Forall_app in Hall. destruct Hall as [Hall1 Hall2].
  inversion Hall2 as [|? ? [Ha Hd] Hall3]; subst.
  simpl in Ha, Hd.
  unfold sweep. rewrite Hsplit, fold_left_app. simpl.
  set (st0 := {| results := empty_matrices L1 Ratio AE num zero l1_range
                              learned_dict_ratios;
                 data_generator := g; printed := [] |}).
  set (st1 := fold_left
      (sweep_step l1_eqb ratio_eqb run_single_go l1_range learned_dict_ratios)
      ps1 st0).
  assert (Hin1 : inside (results st1) r j).
  { apply inside_kept; [exact Hall1|]. apply (blank_inside _ r j).
    apply empty_blank; eapply nth_error_lt; eassumption. }
  destruct (sweep_step_cell st1 (l1_alpha, learned_dict_ratio) r j Ha Hd Hin1)
    as [[_ Hf]|[Hne _]].
  - pose proof (filled_kept ps2 _ r j Hall3 Hf) as [g' [a [d [Hna [Hnd H]]]]].
    exists g'.
    assert (a = l1_alpha) by congruence.
    assert (d = learned_dict_ratio) by congruence. subst. exact H.
  - exfalso. apply Hne. simpl.
    rewrite (index_NoDup l1_eqb l1_eqb_spec _ _ _ Hn1 Hr).
    rewrite (index_NoDup ratio_eqb ratio_eqb_spec _ _ _ Hn2 Hj). reflexivity.
Qed.

(** A repeated value leaves cells unwritten: where the coefficient of the
    row or the ratio of the column has occurred earlier in its list, the
    cell keeps its initial zeros and [None]. *)
Theorem sweep_repeated_value_blank (g : generator) (r j : nat) (l1_alpha : L1)
    (learned_dict_ratio : Ratio) :
  nth_error l1_range r = Some l1_alpha ->
  nth_error learned_dict_ratios j = Some learned_dict_ratio ->
  (exists r', r' < r /\ nth_error l1_range r' = Some l1_alpha)
  \/ (exists j', j' < j /\ nth_error learned_dict_ratios j' = Some learned_dict_ratio) ->
  blank zero (results (sweep l1_eqb ratio_eqb zero run_single_go
                             l1_range learned_dict_ratios g)) r j.
Proof.
  intros Hr Hj Hrep. unfold sweep. apply blank_kept.
  - apply Forall_forall. intros [a d] Hin. apply in_prod_iff in Hin.
    destruct Hin as [Ha Hd]. simpl. intros Heq. injection Heq as Er Ej.
    pose proof (index_found l1_eqb l1_eqb_spec a l1_range Ha) as Hfa.
    pose proof (index_found ratio_eqb ratio_eqb_spec d learned_dict_ratios Hd)
      as Hfd.
    rewrite Er in Hfa. rewrite Ej in Hfd.
    assert (a = l1_alpha) by congruence.
    assert (d = learned_dict_ratio) by congruence. subst a d.
    destruct Hrep as [[r' [Hlt Hr']]|[j' [Hlt Hj']]].
    + pose proof (index_le l1_eqb l1_eqb_spec _ _ _ Hr'). lia.
    + pose proof (index_le ratio_eqb ratio_eqb_spec _ _ _ Hj'). lia.
  - apply empty_blank; eapply nth_error_lt; eassumption.
Qed.

End Sweep.

Lemma sweep_fills_grid_witness :
  exists g',
    holds (results (sweep Nat.eqb Nat.eqb 0 echo [1; 2] [4; 8] 0))
          1 0 (fst (echo g' 2 4)).
Proof.
  apply (sweep_fills_grid nat nat Nat.eqb Nat.eqb nat nat nat 0 echo
           Nat.eqb_spec Nat.eqb_spec [1; 2] [4; 8] 0 1 0 2 4).
  - repeat constructor; simpl; intuition discriminate.
  - repeat constructor; simpl; intuition discriminate.
  - reflexivity.
  - reflexivity.
Defined.

Lemma sweep_repeated_value_blank_witness :
  blank 0 (results (sweep Nat.eqb Nat.eqb 0 echo [1; 2] [4; 4] 0)) 1 1.
Proof.
  apply (sweep_repeated_value_blank nat nat Nat.eqb Nat.eqb nat nat nat 0 echo
           Nat.eqb_spec Nat.eqb_spec [1; 2] [4; 4] 0 1 1 2 4).
  - reflexivity.
  - reflexivity.
  - right. exists 0. split; [lia | reflexivity].
Defined.

End ToyModelFacts.


(** ** The reconstruction is bounded by its code *)

Module ForwardFacts.

Import Tensor TensorFacts LearnedDict LearnedDictFacts ModelFacts Forward.
Open Scope R_scope.

Lemma norm2_le (a b : vec) : dot a a <= dot b b -> norm2 a <= norm2 b.
Proof. intros H. unfold norm2. apply sqrt_le_1_alt. exact H. Qed.

Lemma dot_vadd (a b : vec) :
  dot (vadd a b) (vadd a b) <= dot a a + dot b b + 2 * dot a b.
Proof.
  unfold vadd. revert b. induction a as [|x a IH]; intros [|y b]; simpl.
  - lra.
  - pose proof (dot_self_nonneg (y :: b)) as H. simpl in H. lra.
  - pose proof (dot_self_nonneg (x :: a)) as H. simpl in H. lra.
  - specialize (IH b). lra.
Qed.

(** The triangle inequality, on the common prefix of two vectors. *)
Lemma norm2_triangle (a b : vec) : norm2 (vadd a b) <= norm2 a + norm2 b.
Proof.
  pose proof (dot_vadd a b) as H.
  pose proof (proj2 (FeaturesFacts.dot_le_norms a b)) as Hc.
  pose proof (norm2_nonneg a) as Ha. pose proof (norm2_nonneg b) as Hb.
  rewrite <- (norm2_sqr a), <- (norm2_sqr b) in H.
  unfold norm2 at 1.
  rewrite <- (sqrt_square (norm2 a + norm2 b)) by lra.
  apply sqrt_le_1_alt. nra.
Qed.

Lemma norm2_times (v : vec) (c : R) :
  0 <= c -> norm2 (map (fun x => x * c) v) = c * norm2 v.
Proof.
  intros Hc. unfold norm2.
  assert (H : dot (map (fun x => x * c) v) (map (fun x => x * c) v)
              = c * c * dot v v).
  { induction v as [|x v IH]; simpl; [ring|]. rewrite IH. ring. }
  rewrite H, sqrt_mult by (try apply dot_self_nonneg; nra).
  rewrite sqrt_square by exact Hc. reflexivity.
Qed.

(** The first [d] entries of a row, with zeros after its end. *)
Lemma resized_row (x : R) (row : vec) (d : nat) :
  map (fun k => nth k (x :: row) 0) (seq 0 (S d))
  = x :: map (fun k => nth k row 0) (seq 0 d).
Proof.
  simpl. f_equal. rewrite <- seq_shift, map_map. reflexivity.
Qed.

Lemma resized_dot (row : vec) (d : nat) :
  dot (map (fun k => nth k row 0) (seq 0 d)) (map (fun k => nth k row 0) (seq 0 d))
  <= dot row row.
Proof.
  revert row. induction d as [|d IH]; intros row.
  - simpl. apply dot_self_nonneg.
  - destruct row as [|x row].
    + assert (H : forall n s, dot (map (fun k => nth k ([] : vec) 0) (seq s n))
                                  (map (fun k => nth k ([] : vec) 0) (seq s n)) = 0).
      { induction n as [|n IHn]; intros s; simpl; [reflexivity|].
        rewrite IHn. destruct s; ring. }
      rewrite H. simpl. lra.
    + rewrite resized_row. simpl. specialize (IH row). lra.
Qed.

Lemma zeros_norm (f : nat -> R) (l : list nat) :
  (forall k, f k = 0) -> norm2 (map f l) = 0.
Proof.
  intros Hf. unfold norm2.
  assert (H : dot (map f l) (map f l) = 0).
  { induction l as [|k l IH]; simpl; [reflexivity|]. rewrite IH, Hf. ring. }
  rewrite H. apply sqrt_0.
Qed.

Lemma dot_nil_r (a : vec) : dot a [] = 0.
Proof. destruct a; reflexivity. Qed.

(** A non-negative combination of rows of norm at most one is no longer
    than the sum of its coefficients. *)
Lemma combination_bound (d : nat) (learned_dict : mat) (code : vec) :
  Forall (fun row => norm2 row <= 1) learned_dict ->
  Forall (fun x => 0 <= x) code ->
  norm2 (map (fun k => dot (column k learned_dict) code) (seq 0 d)) <= vsum code.
Proof.
  intros Hd. revert code.
  induction Hd as [|row w Hrow Hw IH]; intros code Hc.
  - rewrite zeros_norm by reflexivity. apply CompareFacts.vsum_nonneg. exact Hc.
  - destruct Hc as [|c code Hc0 Hc].
    + rewrite zeros_norm by (intros k; apply dot_nil_r). simpl. lra.
    + assert (E : map (fun k => dot (column k (row :: w)) (c :: code)) (seq 0 d)
                  = vadd (map (fun x => x * c)
                              (map (fun k => nth k row 0) (seq 0 d)))
                         (map (fun k => dot (column k w) code) (seq 0 d))).
      { unfold vadd. rewrite map_map. clear.
        induction (seq 0 d) as [|k l IHl]; simpl; [reflexivity|].
        f_equal. exact IHl. }
      rewrite E. eapply Rle_trans; [apply norm2_triangle|].
      rewrite norm2_times by exact Hc0.
      specialize (IH code Hc).
      pose proof (norm2_le _ _ (resized_dot row d)) as Hr.
      pose proof (norm2_nonneg (map (fun k => nth k row 0) (seq 0 d))) as Hn.
      simpl. nra.
Qed.

Lemma normalized_row_le_one (row : vec) :
  norm2 (map (fun x => x / clamp_min (norm2 row) eps) row) <= 1.
Proof.
  pose proof (clamped_norm_pos row) as Hp.
  rewrite norm2_scaled by exact Hp.
  pose proof (norm2_nonneg row) as Hn.
  assert (Hle : norm2 row <= clamp_min (norm2 row) eps) by apply Rmax_l.
  apply Rmult_le_reg_r with (clamp_min (norm2 row) eps); [exact Hp|].
  unfold Rdiv. rewrite Rmult_assoc, Rinv_l by lra. lra.
Qed.

Lemma normalize_rows_le_one (w m : mat) :
  normalize_rows w = Some m -> Forall (fun row => norm2 row <= 1) m.
Proof.
  rewrite normalize_rows_some. intros [= <-].
  apply Forall_map, Forall_forall. intros row _. apply normalized_row_le_one.
Qed.

Lemma einsum_bound (d : nat) (learned_dict c : mat) :
  Forall (fun row => norm2 row <= 1) learned_dict ->
  Forall (Forall (fun x => 0 <= x)) c ->
  Forall2 (fun x code => norm2 x <= vsum code)
          (einsum_nd_bn_bd d learned_dict c) c.
Proof.
  intros Hd Hc. unfold einsum_nd_bn_bd, matmul_T, transpose.
  induction Hc as [|code c Hcode Hc IH]; simpl; constructor.
  - rewrite map_map. apply combination_bound; assumption.
  - exact IH.
Qed.

(** The reconstruction of either model is no longer than its code: for
    every sample, the L2 norm of the row of [x_hat] is at most the sum of
    the entries of its code, none of which is negative; [forward] always
    returns, and leaves the model as it is. *)
Theorem forward_norm_bound (d : nat) (batch : mat) :
  (forall self : UntiedSAE.t,
     exists c x_hat,
       encode self batch = (Some c, self)
       /\ forward d self batch = (Some x_hat, self)
       /\ Forall (Forall (fun x => 0 <= x)) c
       /\ Forall2 (fun x code => norm2 x <= vsum code) x_hat c)
  /\ (forall self : TiedSAE.t,
        exists c x_hat,
          encode self batch = (Some c, self)
          /\ forward d self batch = (Some x_hat, self)
          /\ Forall (Forall (fun x => 0 <= x)) c
          /\ Forall2 (fun x code => norm2 x <= vsum code) x_hat c).
Proof.
  split; intros self.
  - destruct (normalize_rows (UntiedSAE.decoder self)) as [m|] eqn:E.
    2: { rewrite normalize_rows_some in E. discriminate. }
    exists (affine_relu (UntiedSAE.encoder self) (UntiedSAE.encoder_bias self) batch),
           (einsum_nd_bn_bd d m
              (affine_relu (UntiedSAE.encoder self) (UntiedSAE.encoder_bias self)
                           batch)).
    split; [reflexivity|]. split.
    + unfold forward. simpl. rewrite E. reflexivity.
    + split; [apply affine_relu_nonneg|].
      apply einsum_bound; [eapply normalize_rows_le_one; exact E|].
      apply affine_relu_nonneg.
  - destruct (normalize_rows (TiedSAE.encoder self)) as [m|] eqn:E.
    2: { rewrite normalize_rows_some in E. discriminate. }
    set (e := if TiedSAE.norm_encoder self then m else TiedSAE.encoder self).
    exists (affine_relu e (TiedSAE.encoder_bias self) batch),
           (einsum_nd_bn_bd d m (affine_relu e (TiedSAE.encoder_bias self) batch)).
    assert (Henc : encode self batch
                   = (Some (affine_relu e (TiedSAE.encoder_bias self) batch), self)).
    { simpl. unfold TiedSAE.encode, e.
      destruct (TiedSAE.norm_encoder self); [rewrite E|]; reflexivity. }
    split; [exact Henc|]. split.
    + unfold forward. rewrite Henc. simpl. rewrite E. reflexivity.
    + split; [apply affine_relu_nonneg|].
      apply einsum_bound; [eapply normalize_rows_le_one; exact E|].
      apply affine_relu_nonneg.
Qed.

End ForwardFacts.


(** ** Chunks of activations *)

Module ActivationsFacts.

Import Activations.
Open Scope nat_scope.

#[local] Arguments Z.eqb : simpl never.
#[local] Arguments Z.ltb : simpl never.
#[local] Arguments Z.of_nat : simpl never.

Section Chunks.

Variable batch row : Type.
Variable mlp_activation_data : batch -> list row.
Variable max_chunks : nat.
Variable n_chunks : Z.
Variable activation_size : nat.

Lemma save_nonempty (ds : list (list row)) (x : list row) (n : nat)
    (fs : list (nat * list row)) :
  save_activation_chunk row (ds ++ [x]) n fs = Some (fs ++ [(n, concat (ds ++ [x]))]).
Proof.
  unfold save_activation_chunk. destruct (ds ++ [x]) eqn:E; [|reflexivity].
  destruct ds; discriminate.
Qed.

(** Fewer batches than fill a chunk: nothing is saved. *)
Lemma loop_short (l : list batch) (idx : nat) (st : state row) :
  length (dataset st) + length l < max_chunks ->
  exists st',
    loop mlp_activation_data max_chunks n_chunks activation_size idx l st = Return st'
    /\ dataset st' = dataset st ++ map mlp_activation_data l
    /\ n_saved_chunks st' = n_saved_chunks st
    /\ files st' = files st.
Proof.
  revert idx st. induction l as [|b l IH]; intros idx st Hlen; simpl.
  - exists st. rewrite app_nil_r. repeat split.
  - simpl in Hlen.
    destruct (Nat.leb_spec max_chunks (length (dataset st ++ [mlp_activation_data b])))
      as [Hle|Hgt].
    + rewrite length_app in Hle. simpl in Hle. lia.
    + match goal with |- context [loop _ _ _ _ _ l ?s] => set (st1 := s) end.
      destruct (IH (S idx) st1) as [st' [Hl [Hd [Hn Hf]]]].
      { unfold st1. simpl. rewrite length_app. simpl. lia. }
      exists st'. split; [exact Hl|]. unfold st1 in Hd, Hn, Hf. simpl in Hd, Hn, Hf.
      rewrite Hd, <- app_assoc. repeat split; assumption.
Qed.

(** The batches that fill a chunk: the chunk is saved under the next
    number, and the loop stops if that was the last chunk asked for. *)
Lemma loop_block (block rest : list batch) (idx : nat) (st : state row) :
  block <> [] ->
  length (dataset st) + length block = Nat.max max_chunks 1 ->
  exists st',
    dataset st' = []
    /\ n_saved_chunks st' = S (n_saved_chunks st)
    /\ files st' = files st
                   ++ [(n_saved_chunks st,
                        concat (dataset st ++ map mlp_activation_data block))]
    /\ loop mlp_activation_data max_chunks n_chunks activation_size idx
            (block ++ rest) st
       = if (Z.of_nat (S (n_saved_chunks st)) =? n_chunks)%Z then Return st'
         else loop mlp_activation_data max_chunks n_chunks activation_size
                   (idx + length block) rest st'.
Proof.
  revert idx st. induction block as [|b block IH]; intros idx st Hne Hlen;
    [contradiction|].
  simpl in Hlen. simpl.
  destruct block as [|b2 block].
  - simpl in *.
    destruct (Nat.leb_spec max_chunks (length (dataset st ++ [mlp_activation_data b])))
      as [Hle|Hgt].
    2: { rewrite length_app in Hgt. simpl in Hgt. lia. }
    rewrite save_nonempty.
    eexists. split; [|split; [|split]].
    4: { rewrite Nat.add_1_r. reflexivity. }
    all: reflexivity.
  - destruct (Nat.leb_spec max_chunks (length (dataset st ++ [mlp_activation_data b])))
      as [Hle|Hgt].
    { rewrite length_app in Hle. simpl in Hle, Hlen. lia. }
    match goal with |- context [loop _ _ _ _ _ _ ?s] => set (st1 := s) end.
    destruct (IH (S idx) st1) as [st' [Hd [Hn [Hf Hl]]]].
    { discriminate. }
    { unfold st1. simpl. rewrite length_app. simpl in *. lia. }
    exists st'. unfold st1 in Hn, Hf, Hl.
    cbn [n_saved_chunks files dataset] in Hn, Hf, Hl.
    split; [exact Hd|]. split; [exact Hn|]. split.
    + rewrite Hf, <- app_assoc. reflexivity.
    + change (loop mlp_activation_data max_chunks n_chunks activation_size (S idx)
                   ((b2 :: block) ++ rest)
                   {| dataset := dataset st ++ [mlp_activation_data b];
                      n_saved_chunks := n_saved_chunks st;
                      batch_idx := idx;
                      files := files st;
                      printed := printed st |}
              = if (Z.of_nat (S (n_saved_chunks st)) =? n_chunks)%Z
                then Return st'
                else loop mlp_activation_data max_chunks n_chunks activation_size
                          (idx + length (b :: b2 :: block)) rest st').
      rewrite Hl. destruct (Z.of_nat (S (n_saved_chunks st)) =? n_chunks)%Z;
        [reflexivity|].
      f_equal. simpl. lia.
Qed.

Lemma chunk_positive : 0 < Nat.max max_chunks 1.
Proof. lia. Qed.

(** From an empty [dataset], before the last chunk asked for: either the
    loop breaks at that chunk, or it saves every full chunk and is left
    with the batches of an unfinished one. *)
Lemma loop_outcome (n : nat) (l : list batch) (idx : nat) (st : state row) :
  length l <= n ->
  dataset st = [] ->
  (Z.of_nat (n_saved_chunks st) < n_chunks)%Z ->
  let m := Nat.max max_chunks 1 in
  exists st',
    loop mlp_activation_data max_chunks n_chunks activation_size idx l st = Return st'
    /\ ((Z.of_nat (n_saved_chunks st') = n_chunks
         /\ (n_chunks <= Z.of_nat (n_saved_chunks st + length l / m))%Z)
        \/ ((Z.of_nat (n_saved_chunks st') < n_chunks)%Z
            /\ n_saved_chunks st' = n_saved_chunks st + length l / m
            /\ (dataset st' = [] <-> length l mod m = 0))).
Proof.
  intros Hn Hd Hlt m. pose proof chunk_positive as Hm. fold m in Hm.
  revert l idx st Hn Hd Hlt. induction n as [|n IH]; intros l idx st Hn Hd Hlt.
  - destruct l; [|simpl in Hn; lia]. exists st. split; [reflexivity|]. right.
    simpl length. rewrite Nat.Div0.div_0_l, Nat.Div0.mod_0_l, Nat.add_0_r.
    split; [exact Hlt|]. split; [reflexivity|]. split; intros _; [reflexivity|exact Hd].
  - destruct (Nat.lt_ge_cases (length l) m) as [Hshort|Hlong].
    + destruct l as [|b l].
      * exists st. split; [reflexivity|]. right.
        simpl length. rewrite Nat.Div0.div_0_l, Nat.Div0.mod_0_l, Nat.add_0_r.
        split; [exact Hlt|]. split; [reflexivity|].
        split; intros _; [reflexivity|exact Hd].
      * destruct (loop_short (b :: l) idx st) as [st' [Hl [Hds [Hns Hfs]]]].
        { rewrite Hd. simpl in *. lia. }
        exists st'. split; [exact Hl|]. right.
        rewrite Nat.div_small, Nat.mod_small, Nat.add_0_r by exact Hshort.
        rewrite Hns. split; [exact Hlt|]. split; [reflexivity|].
        rewrite Hds, Hd. simpl. split; intros H; discriminate.
    + assert (Hsplit : l = firstn m l ++ skipn m l)
        by (symmetry; apply firstn_skipn).
      assert (Hfl : length (firstn m l) = m) by (rewrite length_firstn; lia).
      assert (Hsl : length l = length (skipn m l) + 1 * m).
      { rewrite length_skipn. lia. }
      destruct (loop_block (firstn m l) (skipn m l) idx st)
        as [st1 [Hd1 [Hn1 [Hf1 Hl1]]]].
      { intros E. rewrite E in Hfl. simpl in Hfl. lia. }
      { rewrite Hd, Hfl. reflexivity. }
      rewrite <- Hsplit in Hl1.
      assert (Hdiv : length l / m = length (skipn m l) / m + 1).
      { rewrite Hsl at 1. apply Nat.div_add. lia. }
      assert (Hmod : length l mod m = length (skipn m l) mod m).
      { rewrite Hsl at 1. apply Nat.Div0.mod_add. }
      destruct (Z.eqb_spec (Z.of_nat (S (n_saved_chunks st))) n_chunks) as [Heq|Hne].
      * exists st1. split; [exact Hl1|]. left. rewrite Hn1.
        split; [exact Heq|]. rewrite Hdiv. lia.
      * destruct (IH (skipn m l) (idx + length (firstn m l)) st1)
          as [st' [Hl' Hcases]].
        { rewrite length_skipn. lia. }
        { exact Hd1. }
        { rewrite Hn1. lia. }
        exists st'. split; [rewrite Hl1; exact Hl'|].
        rewrite Hn1 in Hcases. rewrite Hdiv, Hmod.
        destruct Hcases as [[Ha Hb]|[Ha [Hb Hc]]].
        -- left. split; [exact Ha|]. lia.
        -- right. split; [exact Ha|]. split; [lia | exact Hc].
Qed.

(** The loop itself never raises: it saves only what it has just
    extended. *)
Lemma loop_returns (l : list batch) (idx : nat) (st : state row) :
  exists st',
    loop mlp_activation_data max_chunks n_chunks activation_size idx l st = Return st'
    /\ n_saved_chunks st <= n_saved_chunks st'.
Proof.
  revert idx st. induction l as [|b l IH]; intros idx st; simpl.
  - exists st. split; [reflexivity | lia].
  - destruct (max_chunks <=? length (dataset st ++ [mlp_activation_data b])).
    + rewrite save_nonempty.
      destruct (Z.of_nat (S (n_saved_chunks st)) =? n_chunks)%Z.
      * eexists. split; [reflexivity|]. simpl. lia.
      * match goal with |- context [loop _ _ _ _ _ l ?s] =>
          destruct (IH (S idx) s) as [st' [Hl Hle]] end.
        exists st'. split; [exact Hl|]. simpl in Hle. lia.
    + match goal with |- context [loop _ _ _ _ _ l ?s] =>
        destruct (IH (S idx) s) as [st' [Hl Hle]] end.
      exists st'. split; [exact Hl|]. simpl in Hle. lia.
Qed.

(** [make_activation_dataset] raises exactly when the batches end where a
    chunk ends and fewer chunks than asked for have been saved: the
    undersized chunk it then saves is empty, and [torch.cat] refuses it.
    This includes an empty loader. Chunks hold [max(max_chunks, 1)]
    batches. *)
Theorem make_activation_dataset_raises (sentence_dataset : list batch) :
  let m := Nat.max max_chunks 1 in
  raised (make_activation_dataset mlp_activation_data max_chunks n_chunks
            activation_size sentence_dataset) = true
  <-> length sentence_dataset mod m = 0
      /\ (Z.of_nat (length sentence_dataset / m) < n_chunks)%Z.
Proof.
  intros m. unfold make_activation_dataset.
  set (st0 := {| dataset := []; n_saved_chunks := 0; batch_idx := 0;
                 files := []; printed := [] |}).
  destruct (Z.ltb_spec 0 n_chunks) as [Hpos|Hneg].
  - destruct (loop_outcome (length sentence_dataset) sentence_dataset 0 st0
                (le_n _) eq_refl Hpos) as [st' [Hl Hcases]].
    fold m in Hcases. rewrite Hl. simpl in Hcases.
    destruct Hcases as [[Ha Hb]|[Ha [Hb Hc]]].
    + destruct (Z.ltb_spec (Z.of_nat (n_saved_chunks st')) n_chunks) as [H|H];
        [lia|]. simpl. split; [discriminate|]. intros [_ H']. lia.
    + destruct (Z.ltb_spec (Z.of_nat (n_saved_chunks st')) n_chunks) as [H|H];
        [|lia].
      destruct (dataset st') as [|d ds] eqn:Ed; simpl.
      * split; [|reflexivity]. intros _. split; [apply Hc; reflexivity|].
        rewrite <- Hb. exact Ha.
      * split; [discriminate|]. intros [Hmod _]. apply Hc in Hmod. discriminate.
  - destruct (loop_returns sentence_dataset 0 st0) as [st' [Hl _]]. rewrite Hl.
    destruct (Z.ltb_spec (Z.of_nat (n_saved_chunks st')) n_chunks) as [H|H];
      [lia|]. simpl. split; [discriminate|]. intros [_ H']. lia.
Qed.

(** What the loop has written and what it still holds, in terms of the
    batches it has read. *)
Lemma loop_conserves (l : list batch) (idx : nat) (st : state row)
    (pend0 : list batch) :
  dataset st = map mlp_activation_data pend0 ->
  exists st' new saved pend rest,
    loop mlp_activation_data max_chunks n_chunks activation_size idx l st = Return st'
    /\ pend0 ++ l = saved ++ pend ++ rest
    /\ dataset st' = map mlp_activation_data pend
    /\ files st' = files st ++ new
    /\ map fst new = seq (n_saved_chunks st) (length new)
    /\ n_saved_chunks st' = n_saved_chunks st + length new
    /\ concat (map snd new) = concat (map mlp_activation_data saved)
    /\ (rest = [] \/ (Z.of_nat (n_saved_chunks st') = n_chunks /\ pend = []))
    /\ ((Z.of_nat (n_saved_chunks st) < n_chunks)%Z ->
        (Z.of_nat (n_saved_chunks st') <= n_chunks)%Z).
Proof.
  revert idx st pend0. induction l as [|b l IH]; intros idx st pend0 Hd.
  - exists st, [], [], pend0, []. simpl. rewrite !app_nil_r, Nat.add_0_r.
    repeat split; try reflexivity; try exact Hd; auto. lia.
  - assert (Hd' : dataset st ++ [mlp_activation_data b]
                  = map mlp_activation_data (pend0 ++ [b])).
    { rewrite map_app, Hd. reflexivity. }
    simpl.
    destruct (max_chunks <=? length (dataset st ++ [mlp_activation_data b])).
    + rewrite save_nonempty.
      destruct (Z.eqb_spec (Z.of_nat (S (n_saved_chunks st))) n_chunks) as [Heq|Hne].
      * eexists.
        exists [(n_saved_chunks st, concat (dataset st ++ [mlp_activation_data b]))],
               (pend0 ++ [b]), [], l.
        split; [reflexivity|]. cbn [dataset n_saved_chunks files].
        split; [rewrite <- app_assoc; reflexivity|].
        split; [reflexivity|]. split; [reflexivity|].
        split; [reflexivity|]. split; [simpl; lia|].
        split; [simpl; rewrite app_nil_r, Hd'; reflexivity|].
        split; [right; split; [exact Heq | reflexivity]|]. lia.
      * match goal with |- context [loop _ _ _ _ _ l ?s] =>
          destruct (IH (S idx) s []) as
            [st' [new [saved [pend [rest [Hl [Hsp [Hds [Hfs [Hnum [Hns [Hcc [Hr Hb]]]]]]]]]]]]]
        end.
        { reflexivity. }
        cbn [dataset n_saved_chunks files] in Hfs, Hnum, Hns, Hb.
        exists st',
               ((n_saved_chunks st, concat (dataset st ++ [mlp_activation_data b]))
                  :: new),
               ((pend0 ++ [b]) ++ saved), pend, rest.
        split; [exact Hl|].
        split; [simpl in Hsp; rewrite <- !app_assoc, <- Hsp; reflexivity|].
        split; [exact Hds|].
        split; [rewrite Hfs, <- app_assoc; reflexivity|].
        split; [simpl; rewrite Hnum; reflexivity|].
        split; [rewrite Hns; simpl; lia|].
        split.
        { cbn [map snd concat].
          rewrite Hcc, (map_app mlp_activation_data (pend0 ++ [b]) saved).
          rewrite (concat_app (map mlp_activation_data (pend0 ++ [b]))), <- Hd'.
          reflexivity. }
        split; [exact Hr|]. intros Hlt. apply Hb. lia.
    + match goal with |- context [loop _ _ _ _ _ l ?s] =>
        destruct (IH (S idx) s (pend0 ++ [b])) as
          [st' [new [saved [pend [rest [Hl [Hsp [Hds [Hfs [Hnum [Hns [Hcc [Hr Hb]]]]]]]]]]]]]
      end.
      { exact Hd'. }
      cbn [dataset n_saved_chunks files] in Hfs, Hnum, Hns, Hb.
      exists st', new, saved, pend, rest.
      split; [exact Hl|].
      split; [rewrite <- Hsp, <- app_assoc; reflexivity|].
      repeat split; assumption.
Qed.

(** The files hold the activations of the batches, in order and without
    gaps: they are numbered from zero, their contents joined are the
    activations of a prefix of the batches, and that prefix is everything
    unless as many chunks as asked for have been written, which is then
    also the most that is written. This holds for what is on disk when
    the function raises, too. *)
Theorem make_activation_dataset_conserves (sentence_dataset : list batch) :
  let st := final_state (make_activation_dataset mlp_activation_data max_chunks
                           n_chunks activation_size sentence_dataset) in
  map fst (files st) = seq 0 (length (files st))
  /\ ((0 < n_chunks)%Z -> (Z.of_nat (length (files st)) <= n_chunks)%Z)
  /\ exists used rest,
       sentence_dataset = used ++ rest
       /\ concat (map snd (files st)) = concat (map mlp_activation_data used)
       /\ ((Z.of_nat (length (files st)) < n_chunks)%Z -> rest = []).
Proof.
  unfold make_activation_dataset.
  set (st0 := {| dataset := []; n_saved_chunks := 0; batch_idx := 0;
                 files := []; printed := [] |}).
  destruct (loop_conserves sentence_dataset 0 st0 [] eq_refl) as
    [st' [new [saved [pend [rest [Hl [Hsp [Hds [Hfs [Hnum [Hns [Hcc [Hr Hb]]]]]]]]]]]]].
  cbn [dataset n_saved_chunks files st0 app] in Hsp, Hfs, Hnum, Hns, Hb.
  rewrite Nat.add_0_l in Hns. rewrite Hl.
  destruct (Z.ltb_spec (Z.of_nat (n_saved_chunks st')) n_chunks) as [Hlt|Hge].
  - assert (Hrest : rest = []) by (destruct Hr as [H|[H _]]; [exact H | lia]).
    subst rest. rewrite app_nil_r in Hsp.
    unfold save_activation_chunk. destruct (dataset st') as [|d ds] eqn:Ed.
    + cbn [final_state]. rewrite Hfs, Hnum, <- Hns.
      split; [reflexivity|]. split; [intros _; lia|].
      assert (pend = []) by (destruct pend; [reflexivity | discriminate]).
      subst pend. rewrite app_nil_r in Hsp.
      exists saved, []. rewrite app_nil_r. repeat split; auto.
    + cbn [final_state files]. rewrite Hfs, length_app, !map_app, concat_app.
      cbn [length map fst snd concat]. rewrite Nat.add_1_r, seq_S, Hnum, Hns.
      split; [reflexivity|]. split; [intros _; rewrite <- Hns; lia|].
      exists (saved ++ pend), []. rewrite app_nil_r.
      split; [exact Hsp|]. split; [|reflexivity].
      rewrite map_app, concat_app, Hcc, app_nil_r, <- Hds. reflexivity.
  - cbn [final_state]. rewrite Hfs, Hnum, <- Hns.
    split; [reflexivity|]. split.
    + intros Hpos. apply Hb. exact Hpos.
    + exists saved, (pend ++ rest).
      split; [exact Hsp|]. split; [exact Hcc|]. intros H. lia.
Qed.

End Chunks.

End ActivationsFacts.
